(** * homr: the MusicXML generator ([homr/music_xml_generator.py])

    A shallow embedding of the symbol-stream-to-MusicXML compiler: the
    symbol and chord model, the timing analysis, the numbering allocator
    ([ConversionState]), the beaming pass, the tuplet annotator, the
    note/chord emitter and the measure driver, followed by the properties
    of the specification that are settled against them.

    Conventions of the embedding.
    - Python [int] is [Z]; [Fraction] is [Qc] (always in lowest terms, as
      Python's [Fraction] is); [str] is [string]; [dict] is [gmap] (or an
      association list where key order is observable); [list] is [list].
    - Objects that are mutated through an alias (the beam marker of a symbol,
      the attributes block and the barlines of the measure under
      construction) are addressed by their location inside the value that
      owns them.
    - Exceptions are the [inl] side of a result; the conversion state is
      threaded explicitly.
    - The diagnostic channel ([eprint]) is not modelled. *)

From Stdlib Require Import ZArith QArith Qcanon Qround Lqa String Ascii List Lia Bool Sorted.
From stdpp Require Import gmap strings list pretty.

Open Scope Z_scope.

(** ** Python strings *)

Module PyStr.

(** [s.startswith(p)] *)
Definition startswith (s p : string) : bool := String.prefix p s.

(** [sub in s] *)
Fixpoint contains (sub s : string) : bool :=
  String.prefix sub s ||
  match s with
  | EmptyString => false
  | String _ s' => contains sub s'
  end.

(** [s.endswith(p)] *)
Definition endswith (s p : string) : bool :=
  String.prefix (String.rev p) (String.rev s).

(** [s.split(sep)] for a one-character separator. *)
Fixpoint split (sep : ascii) (s : string) : list string :=
  match s with
  | EmptyString => [EmptyString]
  | String c s' =>
      let r := split sep s' in
      if Ascii.eqb c sep then EmptyString :: r
      else match r with
           | h :: t => String c h :: t
           | [] => [String c EmptyString]
           end
  end.

(** [s.replace(c, "")] for a one-character [c]. *)
Fixpoint remove_char (c : ascii) (s : string) : string :=
  match s with
  | EmptyString => EmptyString
  | String a s' =>
      if Ascii.eqb a c then remove_char c s' else String a (remove_char c s')
  end.

Definition digit_of (c : ascii) : option Z :=
  let n := Z.of_nat (nat_of_ascii c) in
  if (48 <=? n) && (n <=? 57) then Some (n - 48) else None.

Fixpoint digits (acc : Z) (s : string) : option Z :=
  match s with
  | EmptyString => Some acc
  | String c s' =>
      match digit_of c with
      | Some d => digits (10 * acc + d) s'
      | None => None
      end
  end.

(** [int(s)] on a decimal literal with an optional sign; [None] stands for
    [ValueError].  (Python also accepts surrounding white space and
    underscores between digits; the token vocabulary has neither.) *)
Definition int (s : string) : option Z :=
  match s with
  | EmptyString => None
  | String "-" (String c r) => Z.opp <$> digits 0 (String c r)
  | String "+" (String c r) => digits 0 (String c r)
  | _ => digits 0 s
  end.

(** [sep.join(l)] *)
Fixpoint join (sep : string) (l : list string) : string :=
  match l with
  | [] => EmptyString
  | [x] => x
  | x :: r => x +:+ sep +:+ join sep r
  end.

End PyStr.

(** ** Fractions *)

Definition Fraction := Qc.

Definition frac (n : Z) (d : positive) : Fraction := Q2Qc (n # d).

Definition numerator (q : Fraction) : Z := Qnum (this q).
Definition denominator (q : Fraction) : Z := Zpos (Qden (this q)).

Definition frac_ltb (a b : Fraction) : bool :=
  match (a ?= b)%Qc with Lt => true | _ => false end.
Definition frac_leb (a b : Fraction) : bool :=
  match (a ?= b)%Qc with Gt => false | _ => true end.
Definition frac_eqb (a b : Fraction) : bool :=
  match (a ?= b)%Qc with Eq => true | _ => false end.

(** [Fraction * int] *)
Definition frac_mul_int (q : Fraction) (n : Z) : Fraction :=
  (q * Q2Qc (inject_Z n))%Qc.

(** [int(q)]: truncation towards zero. *)
Definition int_of_frac (q : Fraction) : Z := Z.quot (numerator q) (denominator q).

Definition frac_min (a b : Fraction) : Fraction := if frac_ltb b a then b else a.
Definition frac_max (a b : Fraction) : Fraction := if frac_ltb a b then b else a.

(** [sorted(l)] on fractions (a stable insertion sort). *)
Fixpoint sorted_insert (x : Fraction) (l : list Fraction) : list Fraction :=
  match l with
  | [] => [x]
  | y :: r => if frac_ltb x y then x :: y :: r else y :: sorted_insert x r
  end.

Definition sorted (l : list Fraction) : list Fraction :=
  foldl (λ acc x, sorted_insert x acc) [] l.

(** ** Symbols and durations

    [EncodedSymbol] lives in [homr.transformer.vocabulary], which is not
    part of the sources at hand.  A symbol is modelled by its five string
    fields, by the value its [get_duration()] returns, and by the transient
    [beam] attribute ([None] when the attribute is absent). *)

(** Modelled from the spec: the constants [empty] and [nonote] of the
    vocabulary module (an absent field and an invalid field), with the
    spellings used by the token lines of the test suite. *)
Definition empty : string := "_".
Definition nonote : string := ".".

Record Duration := {
  fraction : Fraction;
  kern : Z;
  dots : nat;
  actual_notes : Z;
  normal_notes : Z
}.

Module EncodedSymbol.

Record t := {
  rhythm : string;
  pitch : string;
  lift : string;
  articulation : string;
  position : string;
  duration : Duration;
  beam : option string
}.

Definition get_duration (s : t) : Duration := duration s.

Definition with_beam (b : option string) (s : t) : t :=
  {| rhythm := rhythm s; pitch := pitch s; lift := lift s;
     articulation := articulation s; position := position s;
     duration := duration s; beam := b |}.

Definition with_articulation (a : string) (s : t) : t :=
  {| rhythm := rhythm s; pitch := pitch s; lift := lift s;
     articulation := a; position := position s;
     duration := duration s; beam := beam s |}.

(** Modelled from the spec: [strip_articulations(to_strip)] removes the
    listed tags from the articulation field and returns them (in their
    order of occurrence) with the stripped copy; a field left without any
    tag becomes [empty].  The test suite fixes the behaviour on
    ["tieStart_slurStop_tenuto"] and on ["tieStart"]. *)
Definition strip_articulations (to_strip : list string) (s : t)
  : list string * t :=
  let articulations := PyStr.split "_" (articulation s) in
  let stripped := filter (λ a, a ∈ to_strip) articulations in
  let remaining := filter (λ a, a ∉ to_strip) articulations in
  (stripped,
   with_articulation (if decide (remaining = []) then empty
                      else PyStr.join "_" remaining) s).

(** Modelled from the spec: [add_articulations(tags)] reattaches tags to
    the articulation field of a copy. *)
Definition add_articulations (tags : list string) (s : t) : t :=
  let present :=
    filter (λ a, a ≠ EmptyString) (PyStr.split "_" (articulation s)) in
  with_articulation (PyStr.join "_" (present ++ tags)) s.

Definition is_note (s : t) : bool := PyStr.startswith (rhythm s) "note".
Definition is_rest (s : t) : bool := PyStr.startswith (rhythm s) "rest".
(** [rhythm.startswith(("note", "rest"))] *)
Definition is_note_or_rest (s : t) : bool := is_note s || is_rest s.
(** ["G" in rhythm] *)
Definition is_grace (s : t) : bool := PyStr.contains "G" (rhythm s).

End EncodedSymbol.

Abbreviation Symbol := EncodedSymbol.t.

(** ** Chords *)

Module SymbolChord.

Record t := {
  symbols : list Symbol;
  tuplet_mark : string
}.

(** [SymbolChord(symbols)] with the default [tuplet_mark=""]. *)
Definition make (symbols : list Symbol) : t :=
  {| symbols := symbols; tuplet_mark := "" |}.

Definition with_tuplet_mark (m : string) (c : t) : t :=
  {| symbols := symbols c; tuplet_mark := m |}.

Definition is_barline (c : t) : bool :=
  match symbols c with
  | [] => false
  | first :: _ =>
      let first_rhythm := EncodedSymbol.rhythm first in
      PyStr.contains "barline" first_rhythm
      || PyStr.contains "repeat" first_rhythm
  end.

Definition get_duration (c : t) : Fraction :=
  let notes_rests :=
    map (λ s, fraction (EncodedSymbol.get_duration s))
        (filter (λ s, EncodedSymbol.is_note_or_rest s = true) (symbols c)) in
  match notes_rests with
  | [] => 0%Qc
  | x :: r => foldl frac_min x r
  end.

(** The split of [into_positions], over elements that carry a symbol: the
    same code serves the chord itself ([A] is the symbol) and the beaming
    pass, where each symbol comes with its location in the part. *)
Section Split.
Context {A : Type} (sym : A → Symbol).

Definition is_upper (a : A) : bool :=
  String.eqb (EncodedSymbol.position (sym a)) "upper".

Definition split_positions (l : list A) : list (list A) :=
  let upper := filter (λ a, is_upper a = true) l in
  let lower := filter (λ a, is_upper a = false) l in
  let lower_is_only_rest :=
    forallb (λ a, EncodedSymbol.is_rest (sym a)) lower in
  let chords := if lower_is_only_rest then [lower; upper]
                else [upper; lower] in
  filter (λ ch, (0 < length ch)%nat) chords.
End Split.

Definition into_positions (c : t) : list t :=
  map (λ l, {| symbols := l; tuplet_mark := tuplet_mark c |})
      (split_positions id (symbols c)).

(** [strip_slur_ties] *)
Definition strip_slur_ties (c : t) : list (list string) * t :=
  let r := map (EncodedSymbol.strip_articulations
                  ["slurStart"; "slurStop"; "tieStart"; "tieStop"])
               (symbols c) in
  (map fst r, {| symbols := map snd r; tuplet_mark := tuplet_mark c |}).

End SymbolChord.

Abbreviation Chord := SymbolChord.t.

(** ** Timing analysis *)

(** The local [lcm] of [find_common_division]. *)
Definition lcm (a b : Z) : Z := Z.abs (a * b) / Z.gcd a b.

Definition find_common_division (durations : list Fraction) : Z :=
  let denominators :=
    map denominator (filter (λ d, frac_ltb 0%Qc d = true) durations) in
  match denominators with
  | [] => 1
  | d0 :: rest => foldl lcm d0 rest
  end.

(** [numpy.median] on a non-empty list of fractions: the middle element of
    the sorted list, or the mean of the two middle elements. *)
Definition median (l : list Fraction) : Fraction :=
  let s := sorted l in
  let n := length s in
  if Nat.odd n then nth (n / 2)%nat s 0%Qc
  else ((nth (n / 2 - 1)%nat s 0%Qc + nth (n / 2)%nat s 0%Qc) / frac 2 1)%Qc.

(** The loop state of [find_division_and_time_signature_nominator]. *)
Record timing_state := {
  durations : list Fraction;
  duration_in_measure : Fraction;
  measure_duration : list Fraction
}.

Definition timing_step (st : timing_state) (chord : Chord) : timing_state :=
  if SymbolChord.is_barline chord && frac_ltb 0%Qc (duration_in_measure st)
  then {| durations := durations st;
          duration_in_measure := 0%Qc;
          measure_duration := measure_duration st ++ [duration_in_measure st] |}
  else
    let duration := SymbolChord.get_duration chord in
    if frac_ltb 0%Qc duration
    then {| durations := durations st ++ [duration];
            duration_in_measure := (duration_in_measure st + duration)%Qc;
            measure_duration := measure_duration st |}
    else st.

Definition timing_init : timing_state :=
  {| durations := [frac 1 4]; duration_in_measure := 0%Qc;
     measure_duration := [] |}.

Definition find_division_and_time_signature_nominator (voice : list Chord)
  : Z * Fraction :=
  let st := foldl timing_step timing_init voice in
  let measure_duration :=
    if frac_ltb 0%Qc (duration_in_measure st)
    then measure_duration st ++ [duration_in_measure st]
    else measure_duration st in
  match measure_duration with
  | [] => (find_common_division (durations st), 1%Qc)
  | _ => (find_common_division (durations st), median measure_duration)
  end.


(** ** The numbering allocator *)

Module ConversionState.

Record t := {
  beats : Z;
  division : Z;
  nominator : Fraction;
  tremolo_state : string;
  volta_number : Z;
  last_volta_measure : Z;
  _open_slurs : gmap (Z * Z) (list Z);
  _available_slur_numbers : list Z;
  _open_ties : gmap (Z * string * string) (list Z);
  (** a [defaultdict]: a key that was never read stands for
      [list(range(1, 16))] and is entered on its first read *)
  _available_tie_numbers : gmap (Z * string * string) (list Z)
}.

(** [list(range(1, 16))] *)
Definition range_1_16 : list Z := seqZ 1 15.

(** [__init__]; [duration_of_quarter] is [constants.duration_of_quarter]
    (the constants module is not part of the sources at hand). *)
Definition init (duration_of_quarter : Z) (division : Z) (nominator : Fraction)
  : t :=
  {| beats := 4 * duration_of_quarter;
     division := division;
     nominator := nominator;
     tremolo_state := "stop";
     volta_number := 1;
     last_volta_measure := -10;
     _open_slurs := ∅;
     _available_slur_numbers := range_1_16;
     _open_ties := ∅;
     _available_tie_numbers := ∅ |}.

Definition set_beats (v : Z) (s : t) : t :=
  {| beats := v; division := division s; nominator := nominator s;
     tremolo_state := tremolo_state s; volta_number := volta_number s;
     last_volta_measure := last_volta_measure s;
     _open_slurs := _open_slurs s;
     _available_slur_numbers := _available_slur_numbers s;
     _open_ties := _open_ties s;
     _available_tie_numbers := _available_tie_numbers s |}.

Definition set_tremolo_state (v : string) (s : t) : t :=
  {| beats := beats s; division := division s; nominator := nominator s;
     tremolo_state := v; volta_number := volta_number s;
     last_volta_measure := last_volta_measure s;
     _open_slurs := _open_slurs s;
     _available_slur_numbers := _available_slur_numbers s;
     _open_ties := _open_ties s;
     _available_tie_numbers := _available_tie_numbers s |}.

Definition set_volta_number (v : Z) (s : t) : t :=
  {| beats := beats s; division := division s; nominator := nominator s;
     tremolo_state := tremolo_state s; volta_number := v;
     last_volta_measure := last_volta_measure s;
     _open_slurs := _open_slurs s;
     _available_slur_numbers := _available_slur_numbers s;
     _open_ties := _open_ties s;
     _available_tie_numbers := _available_tie_numbers s |}.

Definition set_last_volta_measure (v : Z) (s : t) : t :=
  {| beats := beats s; division := division s; nominator := nominator s;
     tremolo_state := tremolo_state s; volta_number := volta_number s;
     last_volta_measure := v;
     _open_slurs := _open_slurs s;
     _available_slur_numbers := _available_slur_numbers s;
     _open_ties := _open_ties s;
     _available_tie_numbers := _available_tie_numbers s |}.

Definition set_slurs (open : gmap (Z * Z) (list Z)) (available : list Z)
    (s : t) : t :=
  {| beats := beats s; division := division s; nominator := nominator s;
     tremolo_state := tremolo_state s; volta_number := volta_number s;
     last_volta_measure := last_volta_measure s;
     _open_slurs := open;
     _available_slur_numbers := available;
     _open_ties := _open_ties s;
     _available_tie_numbers := _available_tie_numbers s |}.

Definition set_ties (open available : gmap (Z * string * string) (list Z))
    (s : t) : t :=
  {| beats := beats s; division := division s; nominator := nominator s;
     tremolo_state := tremolo_state s; volta_number := volta_number s;
     last_volta_measure := last_volta_measure s;
     _open_slurs := _open_slurs s;
     _available_slur_numbers := _available_slur_numbers s;
     _open_ties := open;
     _available_tie_numbers := available |}.

Definition start_volta (measure_no : Z) (s : t) : Z * t :=
  let v := if measure_no =? last_volta_measure s + 1
           then volta_number s + 1 else 1 in
  (v, set_volta_number v s).

Definition stop_volta (measure_no : Z) (s : t) : Z * t :=
  (volta_number s, set_last_volta_measure measure_no s).

Definition toggle_tremolo_state (s : t) : string * t :=
  let v := if String.eqb (tremolo_state s) "start" then "stop" else "start" in
  (v, set_tremolo_state v s).

(** [bisect.insort(l, x)]: [x] goes after the last element that is not
    greater.  The linear scan returns what the binary search returns on a
    sorted list, and the free lists are sorted throughout. *)
Fixpoint insort (x : Z) (l : list Z) : list Z :=
  match l with
  | [] => [x]
  | y :: r => if x <? y then x :: y :: r else y :: insort x r
  end.

(** The pool exhausted: the number on top of the stack, or 6. *)
Definition fallback_number (stack : list Z) : Z :=
  match last stack with Some n => n | None => 6 end.

Definition start_slur (staff voice : Z) (s : t) : Z * t :=
  let key := (staff, voice) in
  let stack := default [] (_open_slurs s !! key) in
  match _available_slur_numbers s with
  | [] =>
      let number := fallback_number stack in
      (number,
       set_slurs (<[key := stack ++ [number]]> (_open_slurs s)) [] s)
  | number :: rest =>
      (number,
       set_slurs (<[key := stack ++ [number]]> (_open_slurs s)) rest s)
  end.

Definition _release_slur_number (key : Z * Z) (number : Z) (s : t) : t :=
  if (1 <=? number) && (number <=? 6)
     && negb (bool_decide (number ∈ _available_slur_numbers s))
  then set_slurs (_open_slurs s) (insort number (_available_slur_numbers s)) s
  else s.

Definition stop_slur (staff voice : Z) (s : t) : option Z * t :=
  let key := (staff, voice) in
  match _open_slurs s !! key with
  | None => (None, s)
  | Some stack =>
      match last stack with
      | None => (None, s)
      | Some number =>
          let s1 := set_slurs (<[key := removelast stack]> (_open_slurs s))
                              (_available_slur_numbers s) s in
          (Some number, _release_slur_number key number s1)
      end
  end.

Definition start_tie (staff : Z) (pitch lift : string) (s : t) : Z * t :=
  let key := (staff, pitch, lift) in
  let available := default range_1_16 (_available_tie_numbers s !! key) in
  let stack := default [] (_open_ties s !! key) in
  match available with
  | [] =>
      let number := fallback_number stack in
      (number,
       set_ties (<[key := stack ++ [number]]> (_open_ties s))
                (<[key := []]> (_available_tie_numbers s)) s)
  | number :: rest =>
      (number,
       set_ties (<[key := stack ++ [number]]> (_open_ties s))
                (<[key := rest]> (_available_tie_numbers s)) s)
  end.

Definition _release_tie_number (key : Z * string * string) (number : Z)
    (s : t) : t :=
  let available := default range_1_16 (_available_tie_numbers s !! key) in
  if (1 <=? number) && (number <=? 6)
     && negb (bool_decide (number ∈ available))
  then set_ties (_open_ties s)
                (<[key := insort number available]> (_available_tie_numbers s)) s
  else set_ties (_open_ties s)
                (<[key := available]> (_available_tie_numbers s)) s.

Definition stop_tie (staff : Z) (pitch lift : string) (s : t) : option Z * t :=
  let key := (staff, pitch, lift) in
  match _open_ties s !! key with
  | None => (None, s)
  | Some stack =>
      match last stack with
      | None => (None, s)
      | Some number =>
          let s1 := set_ties (<[key := removelast stack]> (_open_ties s))
                             (_available_tie_numbers s) s in
          (Some number, _release_tie_number key number s1)
      end
  end.

End ConversionState.

Abbreviation State := ConversionState.t.

(** ** The tuplet annotator *)

Definition chord_is_tuplet (group : Chord) : bool :=
  foldl (λ (is_tuplet : bool) symbol,
           if EncodedSymbol.is_note_or_rest symbol then
             let duration := EncodedSymbol.get_duration symbol in
             is_tuplet || negb (normal_notes duration =? actual_notes duration)
           else is_tuplet)
        false (SymbolChord.symbols group).

Fixpoint tuplet_loop (has_tuplet_mark : bool) (groups : list Chord)
  : list Chord :=
  match groups with
  | [] => []
  | group :: rest =>
      let is_tuplet := chord_is_tuplet group in
      if negb (Bool.eqb is_tuplet has_tuplet_mark) then
        SymbolChord.with_tuplet_mark
          (if has_tuplet_mark then "stop" else "start") group
        :: tuplet_loop is_tuplet rest
      else group :: tuplet_loop has_tuplet_mark rest
  end.

Definition add_tuplet_start_stop (groups : list Chord) : list Chord :=
  tuplet_loop false groups.

(** ** The beaming pass *)

Definition _is_beamable_note (symbol : Symbol) : bool :=
  if negb (EncodedSymbol.is_note symbol) then false
  else if EncodedSymbol.is_grace symbol then false
  else
    let duration := EncodedSymbol.get_duration symbol in
    if frac_leb (fraction duration) 0%Qc then false
    else frac_ltb (fraction duration) (frac 1 4).

(** A symbol object of the part: the index of its chord and its index in
    that chord's [symbols]. *)
Definition loc : Type := nat * nat.

(** [symbol.beam = b] through a reference to the symbol. *)
Definition set_beam (l : loc) (b : string) (groups : list Chord) : list Chord :=
  alter (λ c, {| SymbolChord.symbols :=
                   alter (EncodedSymbol.with_beam (Some b)) l.2
                         (SymbolChord.symbols c);
                 SymbolChord.tuplet_mark := SymbolChord.tuplet_mark c |})
        l.1 groups.

(** The symbol behind a reference, and its beam marker. *)
Definition symbol_at (groups : list Chord) (l : loc) : option Symbol :=
  c ← groups !! l.1; SymbolChord.symbols c !! l.2.

Definition beam_at (groups : list Chord) (l : loc) : option string :=
  symbol_at groups l ≫= EncodedSymbol.beam.

Definition _finalize_pending_beam (pending : option loc) (run_length : Z)
    (groups : list Chord) : list Chord :=
  match pending with
  | None => groups
  | Some p => if run_length <? 2 then groups else set_beam p "end" groups
  end.

(** The state of one pass: the two loop variables and the part, whose
    symbols the pass marks. *)
Record beam_state := {
  pending : option loc;
  run_length : Z;
  marked : list Chord
}.

Definition beam_flush (st : beam_state) : beam_state :=
  {| pending := None; run_length := 0;
     marked := _finalize_pending_beam (pending st) (run_length st) (marked st) |}.

(** The symbols of a chord, each with its index. *)
Definition indexed_symbols (group : Chord) : list (nat * Symbol) :=
  imap (λ i s, (i, s)) (SymbolChord.symbols group).

(** The sub-chord of [group] at [staff_position], if any. *)
Definition staff_chord_of (staff_position : string) (group : Chord)
  : option (list (nat * Symbol)) :=
  List.find (λ chord,
               match chord with
               | (_, first) :: _ =>
                   String.eqb (EncodedSymbol.position first) staff_position
               | [] => false
               end)
            (SymbolChord.split_positions snd (indexed_symbols group)).

(** The scan of the sub-chord, up to its [break]: the candidate and the two
    flags. *)
Fixpoint beam_scan (symbols : list (nat * Symbol))
    (has_note_or_rest has_rest : bool) : option nat * bool * bool :=
  match symbols with
  | [] => (None, has_note_or_rest, has_rest)
  | (i, symbol) :: rest =>
      let has_rest' := EncodedSymbol.is_rest symbol || has_rest in
      let has_note_or_rest' :=
        EncodedSymbol.is_rest symbol || EncodedSymbol.is_note symbol
        || has_note_or_rest in
      if _is_beamable_note symbol then (Some i, has_note_or_rest', has_rest')
      else beam_scan rest has_note_or_rest' has_rest'
  end.

(** One iteration of the loop over the chords at one staff position.  The
    chord is read from the part as it was when the pass started: a pass
    writes beam markers only, and reads none. *)
Definition beam_step (staff_position : string) (st : beam_state)
    (ig : nat * Chord) : beam_state :=
  let '(gi, group) := ig in
  if SymbolChord.is_barline group then beam_flush st
  else
    match staff_chord_of staff_position group with
    | None => beam_flush st
    | Some staff_chord =>
        let '(found, has_note_or_rest, has_rest) :=
          beam_scan staff_chord false false in
        let candidate := if has_rest then None else found in
        match candidate with
        | None => if has_note_or_rest then beam_flush st else st
        | Some si =>
            match pending st with
            | None =>
                {| pending := Some (gi, si); run_length := 1;
                   marked := marked st |}
            | Some p =>
                {| pending := Some (gi, si);
                   run_length := run_length st + 1;
                   marked :=
                     set_beam p (if run_length st =? 1 then "begin"
                                 else "continue") (marked st) |}
            end
        end
    end.

Definition indexed_groups (groups : list Chord) : list (nat * Chord) :=
  imap (λ i g, (i, g)) groups.

Definition beam_pass (staff_position : string) (groups : list Chord)
  : list Chord :=
  let st := foldl (beam_step staff_position)
                  {| pending := None; run_length := 0; marked := groups |}
                  (indexed_groups groups) in
  _finalize_pending_beam (pending st) (run_length st) (marked st).

(** [delattr(symbol, "beam")] on every symbol. *)
Definition erase_beams (c : Chord) : Chord :=
  {| SymbolChord.symbols :=
       map (EncodedSymbol.with_beam None) (SymbolChord.symbols c);
     SymbolChord.tuplet_mark := SymbolChord.tuplet_mark c |}.

Definition clear_beams (groups : list Chord) : list Chord :=
  map erase_beams groups.

Definition apply_beaming (groups : list Chord) : list Chord :=
  foldl (λ gs staff_position, beam_pass staff_position gs)
        (clear_beams groups) ["upper"; "lower"].

(** ** Document trees

    The [musicxml] package is an external collaborator.  An element is
    modelled by its class name, its XML attributes, its [value_] and its
    children in the order in which they were attached.  The schema-driven
    reordering of the package is not modelled; of its value checks, the
    two that the symbols of a part can fail in the emitter are: the step
    of a pitch and the duration of a note or backup ([XMLStep] and
    [XMLDuration] below). *)

Inductive xml_value := VInt (z : Z) | VStr (s : string).

#[global] Instance xml_value_eq_dec : EqDecision xml_value.
Proof. solve_decision. Defined.

Inductive XMLElement :=
  XMLNode (cls : string) (attrs : list (string * xml_value))
          (value_ : option xml_value) (children : list XMLElement).

Module mxl.

Definition cls (e : XMLElement) : string :=
  let '(XMLNode c _ _ _) := e in c.
Definition attrs (e : XMLElement) : list (string * xml_value) :=
  let '(XMLNode _ a _ _) := e in a.
Definition value_ (e : XMLElement) : option xml_value :=
  let '(XMLNode _ _ v _) := e in v.
Definition get_children (e : XMLElement) : list XMLElement :=
  let '(XMLNode _ _ _ ch) := e in ch.

(** Constructors: a bare element, one with a value, one with attributes. *)
Definition elem (c : string) : XMLElement := XMLNode c [] None [].
Definition elem_v (c : string) (v : xml_value) : XMLElement :=
  XMLNode c [] (Some v) [].
Definition elem_a (c : string) (a : list (string * xml_value)) : XMLElement :=
  XMLNode c a None [].

Definition add_child (child parent : XMLElement) : XMLElement :=
  let '(XMLNode c a v ch) := parent in XMLNode c a v (ch ++ [child]).

(** The child at index [i] replaced by its image: a mutation of that child
    through a reference to it. *)
Definition alter_child (f : XMLElement → XMLElement) (i : nat)
    (parent : XMLElement) : XMLElement :=
  let '(XMLNode c a v ch) := parent in XMLNode c a v (alter f i ch).

Definition isinstance (e : XMLElement) (c : string) : bool :=
  String.eqb (cls e) c.

Definition get_children_of_type (c : string) (e : XMLElement)
  : list XMLElement :=
  List.filter (λ ch, isinstance ch c) (get_children e).

Definition get_attr (name : string) (e : XMLElement) : option xml_value :=
  snd <$> List.find (λ kv, String.eqb (fst kv) name) (attrs e).

(** [str(v)] of a value or attribute. *)
Definition str (v : option xml_value) : string :=
  match v with
  | Some (VInt z) => pretty z
  | Some (VStr s) => s
  | None => "None"
  end.

End mxl.

Definition _find_child_of_type (node : XMLElement) (child_type : string)
  : option XMLElement :=
  List.find (λ child, mxl.isinstance child child_type) (mxl.get_children node).

(** ** Exceptions and the conversion monad *)

(** [ValueError msg] is a [ValueError] with the message that the file (or
    [max]) gives it.  Two more kinds of [ValueError] come from outside the
    file, with a message that is not written here: [InvalidLiteral s] is
    the one that [int(s)] raises; [SchemaError c] is the one that the
    [musicxml] package raises when the value given to an element of class
    [c] fails the check of the type of that element. *)
Inductive exn :=
  | ValueError (msg : string)
  | IndexError
  | KeyError
  | InvalidLiteral (literal : string)
  | SchemaError (element : string).

Definition result (A : Type) : Type := exn + A.

Definition result_map {A B : Type} (f : A → B) (r : result A) : result B :=
  match r with inl e => inl e | inr a => inr (f a) end.

Definition M (A : Type) : Type := State → result (A * State).

#[global] Instance M_ret : MRet M := λ A a s, inr (a, s).
#[global] Instance M_bind : MBind M := λ A B k m s,
  match m s with
  | inl e => inl e
  | inr (a, s') => k a s'
  end.

Definition raise {A : Type} (e : exn) : M A := λ _, inl e.
Definition get_state : M State := λ s, inr (s, s).
Definition put_state (s : State) : M unit := λ _, inr (tt, s).
Definition with_state {A : Type} (f : State → A * State) : M A :=
  λ s, inr (f s).
Definition of_option {A : Type} (e : exn) (o : option A) : M A :=
  match o with Some a => mret a | None => raise e end.

(** The value checks of the [musicxml] package that the data of a part
    can fail in the emitter: the value of a step is one of the letters A
    to G, and the value of a duration is positive.  Every other element is
    built without a check. *)
Definition XMLStep (value_ : string) : M XMLElement :=
  if bool_decide (value_ ∈ ["A"; "B"; "C"; "D"; "E"; "F"; "G"])
  then mret (mxl.elem_v "XMLStep" (VStr value_))
  else raise (SchemaError "XMLStep").

Definition XMLDuration (value_ : Z) : M XMLElement :=
  if 0 <? value_ then mret (mxl.elem_v "XMLDuration" (VInt value_))
  else raise (SchemaError "XMLDuration").

(** A loop whose body may raise: [for x in l: acc = body(acc, x)]. *)
Fixpoint for_each {A B : Type} (body : B → A → M B) (l : list A) (acc : B)
  : M B :=
  match l with
  | [] => mret acc
  | x :: r => acc' ← body acc x; for_each body r acc'
  end.

(** ** The note and chord emitter *)

Definition get_staff (symbol : Symbol) : Z :=
  if String.eqb (EncodedSymbol.position symbol) "lower" then 2 else 1.

Definition LIFT_TO_ALTER (lift : string) : option Z :=
  if String.eqb lift "N" then Some 0
  else if String.eqb lift "#" then Some 1
  else if String.eqb lift "##" then Some 2
  else if String.eqb lift "b" then Some (-1)
  else if String.eqb lift "bb" then Some (-2)
  else None.

Definition DURATION_NAMES (base : Z) : option string :=
  if base =? 0 then Some "breve"
  else if base =? 1 then Some "whole"
  else if base =? 2 then Some "half"
  else if base =? 4 then Some "quarter"
  else if base =? 8 then Some "eighth"
  else if base =? 16 then Some "16th"
  else if base =? 32 then Some "32nd"
  else if base =? 64 then Some "64th"
  else if base =? 128 then Some "128th"
  else None.

(** The key of a tie: the pitch and the alteration read back from the note
    under construction. *)
Definition tie_key (note : XMLElement) : option (string * string) :=
  pitch ← _find_child_of_type note "XMLPitch";
  step ← _find_child_of_type pitch "XMLStep";
  octave ← _find_child_of_type pitch "XMLOctave";
  let pitch_key := mxl.str (mxl.value_ step) +:+ mxl.str (mxl.value_ octave) in
  let lift := match _find_child_of_type pitch "XMLAlter" with
              | Some alter => mxl.str (mxl.value_ alter)
              | None => "0"
              end in
  Some (pitch_key, lift).

(** The three accumulators of the loop of [build_articulations]: the
    children of the notations element and the two pending lists. *)
Record art_acc := {
  notation : list XMLElement;
  xml_articulations : list XMLElement;
  xml_ornaments : list XMLElement
}.

Definition to_notation (e : XMLElement) (acc : art_acc) : art_acc :=
  {| notation := notation acc ++ [e];
     xml_articulations := xml_articulations acc;
     xml_ornaments := xml_ornaments acc |}.
Definition to_articulations (e : XMLElement) (acc : art_acc) : art_acc :=
  {| notation := notation acc;
     xml_articulations := xml_articulations acc ++ [e];
     xml_ornaments := xml_ornaments acc |}.
Definition to_ornaments (e : XMLElement) (acc : art_acc) : art_acc :=
  {| notation := notation acc;
     xml_articulations := xml_articulations acc;
     xml_ornaments := xml_ornaments acc ++ [e] |}.

(** A slur or tie element: [type] and, when known, [number]. *)
Definition paired_mark (c type : string) (number : option Z) : XMLElement :=
  mxl.elem_a c (("type", VStr type) ::
                match number with
                | Some n => [("number", VInt n)]
                | None => []
                end).

(** One iteration of the loop of [build_articulations]. *)
Definition articulation_step (note : XMLElement) (staff voice : option Z)
    (acc : art_acc) (articulation : string) : M art_acc :=
  if String.eqb articulation "" then mret acc
  else if String.eqb articulation nonote then mret acc
  else if String.eqb articulation "fermata" then
    mret (to_notation (mxl.elem "XMLFermata") acc)
  else if String.eqb articulation "arpeggiate" then
    mret (to_notation (mxl.elem "XMLArpeggiate") acc)
  else if String.eqb articulation "accent" then
    mret (to_articulations (mxl.elem "XMLAccent") acc)
  else if String.eqb articulation "staccato" then
    mret (to_articulations (mxl.elem "XMLStaccato") acc)
  else if String.eqb articulation "staccatissimo" then
    mret (to_articulations (mxl.elem "XMLStaccatissimo") acc)
  else if String.eqb articulation "tenuto" then
    mret (to_articulations (mxl.elem "XMLTenuto") acc)
  else if String.eqb articulation "tremolo" then
    type ← with_state ConversionState.toggle_tremolo_state;
    mret (to_ornaments
            (XMLNode "XMLTremolo" [("type", VStr type)] (Some (VInt 3)) []) acc)
  else if String.eqb articulation "trill" then
    mret (to_ornaments (mxl.elem "XMLTrillMark") acc)
  else if String.eqb articulation "breathMark" then
    mret (to_articulations (mxl.elem "XMLBreathMark") acc)
  else if String.eqb articulation "turn" then
    mret (to_ornaments (mxl.elem "XMLInvertedTurn") acc)
  else if String.eqb articulation "caesura" then
    mret (to_articulations (mxl.elem "XMLCaesura") acc)
  else if String.eqb articulation "doit" then
    mret (to_articulations (mxl.elem "XMLDoit") acc)
  else if String.eqb articulation "slurStart" then
    match staff, voice with
    | Some staff, Some voice =>
        number ← with_state (ConversionState.start_slur staff voice);
        mret (to_notation (paired_mark "XMLSlur" "start" (Some number)) acc)
    | _, _ => mret (to_notation (paired_mark "XMLSlur" "start" None) acc)
    end
  else if String.eqb articulation "slurStop" then
    match staff, voice with
    | Some staff, Some voice =>
        number ← with_state (ConversionState.stop_slur staff voice);
        match number with
        | Some number =>
            mret (to_notation (paired_mark "XMLSlur" "stop" (Some number)) acc)
        | None => mret acc
        end
    | _, _ => mret acc
    end
  else if String.eqb articulation "tieStart" then
    match staff, voice, tie_key note with
    | Some staff, Some _, Some (pitch_key, lift) =>
        number ← with_state (ConversionState.start_tie staff pitch_key lift);
        mret (to_notation (paired_mark "XMLTied" "start" (Some number)) acc)
    | _, _, _ => mret (to_notation (paired_mark "XMLTied" "start" None) acc)
    end
  else if String.eqb articulation "tieStop" then
    match staff, voice, tie_key note with
    | Some staff, Some _, Some (pitch_key, lift) =>
        number ← with_state (ConversionState.stop_tie staff pitch_key lift);
        match number with
        | Some number =>
            mret (to_notation (paired_mark "XMLTied" "stop" (Some number)) acc)
        | None => mret acc
        end
    | _, _, _ => mret acc
    end
  else raise (ValueError ("Unsupported articulation " +:+ articulation)).

(** [build_articulations]: the note with its notations element attached.
    The source attaches the (still empty) notations element first and fills
    it afterwards through the alias; nothing else is attached to the note
    in between. *)
Definition build_articulations (note : XMLElement) (articualations : string)
    (tuplet_mark : string) (staff voice : option Z) : M XMLElement :=
  acc ← for_each (articulation_step note staff voice)
                 (PyStr.split "_" articualations)
                 {| notation := []; xml_articulations := [];
                    xml_ornaments := [] |};
  let children := notation acc in
  let children :=
    if negb (String.eqb tuplet_mark "") then
      children ++ [mxl.elem_a "XMLTuplet" [("type", VStr tuplet_mark)]]
    else children in
  let children :=
    match xml_articulations acc with
    | [] => children
    | l => children ++ [XMLNode "XMLArticulations" [] None l]
    end in
  let children :=
    match xml_ornaments acc with
    | [] => children
    | l => children ++ [XMLNode "XMLOrnaments" [] None l]
    end in
  mret (mxl.add_child (XMLNode "XMLNotations" [] None children) note).

(** [s[i]] as a one-character string. *)
Definition char_at (s : string) (i : nat) : option string :=
  (λ c, String c EmptyString) <$> String.get i s.

Definition build_note_or_rest (model_note : Symbol) (voice : Z)
    (is_chord : bool) (tuplet_mark : string) : M XMLElement :=
  let note := mxl.elem "XMLNote" in
  let note := if is_chord then mxl.add_child (mxl.elem "XMLChord") note
              else note in
  let model_pitch := EncodedSymbol.pitch model_note in
  let model_duration := EncodedSymbol.get_duration model_note in
  note ←
    (if String.eqb model_pitch empty then
       if numerator (fraction model_duration) =? 0 then
         mret (mxl.add_child
                 (mxl.elem_a "XMLRest" [("measure", VStr "yes")]) note)
       else mret (mxl.add_child (mxl.elem "XMLRest") note)
     else if String.eqb model_pitch nonote then
       mret (mxl.add_child (mxl.elem "XMLRest") note)
     else
       step ← of_option IndexError (char_at model_pitch 0);
       step ← XMLStep step;
       octave_digit ← of_option IndexError (char_at model_pitch 1);
       octave ← of_option (InvalidLiteral octave_digit)
                          (PyStr.int octave_digit);
       let pitch :=
         XMLNode "XMLPitch" [] None
           [step; mxl.elem_v "XMLOctave" (VInt octave)] in
       pitch ←
         (if String.eqb (EncodedSymbol.lift model_note) nonote then mret pitch
          else if negb (String.eqb (EncodedSymbol.lift model_note) empty) then
            alter ← of_option KeyError
                              (LIFT_TO_ALTER (EncodedSymbol.lift model_note));
            mret (mxl.add_child (mxl.elem_v "XMLAlter" (VInt alter)) pitch)
          else mret pitch);
       mret (mxl.add_child pitch note));
  state ← get_state;
  note ←
    (if EncodedSymbol.is_grace model_note then
       let note := mxl.add_child (mxl.elem "XMLGrace") note in
       duration_name ← of_option KeyError (DURATION_NAMES (kern model_duration));
       mret (mxl.add_child (mxl.elem_v "XMLType" (VStr duration_name)) note)
     else if 0 <? numerator (fraction model_duration) then
       let base_duration :=
         if kern model_duration =? 0 then 1 else kern model_duration in
       duration_name ← of_option KeyError (DURATION_NAMES base_duration);
       let note :=
         mxl.add_child (mxl.elem_v "XMLType" (VStr duration_name)) note in
       duration ← XMLDuration
                    (int_of_frac
                       (frac_mul_int (fraction model_duration)
                                     (ConversionState.division state)));
       mret (mxl.add_child duration note)
     else
       let note := mxl.add_child (mxl.elem_v "XMLType" (VStr "breve")) note in
       duration ← XMLDuration (ConversionState.beats state);
       mret (mxl.add_child duration note));
  let staff_value := get_staff model_note in
  let note := mxl.add_child (mxl.elem_v "XMLStaff" (VInt staff_value)) note in
  let xml_voice := voice + 1 in
  let note :=
    mxl.add_child (mxl.elem_v "XMLVoice" (VStr (pretty xml_voice))) note in
  let note :=
    match EncodedSymbol.beam model_note with
    | Some beam_value =>
        if negb (String.eqb beam_value "") && negb is_chord
           && _is_beamable_note model_note
        then mxl.add_child
               (XMLNode "XMLBeam" [("number", VInt 1)]
                        (Some (VStr beam_value)) []) note
        else note
    | None => note
    end in
  let note :=
    foldl (λ n _, mxl.add_child (mxl.elem "XMLDot") n) note
          (seq 0 (dots model_duration)) in
  if negb (actual_notes model_duration =? normal_notes model_duration) then
    let time_modification :=
      XMLNode "XMLTimeModification" [] None
        [mxl.elem_v "XMLActualNotes" (VInt (actual_notes model_duration));
         mxl.elem_v "XMLNormalNotes" (VInt (normal_notes model_duration))] in
    let note := mxl.add_child time_modification note in
    build_articulations note (EncodedSymbol.articulation model_note)
                        tuplet_mark (Some staff_value) (Some xml_voice)
  else
    build_articulations note (EncodedSymbol.articulation model_note)
                        "" (Some staff_value) (Some xml_voice).

(** [_group_notes], over elements that carry a symbol (the emitter groups
    each stripped symbol together with the tags recorded for it).  The
    dictionary is an association list in insertion order. *)
Section GroupNotes.
Context {A : Type} (sym : A → Symbol).

Fixpoint dict_append (k : Fraction) (v : A) (d : list (Fraction * list A))
  : list (Fraction * list A) :=
  match d with
  | [] => [(k, [v])]
  | (k', vs) :: r =>
      if frac_eqb k k' then (k', vs ++ [v]) :: r
      else (k', vs) :: dict_append k v r
  end.

Definition dict_get (k : Fraction) (d : list (Fraction * list A)) : list A :=
  match List.find (λ kv, frac_eqb k (fst kv)) d with
  | Some kv => snd kv
  | None => []
  end.

Definition group_key (max_duration : Fraction) (note : A) : Fraction :=
  let duration := EncodedSymbol.get_duration (sym note) in
  if EncodedSymbol.is_grace (sym note) then 0%Qc
  else if numerator (fraction duration) =? 0 then max_duration
  else fraction duration.

Definition _group_notes (notes : list A)
  : result (list (Fraction * list A)) :=
  match map (λ n, fraction (EncodedSymbol.get_duration (sym n))) notes with
  | [] => inl (ValueError "max() arg is an empty sequence")
  | x :: r =>
      let max_duration := foldl frac_max x r in
      inr (foldl (λ groups_by_duration note,
                    dict_append (group_key max_duration note) note
                                groups_by_duration)
                 [] notes)
  end.
End GroupNotes.

Definition of_result {A : Type} (r : result A) : M A :=
  match r with inl e => raise e | inr a => mret a end.

(** A backup of [ticks]: the duration is built first, and checked. *)
Definition backup (ticks : Z) : M XMLElement :=
  duration ← XMLDuration ticks;
  mret (XMLNode "XMLBackup" [] None [duration]).

Definition build_note_chord (note_chord : Chord) (chord_duration : Fraction)
  : M (list XMLElement) :=
  let '(slur_tie_groups, note_chord) := SymbolChord.strip_slur_ties note_chord in
  (* [slur_tie_map]: each stripped symbol with the tags recorded for it *)
  let tagged := zip (SymbolChord.symbols note_chord) slur_tie_groups in
  by_duration ← of_result (_group_notes fst tagged);
  let voice_offset :=
    match SymbolChord.symbols note_chord with
    | first :: _ =>
        if String.eqb (EncodedSymbol.position first) "lower" then 1 else 0
    | [] => 0
    end in
  let keys := sorted (map fst by_duration) in
  '(result, final_duration) ←
    for_each
      (λ '(result, _) '(i, group_duration),
         '(result, _) ←
           for_each
             (λ '(result, is_first) '(note_loop, slur_ties),
                let note :=
                  match slur_ties with
                  | [] => note_loop
                  | _ => EncodedSymbol.add_articulations slur_ties note_loop
                  end in
                let voice := Z.of_nat i + voice_offset in
                xml ← build_note_or_rest note voice (negb is_first)
                                         (SymbolChord.tuplet_mark note_chord);
                mret (result ++ [xml], false))
             (dict_get group_duration by_duration) (result, true);
         state ← get_state;
         result ←
           (if negb (i =? length by_duration - 1)%nat
               && frac_ltb 0%Qc group_duration
            then
              backup ← backup (int_of_frac
                                 (frac_mul_int group_duration
                                    (ConversionState.division state)));
              mret (result ++ [backup])
            else mret result);
         mret (result, group_duration))
      (imap (λ i k, (i, k)) keys) ([], 0%Qc);
  state ← get_state;
  (* Reset the position to match the chord position *)
  if frac_ltb chord_duration final_duration then
    backup ← backup (int_of_frac
                       (frac_mul_int (final_duration - chord_duration)%Qc
                                     (ConversionState.division state)));
    mret (result ++ [backup])
  else mret result.

(** ** The measure driver *)

Record XmlGeneratorArguments := {
  large_page : option bool;
  metronome : option Z;
  tempo : option Z
}.

Definition _measure_has_musical_content (measure : XMLElement) : bool :=
  existsb (λ child, mxl.isinstance child "XMLNote"
                    || mxl.isinstance child "XMLBackup"
                    || mxl.isinstance child "XMLForward")
          (mxl.get_children measure).

(** [build_or_get_attributes]: the measure and the index of the attributes
    block among its children. *)
Definition build_or_get_attributes (measure : XMLElement)
    (last_attributes : option nat) (force_new : bool) : XMLElement * nat :=
  match last_attributes with
  | Some a =>
      if negb force_new || negb (_measure_has_musical_content measure)
      then (measure, a)
      else (mxl.add_child (mxl.elem "XMLAttributes") measure,
            length (mxl.get_children measure))
  | None =>
      (mxl.add_child (mxl.elem "XMLAttributes") measure,
       length (mxl.get_children measure))
  end.

Definition _max_staff_number (voice : list Symbol) : Z :=
  foldl (λ max_staff symbol, Z.max max_staff (get_staff symbol)) 1 voice.

Fixpoint find_index {A : Type} (p : A → bool) (l : list A) : option nat :=
  match l with
  | [] => None
  | x :: r => if p x then Some 0%nat else S <$> find_index p r
  end.

(** [build_or_get_barline]: the measure and the index of the barline. *)
Definition build_or_get_barline (measure : XMLElement) (location : string)
  : XMLElement * nat :=
  match find_index
          (λ child, mxl.isinstance child "XMLBarline"
                    && bool_decide (mxl.get_attr "location" child
                                    = Some (VStr location)))
          (mxl.get_children measure) with
  | Some i => (measure, i)
  | None =>
      (mxl.add_child (mxl.elem_a "XMLBarline" [("location", VStr location)])
                     measure,
       length (mxl.get_children measure))
  end.

(** A child mutated through a reference by code that may raise. *)
Definition update_child (f : XMLElement → M XMLElement) (i : nat)
    (parent : XMLElement) : M XMLElement :=
  match mxl.get_children parent !! i with
  | Some child => child' ← f child; mret (mxl.alter_child (λ _, child') i parent)
  | None => mret parent
  end.

(** [l[i]] *)
Definition item {A : Type} (l : list A) (i : nat) : M A :=
  of_option IndexError (l !! i).

Definition parse_int (s : string) : M Z :=
  of_option (InvalidLiteral s) (PyStr.int s).

Definition build_key (model_key : Symbol) (attributes : XMLElement)
  : M XMLElement :=
  circle_of_fifth ← item (PyStr.split "_" (EncodedSymbol.rhythm model_key)) 1;
  fifths ← parse_int circle_of_fifth;
  mret (mxl.add_child
          (XMLNode "XMLKey" [] None [mxl.elem_v "XMLFifths" (VInt fifths)])
          attributes).

Definition build_clef (model_clef : Symbol) (attributes : XMLElement)
  : M XMLElement :=
  sign_and_line ← item (PyStr.split "_" (EncodedSymbol.rhythm model_clef)) 1;
  sign ← of_option IndexError (char_at sign_and_line 0);
  line ← of_option IndexError (char_at sign_and_line 1);
  line_no ← parse_int line;
  mret (mxl.add_child
          (XMLNode "XMLClef" [("number", VInt (get_staff model_clef))] None
                   [mxl.elem_v "XMLSign" (VStr sign);
                    mxl.elem_v "XMLLine" (VInt line_no)])
          attributes).

Definition build_time_signature (model_time_signature : Symbol)
    (attributes : XMLElement) : M XMLElement :=
  denominator ←
    item (PyStr.split "/" (EncodedSymbol.rhythm model_time_signature)) 1;
  state ← get_state;
  d ← parse_int denominator;
  let beats :=
    Z.max (int_of_frac (frac_mul_int (ConversionState.nominator state) d)) 1 in
  _ ← put_state (ConversionState.set_beats beats state);
  mret (mxl.add_child
          (XMLNode "XMLTime" [] None
                   [mxl.elem_v "XMLBeats" (VStr (pretty beats));
                    mxl.elem_v "XMLBeatType" (VStr denominator)])
          attributes).

Definition build_barline_style (barline : Symbol) (xml : XMLElement)
  : XMLElement :=
  let style_value :=
    if String.eqb (EncodedSymbol.rhythm barline) "bolddoublebarline"
    then "heavy-heavy" else "light-light" in
  mxl.add_child (mxl.elem_v "XMLBarStyle" (VStr style_value)) xml.

Definition build_barline_ending (volta : Symbol) (xml : XMLElement)
    (volta_number : Z) : M XMLElement :=
  let rhythm := EncodedSymbol.rhythm volta in
  let ending type :=
    mxl.elem_a "XMLEnding"
      [("type", VStr type); ("number", VStr (pretty volta_number))] in
  if PyStr.startswith rhythm "voltaStart" then
    mret (mxl.add_child (ending "start") xml)
  else if PyStr.startswith rhythm "voltaStop" then
    mret (mxl.add_child (ending "stop") xml)
  else if PyStr.startswith rhythm "voltaDiscontinue" then
    mret (mxl.add_child (ending "discontinue") xml)
  else raise (ValueError "Unknown ending").

(** [build_repeat], on the rhythm of the symbol it is given (the source
    passes [EncodedSymbol("repeatEnd")] and [EncodedSymbol("repeatStart")]
    for the combined mark, and reads their rhythm only). *)
Definition build_repeat (barline_rhythm : string) (xml : XMLElement)
  : XMLElement :=
  match mxl.get_children_of_type "XMLRepeat" xml with
  | _ :: _ => xml
  | [] =>
      let direction :=
        if String.eqb barline_rhythm "repeatStart" then "forward"
        else "backward" in
      mxl.add_child (mxl.elem_a "XMLRepeat" [("direction", VStr direction)]) xml
  end.

Definition build_multi_measure_rest (symbol : Symbol) (attributes : XMLElement)
  : M XMLElement :=
  match mxl.get_children_of_type "XMLMeasureStyle" attributes with
  | _ :: _ => mret attributes
  | [] =>
      field ← item (PyStr.split "_" (EncodedSymbol.rhythm symbol)) 1;
      duration ← parse_int (PyStr.remove_char "m" field);
      mret (mxl.add_child
              (XMLNode "XMLMeasureStyle" [] None
                       [mxl.elem_v "XMLMultipleRest" (VInt duration)])
              attributes)
  end.

(** A value is false when it is [None] or zero. *)
Definition truthy (v : option Z) : bool :=
  match v with Some z => negb (z =? 0) | None => false end.

Definition build_add_time_direction (args : XmlGeneratorArguments)
  : option XMLElement :=
  if negb (truthy (metronome args)) then None
  else
    let per_minute := pretty (default 0 (metronome args)) in
    let metronome_xml :=
      XMLNode "XMLMetronome" [] None
              [mxl.elem_v "XMLBeatUnit" (VStr "quarter");
               mxl.elem_v "XMLPerMinute" (VStr per_minute)] in
    let direction :=
      XMLNode "XMLDirection" [] None
              [XMLNode "XMLDirectionType" [] None [metronome_xml]] in
    let sound :=
      if truthy (tempo args)
      then mxl.elem_a "XMLSound" [("tempo", VInt (default 0 (tempo args)))]
      else mxl.elem_a "XMLSound" [("tempo", VInt (default 0 (metronome args)))] in
    Some (mxl.add_child sound direction).

Definition build_divisions (division : Z) : XMLElement :=
  mxl.elem_v "XMLDivisions" (VInt (division / 4)).

Definition new_measure (measure_number : Z) : XMLElement :=
  mxl.elem_a "XMLMeasure" [("number", VStr (pretty measure_number))].

(** The loop variables of [build_measures]; [attributes] is a reference to
    a child of [current_measure]. *)
Record driver := {
  measure_number : Z;
  measures : list XMLElement;
  current_measure : XMLElement;
  attributes : option nat
}.

(** The current measure and the attributes reference after one chord. *)
Definition continue_with (measure : XMLElement) (attributes : option nat)
    (d : driver) : driver :=
  {| measure_number := measure_number d; measures := measures d;
     current_measure := measure; attributes := attributes |}.

(** [measures.append(current_measure)], then the next measure. *)
Definition next_measure (measure : XMLElement) (d : driver) : driver :=
  {| measure_number := measure_number d + 1;
     measures := measures d ++ [measure];
     current_measure := new_measure (measure_number d + 1);
     attributes := None |}.

Definition add_all (new : list XMLElement) (parent : XMLElement) : XMLElement :=
  foldl (λ p child, mxl.add_child child p) parent new.

(** The general case of a note or rest chord: every staff position in
    turn, the last one with the duration of the chord. *)
Definition emit_positions (group : Chord) (measure : XMLElement)
  : M XMLElement :=
  let staff_positions := SymbolChord.into_positions group in
  for_each
    (λ measure '(pos_no, staff_pos),
       let chord_duration :=
         if (pos_no =? length staff_positions - 1)%nat
         then SymbolChord.get_duration group else 0%Qc in
       notes ← build_note_chord staff_pos chord_duration;
       mret (add_all notes measure))
    (imap (λ i p, (i, p)) staff_positions) measure.

(** One iteration of the loop of [build_measures]. *)
Definition driver_step (n_groups : nat) (d : driver) (ig : nat * Chord)
  : M driver :=
  let '(group_no, group) := ig in
  symbol ← item (SymbolChord.symbols group) 0;
  let rhythm := EncodedSymbol.rhythm symbol in
  let last_attributes := attributes d in
  let current := current_measure d in
  if EncodedSymbol.is_note_or_rest symbol then
    if (length (SymbolChord.symbols group) =? 1)%nat
       && PyStr.endswith rhythm "m"
    then
      let '(current, a) := build_or_get_attributes current last_attributes false in
      current ← update_child (build_multi_measure_rest symbol) a current;
      mret (continue_with current (Some a) d)
    else
      current ← emit_positions group current;
      mret (continue_with current None d)
  else if String.eqb rhythm "newline" then
    let is_last_measure := (group_no =? n_groups - 1)%nat in
    if negb is_last_measure then
      mret (continue_with
              (mxl.add_child (mxl.elem_a "XMLPrint" [("new_system", VStr "yes")])
                             current) None d)
    else mret (continue_with current None d)
  else if PyStr.startswith rhythm "clef" then
    let '(current, a) := build_or_get_attributes current last_attributes true in
    current ←
      for_each
        (λ current should_be_clef,
           if PyStr.startswith (EncodedSymbol.rhythm should_be_clef) "clef"
           then update_child (build_clef should_be_clef) a current
           else mret current)
        (SymbolChord.symbols group) current;
    mret (continue_with current (Some a) d)
  else if PyStr.startswith rhythm "keySignature" then
    let '(current, a) := build_or_get_attributes current last_attributes false in
    current ← update_child (build_key symbol) a current;
    mret (continue_with current (Some a) d)
  else if PyStr.startswith rhythm "timeSignature" then
    let '(current, a) := build_or_get_attributes current last_attributes false in
    current ← update_child (build_time_signature symbol) a current;
    mret (continue_with current (Some a) d)
  else if PyStr.contains "barline" rhythm then
    let current :=
      if negb (String.eqb rhythm "barline") then
        let '(current, b) := build_or_get_barline current "right" in
        mxl.alter_child (build_barline_style symbol) b current
      else current in
    mret (next_measure current d)
  else if String.eqb rhythm "repeatStart" then
    let d := next_measure current d in
    let '(current, b) := build_or_get_barline (current_measure d) "right" in
    mret (continue_with (mxl.alter_child (build_repeat rhythm) b current) None d)
  else if String.eqb rhythm "repeatEnd" then
    let '(current, b) := build_or_get_barline current "right" in
    mret (next_measure (mxl.alter_child (build_repeat rhythm) b current) d)
  else if String.eqb rhythm "repeatEndStart" then
    let '(current, b) := build_or_get_barline current "right" in
    let d := next_measure (mxl.alter_child (build_repeat "repeatEnd") b current) d in
    let '(current, b) := build_or_get_barline (current_measure d) "right" in
    mret (continue_with (mxl.alter_child (build_repeat "repeatStart") b current)
                        None d)
  else if PyStr.startswith rhythm "voltaStart" then
    volta_number ← with_state (ConversionState.start_volta (measure_number d));
    let '(current, b) := build_or_get_barline current "left" in
    current ← update_child (λ xml, build_barline_ending symbol xml volta_number)
                           b current;
    mret (continue_with current None d)
  else if PyStr.startswith rhythm "voltaStop"
          || PyStr.startswith rhythm "voltaDiscontinue" then
    volta_number ← with_state (ConversionState.stop_volta (measure_number d));
    let '(current, b) := build_or_get_barline current "right" in
    current ← update_child (λ xml, build_barline_ending symbol xml volta_number)
                           b current;
    mret (continue_with current None d)
  else mret (continue_with current None d).

(** The state of the driver before the first chord. *)
Definition driver_init (args : XmlGeneratorArguments) (division max_staff : Z)
    (is_first_part : bool) : driver :=
  let current_measure := new_measure 1 in
  let '(current_measure, first_attributes) :=
    build_or_get_attributes current_measure None false in
  let current_measure :=
    mxl.alter_child (mxl.add_child (build_divisions division))
                    first_attributes current_measure in
  let current_measure :=
    if 1 <? max_staff then
      mxl.alter_child (mxl.add_child (mxl.elem_v "XMLStaves" (VInt max_staff)))
                      first_attributes current_measure
    else current_measure in
  let current_measure :=
    if is_first_part then
      match build_add_time_direction args with
      | Some direction => mxl.add_child direction current_measure
      | None => current_measure
      end
    else current_measure in
  {| measure_number := 1; measures := []; current_measure := current_measure;
     attributes := Some first_attributes |}.

(** The end of [build_measures]: the measure under construction joins the
    list when it has children. *)
Definition driver_finish (d : driver) : list XMLElement :=
  if (0 <? length (mxl.get_children (current_measure d)))%nat
  then measures d ++ [current_measure d]
  else measures d.

Section Driver.
(** [sort_token_chords] (vocabulary module) and
    [constants.duration_of_quarter] are not part of the sources at hand. *)
Variable sort_token_chords : list Symbol → list (list Symbol).
Variable duration_of_quarter : Z.

Definition group_into_chords (voice : list Symbol) : list Chord :=
  map SymbolChord.make (sort_token_chords voice).

(** The loop of [build_measures], from the annotated chords on. *)
Definition run_driver (args : XmlGeneratorArguments) (groups : list Chord)
    (max_staff : Z) (is_first_part : bool)
  : result (driver * State) :=
  let '(division, nominator) :=
    find_division_and_time_signature_nominator groups in
  let state := ConversionState.init duration_of_quarter division nominator in
  for_each (driver_step (length groups))
           (indexed_groups groups)
           (driver_init args division max_staff is_first_part) state.

Definition build_measures (args : XmlGeneratorArguments) (voice : list Symbol)
    (is_first_part : bool) : result (list XMLElement) :=
  let groups := add_tuplet_start_stop (group_into_chords voice) in
  let groups := apply_beaming groups in
  match run_driver args groups (_max_staff_number voice) is_first_part with
  | inl e => inl e
  | inr (d, _) => inr (driver_finish d)
  end.
End Driver.

(** ** Notions of the specification *)

(** A tuplet chord: some note or rest member has a tuplet ratio whose
    actual and normal counts differ. *)
Definition tuplet_chord (g : Chord) : bool :=
  existsb (λ s, EncodedSymbol.is_note_or_rest s
                && negb (actual_notes (EncodedSymbol.get_duration s)
                         =? normal_notes (EncodedSymbol.get_duration s)))
          (SymbolChord.symbols g).

(** Whether the chord at index [j] of a part is a tuplet chord (false
    outside the part). *)
Definition tuplet_at (groups : list Chord) (j : nat) : bool :=
  match groups !! j with Some g => tuplet_chord g | None => false end.

(** Whether the chord before index [i] is a tuplet chord. *)
Definition tuplet_before (groups : list Chord) (i : nat) : bool :=
  match i with O => false | S j => tuplet_at groups j end.

(** The reading of "the part ends while in tuplet state" given with the
    claim: the last chord that holds a note or a rest is a tuplet chord. *)
Definition last_note_rest_chord_is_tuplet (groups : list Chord) : bool :=
  match last (List.filter
                (λ g, existsb EncodedSymbol.is_note_or_rest
                              (SymbolChord.symbols g))
                groups) with
  | Some g => tuplet_chord g
  | None => false
  end.

(** The slur or tie marks of a document, in document order: the type,
    the number and the staff of the note that carries the mark. *)
Definition marks_of_note (c : string) (note : XMLElement)
  : list (string * option xml_value * option xml_value) :=
  let staff := mxl.value_ <$> _find_child_of_type note "XMLStaff" in
  flat_map
    (λ notations,
       map (λ m, (mxl.str (mxl.get_attr "type" m), mxl.get_attr "number" m,
                  mjoin staff))
           (mxl.get_children_of_type c notations))
    (mxl.get_children_of_type "XMLNotations" note).

Definition marks_of (c : string) (measures : list XMLElement)
  : list (string * option xml_value * option xml_value) :=
  flat_map (λ measure,
              flat_map (marks_of_note c)
                       (mxl.get_children_of_type "XMLNote" measure))
           measures.

(** What a chord is to the beaming pass at one staff position: a barline,
    a chord without that position, or a sub-chord with a note or a rest but
    no beamable note breaks a run; a sub-chord with neither note nor rest
    is transparent; a sub-chord without any rest whose first beamable note
    is the symbol [si] of the chord carries on a run.  ([Mixed]: a beamable
    note and a rest in one sub-chord.) *)
Inductive role := Breaks | Transparent | Beamable (si : nat) | Mixed.

Definition position_role (staff_position : string) (group : Chord) : role :=
  if SymbolChord.is_barline group then Breaks
  else
    match staff_chord_of staff_position group with
    | None => Breaks
    | Some sub_chord =>
        match List.find (λ x, _is_beamable_note x.2) sub_chord with
        | Some (si, _) =>
            if existsb (λ x, EncodedSymbol.is_rest x.2) sub_chord
            then Mixed else Beamable si
        | None =>
            if existsb (λ x, EncodedSymbol.is_note x.2
                             || EncodedSymbol.is_rest x.2) sub_chord
            then Breaks else Transparent
        end
    end.

(** The symbols of a sub-chord that stand before its first beamable
    note: the scan of the beaming pass reads these, and the beamable note,
    and nothing behind it. *)
Fixpoint before_beamable (sub_chord : list (nat * Symbol))
  : list (nat * Symbol) :=
  match sub_chord with
  | [] => []
  | x :: rest =>
      if _is_beamable_note x.2 then [] else x :: before_beamable rest
  end.

(** What a chord is to a run of beamed notes at one staff position.  It
    interrupts the run when it is a barline chord, when it has no sub-chord
    at the position, when its sub-chord holds a note or a rest but no
    beamable note, and when a rest stands before the first beamable note
    of its sub-chord.  It continues the run with the first beamable note
    [si] of its sub-chord when no rest stands before that note.  It passes
    when its sub-chord holds neither a note nor a rest. *)
Inductive run_role := Interrupts | Passes | Continues (si : nat).

Definition run_role_of (staff_position : string) (group : Chord) : run_role :=
  if SymbolChord.is_barline group then Interrupts
  else
    match staff_chord_of staff_position group with
    | None => Interrupts
    | Some sub_chord =>
        match List.find (λ x, _is_beamable_note x.2) sub_chord with
        | Some (si, _) =>
            if existsb (λ x, EncodedSymbol.is_rest x.2)
                       (before_beamable sub_chord)
            then Interrupts else Continues si
        | None =>
            if existsb (λ x, EncodedSymbol.is_note x.2
                             || EncodedSymbol.is_rest x.2) sub_chord
            then Interrupts else Passes
        end
    end.



(** What one iteration of the beaming loop does with a chord: flush, skip,
    or carry on with the candidate [si]. *)
Inductive beam_action := Flush | Skip | Carry (si : nat).

Definition beam_action_of (staff_position : string) (group : Chord)
  : beam_action :=
  if SymbolChord.is_barline group then Flush
  else
    match staff_chord_of staff_position group with
    | None => Flush
    | Some staff_chord =>
        let '(found, has_note_or_rest, has_rest) :=
          beam_scan staff_chord false false in
        match (if has_rest then None else found) with
        | None => if has_note_or_rest then Flush else Skip
        | Some si => Carry si
        end
    end.

(** The candidate [c] becomes the pending symbol. *)
Definition beam_carry (c : loc) (st : beam_state) : beam_state :=
  match pending st with
  | None => {| pending := Some c; run_length := 1; marked := marked st |}
  | Some p =>
      {| pending := Some c; run_length := run_length st + 1;
         marked := set_beam p (if run_length st =? 1 then "begin"
                               else "continue") (marked st) |}
  end.






(** The move of the time cursor that an element of a measure stands for:
    a note advances it by its duration, unless it is stacked on the note
    before it or is a grace note; a backup rewinds it. *)
Definition xml_duration (e : XMLElement) : Z :=
  match mxl.value_ <$> _find_child_of_type e "XMLDuration" with
  | Some (Some (VInt z)) => z
  | _ => 0
  end.

Definition has_child (c : string) (e : XMLElement) : bool :=
  existsb (λ child, mxl.isinstance child c) (mxl.get_children e).

Definition cursor_delta (e : XMLElement) : Z :=
  if mxl.isinstance e "XMLNote" then
    if has_child "XMLChord" e || has_child "XMLGrace" e then 0
    else xml_duration e
  else if mxl.isinstance e "XMLBackup" then - xml_duration e
  else if mxl.isinstance e "XMLForward" then xml_duration e
  else 0.


(** ** Scenarios *)

Module Scenario.

(** A duration that is no tuplet. *)
Definition dur (n : Z) (d : positive) (k : Z) (dt : nat) : Duration :=
  {| fraction := frac n d; kern := k; dots := dt;
     actual_notes := 1; normal_notes := 1 |}.

(** A member of a triplet: three in the time of two. *)
Definition triplet (n : Z) (d : positive) (k : Z) : Duration :=
  {| fraction := frac n d; kern := k; dots := 0;
     actual_notes := 3; normal_notes := 2 |}.

(** The duration of a symbol that is neither note nor rest. *)
Definition nodur : Duration := dur 0 1 0 0.

Definition sym (r p l a pos : string) (d : Duration) : Symbol :=
  {| EncodedSymbol.rhythm := r; EncodedSymbol.pitch := p;
     EncodedSymbol.lift := l; EncodedSymbol.articulation := a;
     EncodedSymbol.position := pos; EncodedSymbol.duration := d;
     EncodedSymbol.beam := None |}.

Definition barline : Symbol := sym "barline" "." "." "." "." nodur.
Definition quarter (p pos art : string) : Symbol :=
  sym "note_4" p "_" art pos (dur 1 4 4 0).
Definition eighth (p pos : string) : Symbol :=
  sym "note_8" p "_" "_" pos (dur 1 8 8 0).
Definition triplet_eighth (p pos : string) : Symbol :=
  sym "note_12" p "_" "_" pos (triplet 1 12 8).

(** The token chords of a part, as [sort_token_chords] returns them. *)
Definition given (chords : list (list Symbol))
  : list Symbol → list (list Symbol) := λ _, chords.

(** Three triplet eighths, a quarter note, a barline. *)
Definition triplet_then_quarter : list (list Symbol) :=
  [[triplet_eighth "C5" "upper"]; [triplet_eighth "D5" "upper"];
   [triplet_eighth "E5" "upper"]; [quarter "F5" "upper" "_"]; [barline]].

(** A triplet eighth that ends the notes of the part, and the final
    barline. *)
Definition triplet_then_barline : list (list Symbol) :=
  [[quarter "C5" "upper" "_"]; [triplet_eighth "D5" "upper"]; [barline]].

(** A triplet eighth in the chord of a clef. *)
Definition clef_with_triplet : list (list Symbol) :=
  [[sym "clef_G2" "_" "_" "_" "upper" nodur; triplet_eighth "D5" "upper"]].

(** A part whose last chord is a triplet eighth. *)
Definition trailing_triplets : list (list Symbol) :=
  [[quarter "C5" "upper" "_"]; [triplet_eighth "D5" "upper"];
   [triplet_eighth "E5" "upper"]].

(** A quarter triplet: a third of a half note. *)
Definition triplet_quarter (p pos : string) : Symbol :=
  sym "note_6" p "_" "_" pos (triplet 1 6 4).

(** An eighth note and a quarter triplet that sound together. *)
Definition eighth_and_triplet : Chord :=
  SymbolChord.make [eighth "C5" "upper"; triplet_quarter "E5" "upper"].
Definition eighth_against_triplet : list Chord := [eighth_and_triplet].


(** A key signature that follows the last barline of the part. *)
Definition trailing_key_signature : list (list Symbol) :=
  [[sym "clef_G2" "_" "_" "_" "upper" nodur];
   [quarter "C5" "upper" "_"];
   [barline];
   [sym "keySignature_1" "." "." "." "." nodur]].

(** Two eighth notes with a change of clef between them. *)
Definition clef_between_eighths : list Chord :=
  [SymbolChord.make [eighth "C5" "upper"];
   SymbolChord.make [sym "clef_F4" "_" "_" "_" "upper" nodur];
   SymbolChord.make [eighth "D5" "upper"]].

(** Three eighth notes, the second with an eighth rest before it in its
    chord; and the same with the rest behind the note. *)
Definition rest_before_eighth : list Chord :=
  [SymbolChord.make [eighth "C5" "upper"];
   SymbolChord.make [sym "rest_8" "_" "_" "_" "upper" (dur 1 8 8 0);
                     eighth "D5" "upper"];
   SymbolChord.make [eighth "E5" "upper"]].
Definition rest_behind_eighth : list Chord :=
  [SymbolChord.make [eighth "C5" "upper"];
   SymbolChord.make [eighth "D5" "upper";
                     sym "rest_8" "_" "_" "_" "upper" (dur 1 8 8 0)];
   SymbolChord.make [eighth "E5" "upper"]].

(** Four eighth notes, a quarter note, a barline. *)
Definition four_eighths : list Chord :=
  [SymbolChord.make [quarter "B4" "upper" "_"];
   SymbolChord.make [eighth "C5" "upper"];
   SymbolChord.make [eighth "D5" "upper"];
   SymbolChord.make [eighth "E5" "upper"];
   SymbolChord.make [eighth "F5" "upper"];
   SymbolChord.make [quarter "G5" "upper" "_"];
   SymbolChord.make [barline]].

(** A chord on two staves: a quarter note and an eighth note above, an
    eighth note below. *)
Definition two_staves : Chord :=
  SymbolChord.make [quarter "C5" "upper" "_"; eighth "E5" "upper";
                    eighth "C3" "lower"].

(** A state in which a tie on C5 is open on the upper staff, and a note
    under construction with a pitch. *)
Definition tied_c5 (s : State) : State :=
  (ConversionState.start_tie 1 "C5" "0" s).2.
Definition pitched (step : string) (octave : Z) : XMLElement :=
  XMLNode "XMLNote" [] None
    [XMLNode "XMLPitch" [] None
       [mxl.elem_v "XMLStep" (VStr step);
        mxl.elem_v "XMLOctave" (VInt octave)]].

Definition no_args : XmlGeneratorArguments :=
  {| large_page := None; metronome := None; tempo := None |}.

Definition clefs : list Symbol :=
  [sym "clef_G2" "_" "_" "_" "upper" nodur;
   sym "clef_F4" "_" "_" "_" "lower" nodur].

(** Parallel slurs: two slurs that start together, one on each staff, and
    are closed two chords later. *)
Definition parallel_slurs : list (list Symbol) :=
  [clefs;
   [quarter "C5" "upper" "slurStart"; quarter "E3" "lower" "slurStart"];
   [quarter "D5" "upper" "_"; quarter "F3" "lower" "_"];
   [quarter "E5" "upper" "slurStop"; quarter "G3" "lower" "slurStop"];
   [barline]].

(** [n] slurs opened in a row on one key. *)
Fixpoint open_slurs (n : nat) (staff voice : Z) (s : State) : State :=
  match n with
  | O => s
  | S k => snd (ConversionState.start_slur staff voice
                  (open_slurs k staff voice s))
  end.

(** [n] ties opened in a row on one key. *)
Fixpoint open_ties (n : nat) (staff : Z) (pitch lift : string) (s : State)
  : State :=
  match n with
  | O => s
  | S k => snd (ConversionState.start_tie staff pitch lift
                  (open_ties k staff pitch lift s))
  end.

End Scenario.

(** ** Auxiliary notions of the proofs *)

(** The mark the annotator leaves on a chord, from the tuplet status of
    the chord and of the one before it. *)
Definition bracket (prev cur : bool) (old : string) : string :=
  if cur && negb prev then "start"
  else if negb cur && prev then "stop"
  else old.

Definition positive_denominators (durations : list Fraction) : list Z :=
  map denominator (filter (λ d, frac_ltb 0%Qc d = true) durations).


(** A symbol without its beam marker, with its index. *)
Definition unmarked (x : nat * Symbol) : nat * Symbol :=
  (x.1, EncodedSymbol.with_beam None x.2).

(** Equal up to beam markers. *)
Definition same_notes (g g' : Chord) : Prop :=
  erase_beams g = erase_beams g'.

(** A computation that leaves the division alone. *)
Definition keeps_division {A : Type} (m : M A) : Prop :=
  ∀ st r st', m st = inr (r, st') →
              ConversionState.division st' = ConversionState.division st.

(** The comparisons of string literals of the goal, evaluated. *)
Ltac eval_string_tests :=
  repeat match goal with
         | |- context [String.eqb ?a ?b] =>
             let v := eval vm_compute in (String.eqb a b) in
             change (String.eqb a b) with v
         end;
  cbv beta iota.

(** The part of a note element that decides how it moves the cursor. *)
Definition shape (e : XMLElement)
  : string * bool * bool * option (option xml_value) :=
  (mxl.cls e, has_child "XMLChord" e, has_child "XMLGrace" e,
   mxl.value_ <$> _find_child_of_type e "XMLDuration").

(** The ticks by which an emitted note moves the cursor. *)
Definition note_ticks (model_note : Symbol) (is_chord : bool) (st : State)
  : Z :=
  let d := EncodedSymbol.get_duration model_note in
  if is_chord || EncodedSymbol.is_grace model_note then 0
  else if 0 <? numerator (fraction d)
       then int_of_frac (frac_mul_int (fraction d)
                                      (ConversionState.division st))
       else ConversionState.beats st.

(** The duration class of a symbol that is not written in the whole-measure
    shorthand: the grace notes share the class of zero, every other symbol
    is in the class of its duration. *)
Definition class_of (s : Symbol) : Fraction :=
  if EncodedSymbol.is_grace s then 0%Qc
  else fraction (EncodedSymbol.get_duration s).

(** A symbol that is not written in the whole-measure shorthand: a grace
    note, or a symbol of positive duration. *)
Definition measured (s : Symbol) : bool :=
  EncodedSymbol.is_grace s
  || (0 <? numerator (fraction (EncodedSymbol.get_duration s))).

(** The symbol handed to [build_note_or_rest] for a stripped symbol and the
    tags recorded for it. *)
Definition retagged (t : Symbol * list string) : Symbol :=
  match t.2 with
  | [] => t.1
  | _ => EncodedSymbol.add_articulations t.2 t.1
  end.




(** The numbers handed out when slurs are started on the given keys, one
    after the other. *)
Fixpoint start_slurs (keys : list (Z * Z)) (s : State) : list Z * State :=
  match keys with
  | [] => ([], s)
  | (staff, voice) :: rest =>
      let '(number, s) := ConversionState.start_slur staff voice s in
      let '(numbers, s) := start_slurs rest s in
      (number :: numbers, s)
  end.

(** Tuplet brackets that alternate: [n] marks, of which the first is
    [stop] when a bracket is open and [start] otherwise. *)
Fixpoint brackets (open : bool) (n : nat) : list string :=
  match n with
  | O => []
  | S k => (if open then "stop" else "start") :: brackets (negb open) k
  end.

(** The articulation tags that [build_articulations] knows. *)
Definition supported_articulations : list string :=
  [""; nonote; "fermata"; "arpeggiate"; "accent"; "staccato";
   "staccatissimo"; "tenuto"; "tremolo"; "trill"; "breathMark"; "turn";
   "caesura"; "doit"; "slurStart"; "slurStop"; "tieStart"; "tieStop"].

(** A measure that carries the number [n]. *)
Definition numbered (n : Z) (measure : XMLElement) : Prop :=
  mxl.cls measure = "XMLMeasure"
  ∧ mxl.attrs measure = [("number", VStr (pretty n))].

(** The child at index [a] is an attributes block. *)
Definition attributes_at (a : nat) (measure : XMLElement) : Prop :=
  ∃ e, mxl.get_children measure !! a = Some e ∧ mxl.cls e = "XMLAttributes".

(** What holds of the loop variables of [build_measures] before and after
    every chord. *)
Record driver_ok (d : driver) : Prop := {
  ok_positive : 1 ≤ measure_number d;
  ok_current : numbered (measure_number d) (current_measure d);
  ok_measures : Forall2 numbered (seqZ 1 (measure_number d - 1)) (measures d);
  ok_attributes :
    ∀ a, attributes d = Some a → attributes_at a (current_measure d)
}.

(** A builder that returns the element it is given, with more children. *)
Definition keeps_cls (f : XMLElement → M XMLElement) : Prop :=
  ∀ e st e' st', f e st = inr (e', st') → mxl.cls e' = mxl.cls e.

(** ** The document

    [generate_xml] and the builders of the parts of the score that are not
    measures. *)

Definition build_work (title_text : string) : XMLElement :=
  XMLNode "XMLWork" [] None
          [XMLNode "XMLWorkTitle" [] (Some (VStr title_text)) []].

(** [not args.large_page] holds for [None] and for [False]. *)
Definition build_defaults (args : XmlGeneratorArguments) : XMLElement :=
  match large_page args with
  | Some true =>
      XMLNode "XMLDefaults" [] None
              [XMLNode "XMLPageLayout" [] None
                       [mxl.elem_v "XMLPageHeight" (VInt 300);
                        mxl.elem_v "XMLPageWidth" (VInt 110)]]
  | _ => mxl.elem "XMLDefaults"
  end.

Definition get_part_id (index : nat) : string :=
  "P" +:+ pretty (Z.of_nat index + 1).

(** The entry of one part in the part list. *)
Definition score_part (part : nat) : XMLElement :=
  let part_id := get_part_id part in
  XMLNode "XMLScorePart" [("id", VStr part_id)] None
    [mxl.elem_v "XMLPartName" (VStr "");
     XMLNode "XMLScoreInstrument" [("id", VStr (part_id +:+ "-I1"))] None
       [mxl.elem_v "XMLInstrumentName" (VStr "Piano");
        mxl.elem_v "XMLInstrumentSound" (VStr "keyboard.piano")];
     XMLNode "XMLMidiInstrument" [("id", VStr (part_id +:+ "-I1"))] None
       [mxl.elem_v "XMLMidiChannel" (VInt 1);
        mxl.elem_v "XMLMidiProgram" (VInt 1);
        mxl.elem_v "XMLVolume" (VInt 100);
        mxl.elem_v "XMLPan" (VInt 0)]].

Definition build_part_list (staffs : nat) : XMLElement :=
  add_all (map score_part (seq 0 staffs)) (mxl.elem "XMLPartList").

Section Document.
Variable sort_token_chords : list Symbol → list (list Symbol).
Variable duration_of_quarter : Z.

Definition build_part (args : XmlGeneratorArguments) (voice : list Symbol)
    (index : nat) : result XMLElement :=
  let part := mxl.elem_a "XMLPart" [("id", VStr (get_part_id index))] in
  let is_first_part := (index =? 0)%nat in
  match build_measures sort_token_chords duration_of_quarter args voice
                       is_first_part with
  | inl e => inl e
  | inr measures => inr (add_all measures part)
  end.

(** The loop of [generate_xml] over the staffs, from [index] on. *)
Fixpoint build_parts (args : XmlGeneratorArguments)
    (staffs : list (list Symbol)) (index : nat) (root : XMLElement)
  : result XMLElement :=
  match staffs with
  | [] => inr root
  | staff :: rest =>
      match build_part args staff index with
      | inl e => inl e
      | inr part => build_parts args rest (S index) (mxl.add_child part root)
      end
  end.

Definition generate_xml (args : XmlGeneratorArguments)
    (staffs : list (list Symbol)) (title : string) : result XMLElement :=
  let root := mxl.elem "XMLScorePartwise" in
  let root := mxl.add_child (build_work title) root in
  let root := mxl.add_child (build_defaults args) root in
  let root := mxl.add_child (build_part_list (length staffs)) root in
  build_parts args staffs 0 root.
End Document.

(** A computation that does not raise the exception [e]. *)
Definition never_raises {A : Type} (e : exn) (m : M A) : Prop :=
  ∀ st, m st ≠ inl e.

(** The exception of [build_barline_ending]. *)
Definition unknown_ending : exn := ValueError "Unknown ending".

(** What a computation returns satisfies [P], when it returns. *)
Definition yields {A : Type} (P : A → Prop) (m : M A) : Prop :=
  ∀ st r st', m st = inr (r, st') → P r.

(** A note or a backup. *)
Definition note_or_backup (e : XMLElement) : Prop :=
  mxl.cls e = "XMLNote" ∨ mxl.cls e = "XMLBackup".

(** ** Tuplet brackets in the document *)

(** A note under construction that has no notations element yet. *)
Definition bare_note (xml : XMLElement) : Prop :=
  mxl.cls xml = "XMLNote"
  ∧ mxl.get_children_of_type "XMLNotations" xml = [].

(** The tuplet brackets of a note, of the elements of a measure and of a
    document, in document order: the type of every tuplet element in the
    notations of a note. *)
Definition note_tuplets (note : XMLElement) : list string :=
  map (λ m, m.1.1) (marks_of_note "XMLTuplet" note).

Definition tuplets_of (elements : list XMLElement) : list string :=
  flat_map note_tuplets
           (List.filter (λ e, mxl.isinstance e "XMLNote") elements).

Definition tuplet_types (measures : list XMLElement) : list string :=
  map (λ m, m.1.1) (marks_of "XMLTuplet" measures).

(** The bracket written with the note of a symbol: the mark of its chord,
    when the mark is not empty and the tuplet ratio of the symbol has
    different counts. *)
Definition written_mark (tuplet_mark : string) (s : Symbol) : list string :=
  let duration := EncodedSymbol.get_duration s in
  if negb (actual_notes duration =? normal_notes duration)
     && negb (String.eqb tuplet_mark "")
  then [tuplet_mark] else [].

(** A chord that [build_measures] converts into notes: its first symbol is
    a note or a rest, and it is not a multi-measure rest. *)
Definition emitted_as_notes (group : Chord) : bool :=
  match SymbolChord.symbols group with
  | symbol :: _ =>
      EncodedSymbol.is_note_or_rest symbol
      && negb ((length (SymbolChord.symbols group) =? 1)%nat
               && PyStr.endswith (EncodedSymbol.rhythm symbol) "m")
  | [] => false
  end.

(** The brackets that the conversion of one chord writes: copies of the
    mark of the chord; none when the chord is not converted into notes or
    has no mark; at least one when a tuplet chord with a mark is converted
    into notes. *)
Definition chord_brackets (group : Chord) (part : list string) : Prop :=
  Forall (λ type, type = SymbolChord.tuplet_mark group) part
  ∧ (emitted_as_notes group = false ∨ SymbolChord.tuplet_mark group = "" →
     part = [])
  ∧ (emitted_as_notes group = true → tuplet_chord group = true →
     SymbolChord.tuplet_mark group ≠ "" → part ≠ []).

(** The marks of a trailing run of [n] tuplet chords and of the chords
    after it: [start], nothing on the rest of the run, [stop] on the first
    chord after the run, nothing further. *)
Definition trailing_marks {A : Type} (run tail : list A) : list string :=
  "start" :: replicate (length run) ""
  ++ match tail with
     | [] => []
     | _ :: rest => "stop" :: replicate (length rest) ""
     end.

(** ** The tuplet annotator *)

Section Tuplet.

Lemma chord_is_tuplet_spec (g : Chord) : chord_is_tuplet g = tuplet_chord g.
Proof.
  unfold chord_is_tuplet, tuplet_chord.
  assert (H : ∀ l b,
    foldl (λ (is_tuplet : bool) symbol,
             if EncodedSymbol.is_note_or_rest symbol then
               is_tuplet
               || negb (normal_notes (EncodedSymbol.get_duration symbol)
                        =? actual_notes (EncodedSymbol.get_duration symbol))
             else is_tuplet) b l
    = b || existsb (λ s, EncodedSymbol.is_note_or_rest s
                         && negb (actual_notes (EncodedSymbol.get_duration s)
                                  =? normal_notes (EncodedSymbol.get_duration s))) l).
  { induction l as [|s l IH]; intros b; simpl.
    - by rewrite orb_false_r.
    - rewrite IH. rewrite (Z.eqb_sym (normal_notes _)).
      destruct (EncodedSymbol.is_note_or_rest s); simpl.
      + by rewrite orb_assoc.
      + done. }
  by rewrite H.
Qed.

(** Whatever the branch, the loop goes on with the tuplet status of the
    chord it has just seen. *)
Lemma tuplet_loop_cons (h : bool) (g : Chord) (rest : list Chord) :
  tuplet_loop h (g :: rest)
  = (if negb (Bool.eqb (tuplet_chord g) h)
     then SymbolChord.with_tuplet_mark (if h then "stop" else "start") g
     else g) :: tuplet_loop (tuplet_chord g) rest.
Proof.
  simpl. rewrite chord_is_tuplet_spec.
  destruct (tuplet_chord g), h; reflexivity.
Qed.

Lemma tuplet_loop_lookup (gs : list Chord) :
  ∀ (h : bool) (i : nat) (g : Chord),
    tuplet_loop h gs !! i = Some g →
    ∃ g0, gs !! i = Some g0
          ∧ SymbolChord.symbols g = SymbolChord.symbols g0
          ∧ SymbolChord.tuplet_mark g
            = bracket (match i with O => h | S j => tuplet_at gs j end)
                      (tuplet_chord g0) (SymbolChord.tuplet_mark g0).
Proof.
  induction gs as [|g1 gs IH]; intros h i g Hi; [done|].
  rewrite tuplet_loop_cons in Hi.
  destruct i as [|i]; simpl in Hi.
  - injection Hi as <-. exists g1. split; [done|].
    unfold bracket. destruct (tuplet_chord g1), h; simpl; done.
  - apply IH in Hi as (g0 & Hg0 & Hs & Hm).
    exists g0. split; [done|]. split; [done|].
    rewrite Hm. destruct i; [done|]. unfold tuplet_at. simpl. done.
Qed.

Lemma tuplet_loop_length (gs : list Chord) :
  ∀ h, length (tuplet_loop h gs) = length gs.
Proof.
  induction gs as [|g gs IH]; intros h; [done|].
  rewrite tuplet_loop_cons. simpl. by rewrite IH.
Qed.

End Tuplet.

Section TupletLaw.
Variable sort_token_chords : list Symbol → list (list Symbol).

Lemma group_into_chords_mark (voice : list Symbol) (i : nat) (g : Chord) :
  group_into_chords sort_token_chords voice !! i = Some g →
  SymbolChord.tuplet_mark g = "".
Proof.
  unfold group_into_chords. rewrite list_lookup_fmap.
  destruct (sort_token_chords voice !! i); simpl; [|done].
  by intros [= <-].
Qed.

(** C8 (tuplet law).  On the chords of a part, the annotator stamps
    [start] exactly on a tuplet chord that follows no tuplet chord (the
    first chord of a maximal run of tuplet chords), [stop] exactly on a
    chord that is no tuplet chord and follows one (the first chord after
    such a run), and nothing on any other chord; a part without any
    tuplet chord carries no mark at all. *)
Theorem C8_tuplet_law (voice : list Symbol) (i : nat) (g : Chord) :
  let groups := group_into_chords sort_token_chords voice in
  add_tuplet_start_stop groups !! i = Some g →
  SymbolChord.tuplet_mark g
  = (if tuplet_at groups i && negb (tuplet_before groups i) then "start"
     else if negb (tuplet_at groups i) && tuplet_before groups i then "stop"
     else "")
  ∧ ((∀ c, c ∈ groups → tuplet_chord c = false) →
     SymbolChord.tuplet_mark g = "").
Proof.
  intros groups Hi.
  apply tuplet_loop_lookup in Hi as (g0 & Hg0 & _ & Hm).
  pose proof (group_into_chords_mark _ _ _ Hg0) as Hfresh.
  assert (Hprev : (match i with O => false | S j => tuplet_at groups j end)
                  = tuplet_before groups i) by (by destruct i).
  fold groups in Hm. rewrite Hprev, Hfresh in Hm.
  assert (Hat : tuplet_at groups i = tuplet_chord g0).
  { unfold tuplet_at. fold groups in Hg0. by rewrite Hg0. }
  rewrite <- Hat in Hm. split; [exact Hm|].
  intros Hnone. rewrite Hm.
  assert (Hall : ∀ j, tuplet_at groups j = false).
  { intros j. unfold tuplet_at. destruct (groups !! j) as [c|] eqn:Hc; [|done].
    apply Hnone. by eapply list_elem_of_lookup_2. }
  rewrite Hall. unfold bracket. simpl.
  destruct i; simpl; [done|]. unfold tuplet_before. by rewrite Hall.
Qed.
End TupletLaw.

Lemma C8_tuplet_law_witness :
  add_tuplet_start_stop
    (group_into_chords (Scenario.given Scenario.triplet_then_quarter) []) !! 3%nat
  = Some (SymbolChord.with_tuplet_mark "stop"
            (SymbolChord.make [Scenario.quarter "F5" "upper" "_"]))
  ∧ SymbolChord.tuplet_mark
      (SymbolChord.with_tuplet_mark "stop"
         (SymbolChord.make [Scenario.quarter "F5" "upper" "_"])) = "stop".
Proof.
  assert (H : add_tuplet_start_stop
    (group_into_chords (Scenario.given Scenario.triplet_then_quarter) []) !! 3%nat
    = Some (SymbolChord.with_tuplet_mark "stop"
              (SymbolChord.make [Scenario.quarter "F5" "upper" "_"])))
    by reflexivity.
  split; [exact H|].
  exact (proj1 (C8_tuplet_law (Scenario.given Scenario.triplet_then_quarter)
                              [] 3%nat _ H)).
Defined.

Lemma tuplet_loop_app (pre run : list Chord) :
  ∀ h, tuplet_loop h (pre ++ run)
       = tuplet_loop h pre
         ++ tuplet_loop (match last pre with
                         | Some g => tuplet_chord g
                         | None => h
                         end) run.
Proof.
  induction pre as [|g pre IH]; intros h; [done|].
  rewrite <- app_comm_cons, !tuplet_loop_cons, IH. simpl.
  destruct pre as [|g' pre']; [reflexivity|].
  rewrite last_cons_cons.
  destruct (last (g' :: pre')) eqn:E; [reflexivity|].
  by apply last_None in E.
Qed.

(** Inside a run of tuplet chords the annotator leaves the chords alone. *)
Lemma tuplet_loop_inside (run : list Chord) :
  Forall (λ g, tuplet_chord g = true) run → tuplet_loop true run = run.
Proof.
  induction 1 as [|g run Hg _ IH]; [done|].
  rewrite tuplet_loop_cons, Hg, IH. done.
Qed.

(** ** The numbering allocator *)

Section Allocator.
Import ConversionState.

(** C1 (slur pools), as amended.  Slur numbers come from one free list
    that all (staff, voice) keys share; only the stacks of open slurs are
    kept per key.  Two slurs opened one after the other take the two
    smallest free numbers, whatever their keys; in the scenario of the
    parallel slurs the slur of staff 1 is number 1 and the slur of
    staff 2 is number 2. *)
Theorem C1_slur_numbers_come_from_one_pool
    (s : State) (n m : Z) (rest : list Z) (staff1 voice1 staff2 voice2 : Z) :
  _available_slur_numbers s = n :: m :: rest →
  fst (start_slur staff1 voice1 s) = n
  ∧ fst (start_slur staff2 voice2 (snd (start_slur staff1 voice1 s))) = m
  ∧ ∀ duration_of_quarter,
      result_map (marks_of "XMLSlur")
        (build_measures (Scenario.given Scenario.parallel_slurs)
                        duration_of_quarter Scenario.no_args [] true)
      = inr [("start", Some (VInt 1), Some (VInt 1));
             ("start", Some (VInt 2), Some (VInt 2));
             ("stop", Some (VInt 1), Some (VInt 1));
             ("stop", Some (VInt 2), Some (VInt 2))].
Proof.
  intros Hfree. unfold start_slur. rewrite Hfree. simpl.
  split; [done|]. split; [done|].
  intros dq. vm_compute. reflexivity.
Qed.

Lemma C1_slur_numbers_come_from_one_pool_witness :
  _available_slur_numbers (init 16 4 1%Qc) = 1 :: 2 :: seqZ 3 13
  ∧ fst (start_slur 1 1 (init 16 4 1%Qc)) = 1
  ∧ fst (start_slur 2 2 (snd (start_slur 1 1 (init 16 4 1%Qc)))) = 2.
Proof.
  assert (H : _available_slur_numbers (init 16 4 1%Qc) = 1 :: 2 :: seqZ 3 13)
    by reflexivity.
  pose proof (C1_slur_numbers_come_from_one_pool
                (init 16 4 1%Qc) 1 2 (seqZ 3 13) 1 1 2 2 H) as (H1 & H2 & _).
  exact (conj H (conj H1 H2)).
Defined.

(** C1 as stated fails: in the scenario of the parallel slurs the slur of
    staff 2 is number 2, not 1. *)
Lemma C1_counterexample :
  ∃ measures,
    build_measures (Scenario.given Scenario.parallel_slurs) 16
                   Scenario.no_args [] true = inr measures
    ∧ marks_of "XMLSlur" measures
      = [("start", Some (VInt 1), Some (VInt 1));
         ("start", Some (VInt 2), Some (VInt 2));
         ("stop", Some (VInt 1), Some (VInt 1));
         ("stop", Some (VInt 2), Some (VInt 2))].
Proof. eexists. split; vm_compute; reflexivity. Qed.

(** C2 (release of a number).  The code does not do what the claim says:
    the release guard lets the numbers 1 to 6 back into the free list and
    no other, although the pool holds 1 to 15.  A released 7 (or any
    number above 6) is lost; after the numbers 1 to 7 were allocated from
    one pool and 7 was released, the next allocation returns 8, for slurs
    and for ties alike. *)
Theorem C2_released_seven_is_not_reused
    (s : State) (slur_key : Z * Z) (tie_key : Z * string * string)
    (number : Z) :
  6 < number →
  _available_slur_numbers (_release_slur_number slur_key number s)
  = _available_slur_numbers s
  ∧ default range_1_16
      (_available_tie_numbers (_release_tie_number tie_key number s) !! tie_key)
    = default range_1_16 (_available_tie_numbers s !! tie_key)
  ∧ (let s7 := Scenario.open_slurs 7 1 1 (init 16 4 1%Qc) in
     fst (stop_slur 1 1 s7) = Some 7
     ∧ fst (start_slur 1 1 (snd (stop_slur 1 1 s7))) = 8)
  ∧ (let s7 := Scenario.open_ties 7 1 "C5" "0" (init 16 4 1%Qc) in
     fst (stop_tie 1 "C5" "0" s7) = Some 7
     ∧ fst (start_tie 1 "C5" "0" (snd (stop_tie 1 "C5" "0" s7))) = 8).
Proof.
  intros Hn. unfold _release_slur_number, _release_tie_number.
  assert (Hguard : (number <=? 6) = false) by (apply Z.leb_gt; lia).
  rewrite Hguard, andb_false_r.
  cbn [andb set_ties _available_tie_numbers].
  split; [done|]. split.
  - by rewrite lookup_insert_eq.
  - split; split; vm_compute; reflexivity.
Qed.

Lemma C2_released_seven_is_not_reused_witness :
  6 < 7
  ∧ _available_slur_numbers
      (_release_slur_number (1, 1) 7 (Scenario.open_slurs 7 1 1 (init 16 4 1%Qc)))
    = _available_slur_numbers (Scenario.open_slurs 7 1 1 (init 16 4 1%Qc)).
Proof.
  assert (H : 6 < 7) by lia.
  split; [exact H|].
  exact (proj1 (C2_released_seven_is_not_reused
                  (Scenario.open_slurs 7 1 1 (init 16 4 1%Qc))
                  (1, 1) (1, "C5", "0") 7 H)).
Defined.

Lemma stop_slur_unmatched (s : State) (staff voice : Z) :
  default [] (_open_slurs s !! (staff, voice)) = [] →
  stop_slur staff voice s = (None, s).
Proof.
  intros H. unfold stop_slur.
  destruct (_open_slurs s !! (staff, voice)) as [stack|]; [|done].
  simpl in H. by subst.
Qed.

Lemma stop_tie_unmatched (s : State) (staff : Z) (pitch lift : string) :
  default [] (_open_ties s !! (staff, pitch, lift)) = [] →
  stop_tie staff pitch lift s = (None, s).
Proof.
  intros H. unfold stop_tie.
  destruct (_open_ties s !! (staff, pitch, lift)) as [stack|]; [|done].
  simpl in H. by subst.
Qed.

(** C9 (unmatched stop), key by key.  On a (staff, voice) key without
    an open slur, [stop_slur] returns [None] and leaves the state as it
    was, and the emitter adds nothing for a [slurStop] tag of that staff
    and voice: the notations element of the note carries no closing
    slur.  On a (staff, pitch, accidental) key without an open tie,
    [stop_tie] returns [None] and leaves the state as it was, and the
    emitter adds nothing for a [tieStop] tag on a note of that staff,
    pitch and accidental, whatever is open on the other keys. *)
Theorem C9_unmatched_stop_is_omitted
    (s : State) (note : XMLElement) (staff voice : Z) (acc : art_acc) :
  (default [] (_open_slurs s !! (staff, voice)) = [] →
   stop_slur staff voice s = (None, s)
   ∧ articulation_step note (Some staff) (Some voice) acc "slurStop" s
     = inr (acc, s)
   ∧ build_articulations note "slurStop" "" (Some staff) (Some voice) s
     = inr (mxl.add_child (XMLNode "XMLNotations" [] None []) note, s))
  ∧ (∀ pitch lift,
       default [] (_open_ties s !! (staff, pitch, lift)) = [] →
       stop_tie staff pitch lift s = (None, s)
       ∧ (tie_key note = Some (pitch, lift) →
          articulation_step note (Some staff) (Some voice) acc "tieStop" s
          = inr (acc, s)
          ∧ build_articulations note "tieStop" "" (Some staff) (Some voice)
                                s
            = inr (mxl.add_child (XMLNode "XMLNotations" [] None []) note,
                   s))).
Proof.
  split.
  - intros Hslur.
    pose proof (stop_slur_unmatched s staff voice Hslur) as Hs.
    assert (Hstep : ∀ acc', articulation_step note (Some staff) (Some voice)
                                      acc' "slurStop" s = inr (acc', s)).
    { intros acc'. unfold articulation_step. eval_string_tests.
      unfold mbind, M_bind, with_state. by rewrite Hs. }
    split; [done|]. split; [done|].
    unfold build_articulations.
    change (PyStr.split "_" "slurStop") with ["slurStop"].
    unfold for_each. unfold mbind at 1. unfold M_bind at 1.
    unfold mbind at 1. unfold M_bind at 1.
    rewrite Hstep. eval_string_tests. reflexivity.
  - intros pitch lift Htie.
    pose proof (stop_tie_unmatched s staff pitch lift Htie) as Ht.
    split; [done|]. intros Hkey.
    assert (Hstep : ∀ acc', articulation_step note (Some staff) (Some voice)
                                      acc' "tieStop" s = inr (acc', s)).
    { intros acc'. unfold articulation_step. eval_string_tests.
      rewrite Hkey. unfold mbind, M_bind, with_state. by rewrite Ht. }
    split; [done|].
    unfold build_articulations.
    change (PyStr.split "_" "tieStop") with ["tieStop"].
    unfold for_each. unfold mbind at 1. unfold M_bind at 1.
    unfold mbind at 1. unfold M_bind at 1.
    rewrite Hstep. eval_string_tests. reflexivity.
Qed.

Lemma C9_unmatched_stop_is_omitted_witness :
  default [] (_open_ties (Scenario.tied_c5 (init 16 4 1%Qc))
              !! (1, "C5", "0")) = [1]
  ∧ build_articulations (Scenario.pitched "D" 5) "tieStop" ""
                        (Some 1) (Some 1)
                        (Scenario.tied_c5 (init 16 4 1%Qc))
    = inr (mxl.add_child (XMLNode "XMLNotations" [] None [])
                         (Scenario.pitched "D" 5),
           Scenario.tied_c5 (init 16 4 1%Qc)).
Proof.
  split; [reflexivity|].
  refine (proj2 (proj2 (proj2
            (C9_unmatched_stop_is_omitted
               (Scenario.tied_c5 (init 16 4 1%Qc))
               (Scenario.pitched "D" 5) 1 1
               {| notation := []; xml_articulations := [];
                  xml_ornaments := [] |})
            "D5" "0" _) _)).
  - reflexivity.
  - reflexivity.
Defined.

End Allocator.

(** ** Timing analysis *)

Section Fractions.

Lemma frac_ltb_lt (a b : Fraction) : frac_ltb a b = true ↔ (a < b)%Qc.
Proof.
  unfold frac_ltb. rewrite Qclt_alt.
  destruct (a ?= b)%Qc; split; congruence.
Qed.

Lemma denominator_pos (q : Fraction) : 0 < denominator q.
Proof. unfold denominator. lia. Qed.

Lemma lcm_is_lcm (a b : Z) : 0 < a → 0 < b → lcm a b = Z.lcm a b.
Proof.
  intros Ha Hb. unfold lcm, Z.lcm.
  assert (Hg : 0 < Z.gcd a b).
  { pose proof (Z.gcd_nonneg a b).
    destruct (Z.eq_dec (Z.gcd a b) 0) as [E|]; [|lia].
    apply Z.gcd_eq_0_l in E. lia. }
  rewrite (Z.abs_eq (a * b)) by nia.
  rewrite Z.abs_eq; [|apply Z.mul_nonneg_nonneg; [lia|apply Z.div_pos; lia]].
  rewrite Z.divide_div_mul_exact; [done|lia|apply Z.gcd_divide_r].
Qed.

Lemma lcm_pos (a b : Z) : 0 < a → 0 < b → 0 < lcm a b.
Proof.
  intros Ha Hb. rewrite lcm_is_lcm by done.
  pose proof (Z.lcm_nonneg a b).
  destruct (Z.eq_dec (Z.lcm a b) 0) as [E|]; [|lia].
  apply Z.lcm_eq_0 in E. lia.
Qed.

(** The fold of [lcm] over positive numbers is their least common
    multiple. *)
Lemma foldl_lcm (l : list Z) :
  ∀ a, 0 < a → Forall (λ d, 0 < d) l →
       0 < foldl lcm a l
       ∧ (a | foldl lcm a l)
       ∧ Forall (λ d, (d | foldl lcm a l)) l
       ∧ ∀ m, (a | m) → Forall (λ d, (d | m)) l → (foldl lcm a l | m).
Proof.
  induction l as [|d l IH]; intros a Ha Hl; simpl.
  - split; [done|]. split; [reflexivity|]. split; [constructor|].
    by intros m Hm _.
  - inversion Hl as [|? ? Hd Hl']; subst.
    destruct (IH (lcm a d) (lcm_pos _ _ Ha Hd) Hl') as (Hp & Hdiv & Hall & Hleast).
    assert (Ha' : (a | lcm a d))
      by (rewrite lcm_is_lcm by done; apply Z.divide_lcm_l).
    assert (Hd' : (d | lcm a d))
      by (rewrite lcm_is_lcm by done; apply Z.divide_lcm_r).
    split; [done|]. split; [by etrans|].
    split; [constructor; [by etrans|done]|].
    intros m Ham Hm. inversion Hm; subst.
    apply Hleast; [|done]. rewrite lcm_is_lcm by done.
    by apply Z.lcm_least.
Qed.

(** [find_common_division]: a positive number, a multiple of the
    denominator of every positive duration, and the least such. *)
Lemma find_common_division_spec (durations : list Fraction) :
  0 < find_common_division durations
  ∧ (∀ d, d ∈ durations → (0 < d)%Qc →
          (denominator d | find_common_division durations))
  ∧ (∀ m, (∀ d, d ∈ durations → (0 < d)%Qc → (denominator d | m)) →
          (find_common_division durations | m)).
Proof.
  unfold find_common_division. fold (positive_denominators durations).
  assert (Hpos : Forall (λ d, 0 < d) (positive_denominators durations)).
  { apply Forall_forall. intros z Hz.
    apply list_elem_of_fmap in Hz as (q & -> & _). apply denominator_pos. }
  assert (Hmem : ∀ d, d ∈ durations → (0 < d)%Qc →
                      denominator d ∈ positive_denominators durations).
  { intros d Hd Hlt. apply list_elem_of_fmap. exists d. split; [done|].
    apply list_elem_of_filter. split; [by apply frac_ltb_lt|done]. }
  assert (Hback : ∀ z, z ∈ positive_denominators durations →
                       ∃ d, d ∈ durations ∧ (0 < d)%Qc ∧ z = denominator d).
  { intros z Hz. apply list_elem_of_fmap in Hz as (q & -> & Hq).
    apply list_elem_of_filter in Hq as [Hq1 Hq2].
    exists q. split; [done|]. split; [by apply frac_ltb_lt|done]. }
  destruct (positive_denominators durations) as [|d0 rest] eqn:E.
  - split; [lia|]. split.
    + intros d Hd Hlt. specialize (Hmem d Hd Hlt). by apply elem_of_nil in Hmem.
    + intros m _. apply Z.divide_1_l.
  - inversion Hpos as [|? ? H0 Hrest]; subst.
    destruct (foldl_lcm rest d0 H0 Hrest) as (Hp & Hd0 & Hall & Hleast).
    split; [done|]. split.
    + intros d Hd Hlt. specialize (Hmem d Hd Hlt).
      apply elem_of_cons in Hmem as [->|Hin]; [done|].
      rewrite Forall_forall in Hall. by apply Hall.
    + intros m Hm. apply Hleast.
      * destruct (Hback d0) as (q & Hq & Hlt & ->); [left|]. by apply Hm.
      * apply Forall_forall. intros z Hz.
        destruct (Hback z) as (q & Hq & Hlt & ->); [by right|]. by apply Hm.
Qed.

End Fractions.

Section Division.



Lemma timing_step_durations (st : timing_state) (c : Chord) :
  (∀ d, d ∈ durations st → d ∈ durations (timing_step st c))
  ∧ (∀ d, d ∈ durations (timing_step st c) →
          d ∈ durations st
          ∨ (d = SymbolChord.get_duration c ∧ (0 < d)%Qc))
  ∧ (SymbolChord.is_barline c = false →
     (0 < SymbolChord.get_duration c)%Qc →
     SymbolChord.get_duration c ∈ durations (timing_step st c)).
Proof.
  unfold timing_step.
  destruct (SymbolChord.is_barline c
            && frac_ltb 0%Qc (duration_in_measure st)) eqn:Hb; simpl.
  - split; [done|]. split; [by left|].
    intros Hnb. rewrite Hnb in Hb. done.
  - destruct (frac_ltb 0%Qc (SymbolChord.get_duration c)) eqn:Hd; simpl.
    + apply frac_ltb_lt in Hd. split; [|split].
      * intros d Hin. apply elem_of_app. by left.
      * intros d Hin. apply elem_of_app in Hin as [Hin|Hin]; [by left|].
        apply list_elem_of_singleton in Hin as ->. by right.
      * intros _ _. apply elem_of_app. right. by apply list_elem_of_singleton.
    + split; [done|]. split; [by left|].
      intros _ Hlt. apply frac_ltb_lt in Hlt. congruence.
Qed.

Lemma timing_fold_durations (voice : list Chord) :
  ∀ st,
    (∀ d, d ∈ durations st → d ∈ durations (foldl timing_step st voice))
    ∧ (∀ d, d ∈ durations (foldl timing_step st voice) →
            d ∈ durations st
            ∨ ∃ c, c ∈ voice ∧ d = SymbolChord.get_duration c ∧ (0 < d)%Qc)
    ∧ (∀ c, c ∈ voice → SymbolChord.is_barline c = false →
            (0 < SymbolChord.get_duration c)%Qc →
            SymbolChord.get_duration c
            ∈ durations (foldl timing_step st voice)).
Proof.
  induction voice as [|c voice IH]; intros st; simpl.
  - split; [done|]. split; [by left|]. intros c Hc. by apply elem_of_nil in Hc.
  - destruct (IH (timing_step st c)) as (Hkeep & Hfrom & Hin).
    destruct (timing_step_durations st c) as (Hkeep1 & Hfrom1 & Hin1).
    split; [|split].
    + intros d Hd. by apply Hkeep, Hkeep1.
    + intros d Hd. apply Hfrom in Hd as [Hd|(c' & Hc' & Heq & Hlt)].
      * apply Hfrom1 in Hd as [Hd|[Heq Hlt]]; [by left|].
        right. exists c. split; [by left|done].
      * right. exists c'. split; [by right|done].
    + intros c' Hc' Hnb Hlt. apply elem_of_cons in Hc' as [->|Hc'].
      * by apply Hkeep, Hin1.
      * by apply Hin.
Qed.

Lemma find_division_fst (voice : list Chord) :
  (find_division_and_time_signature_nominator voice).1
  = find_common_division (durations (foldl timing_step timing_init voice)).
Proof.
  unfold find_division_and_time_signature_nominator.
  destruct (frac_ltb 0%Qc
              (duration_in_measure (foldl timing_step timing_init voice)));
    [destruct (measure_duration _ ++ _)|destruct (measure_duration _)]; done.
Qed.

Lemma quarter_seed : denominator (frac 1 4) = 4 ∧ (0 < frac 1 4)%Qc.
Proof. split; [reflexivity|]. by apply frac_ltb_lt. Qed.







End Division.

(** ** The measure driver *)

Section TrailingMeasure.
Variable sort_token_chords : list Symbol → list (list Symbol).
Variable duration_of_quarter : Z.

Lemma musical_content_has_children (measure : XMLElement) :
  _measure_has_musical_content measure = true →
  mxl.get_children measure ≠ [].
Proof.
  unfold _measure_has_musical_content.
  destruct (mxl.get_children measure); [done|]. done.
Qed.

(** C4 (trailing measure), as amended.  After the last chord the measure
    under construction joins the list of measures if and only if it has
    at least one child, of whatever kind; musical content is sufficient
    for that and not necessary. *)
Theorem C4_trailing_measure_is_kept_when_not_empty
    (args : XmlGeneratorArguments) (voice : list Symbol)
    (is_first_part : bool) (d : driver) (st : State) :
  run_driver duration_of_quarter args
             (apply_beaming
                (add_tuplet_start_stop
                   (group_into_chords sort_token_chords voice)))
             (_max_staff_number voice) is_first_part = inr (d, st) →
  build_measures sort_token_chords duration_of_quarter args voice
                 is_first_part
  = inr (if decide (mxl.get_children (current_measure d) = [])
         then measures d else measures d ++ [current_measure d])
  ∧ (_measure_has_musical_content (current_measure d) = true →
     build_measures sort_token_chords duration_of_quarter args voice
                    is_first_part
     = inr (measures d ++ [current_measure d])).
Proof.
  intros Hrun.
  assert (Hbuild :
    build_measures sort_token_chords duration_of_quarter args voice
                   is_first_part
    = inr (if decide (mxl.get_children (current_measure d) = [])
           then measures d else measures d ++ [current_measure d])).
  { unfold build_measures. rewrite Hrun. unfold driver_finish.
    destruct (mxl.get_children (current_measure d)); done. }
  split; [done|]. intros Hmusic. rewrite Hbuild.
  apply musical_content_has_children in Hmusic.
  by destruct (decide _).
Qed.
End TrailingMeasure.

Lemma C4_trailing_measure_is_kept_when_not_empty_witness :
  match run_driver 16 Scenario.no_args
                   (apply_beaming
                      (add_tuplet_start_stop
                         (group_into_chords
                            (Scenario.given Scenario.trailing_key_signature) [])))
                   (_max_staff_number []) true with
  | inr (d, _) =>
      build_measures (Scenario.given Scenario.trailing_key_signature) 16
                     Scenario.no_args [] true
      = inr (if decide (mxl.get_children (current_measure d) = [])
             then measures d else measures d ++ [current_measure d])
  | inl _ => False
  end.
Proof.
  destruct (run_driver 16 Scenario.no_args _ _ true) as [e|[d st]] eqn:H.
  - vm_compute in H. discriminate H.
  - exact (proj1 (C4_trailing_measure_is_kept_when_not_empty
                    (Scenario.given Scenario.trailing_key_signature) 16
                    Scenario.no_args [] true d st H)).
Defined.

(** C4 as stated fails: a key signature after the last barline leaves a
    trailing measure whose only child is an attributes block, and that
    measure is appended. *)
Lemma C4_counterexample :
  ∃ first last,
    build_measures (Scenario.given Scenario.trailing_key_signature) 16
                   Scenario.no_args [] true = inr [first; last]
    ∧ _measure_has_musical_content last = false
    ∧ map mxl.cls (mxl.get_children last) = ["XMLAttributes"].
Proof. do 2 eexists. split; [vm_compute; reflexivity|]. split; reflexivity. Qed.

(** ** The beaming pass *)

Section BeamStep.

Lemma beam_step_action (staff_position : string) (st : beam_state)
    (gi : nat) (group : Chord) :
  beam_step staff_position st (gi, group)
  = match beam_action_of staff_position group with
    | Flush => beam_flush st
    | Skip => st
    | Carry si => beam_carry (gi, si) st
    end.
Proof.
  unfold beam_step, beam_action_of, beam_carry.
  destruct (SymbolChord.is_barline group); [done|].
  destruct (staff_chord_of staff_position group) as [sc|]; [|done].
  destruct (beam_scan sc false false) as [[found hnr] hr].
  destruct hr; [by destruct hnr|].
  destruct found; [done|]. by destruct hnr.
Qed.

(** The scan of a sub-chord without a beamable note sees all of it. *)
Lemma beam_scan_none (sc : list (nat * Symbol)) :
  ∀ hnr hr,
    List.find (λ x, _is_beamable_note x.2) sc = None →
    beam_scan sc hnr hr
    = (None,
       hnr || existsb (λ x, EncodedSymbol.is_note x.2
                            || EncodedSymbol.is_rest x.2) sc,
       hr || existsb (λ x, EncodedSymbol.is_rest x.2) sc).
Proof.
  induction sc as [|[i s] sc IH]; intros hnr hr Hfind; simpl in *.
  - by rewrite !orb_false_r.
  - destruct (_is_beamable_note s); [done|].
    rewrite IH by done. f_equal; [f_equal|].
    + destruct (EncodedSymbol.is_rest s), (EncodedSymbol.is_note s), hnr; done.
    + destruct (EncodedSymbol.is_rest s), hr; done.
Qed.

(** The scan of a sub-chord without a rest stops at the first beamable
    note. *)
Lemma beam_scan_some (sc : list (nat * Symbol)) :
  ∀ hnr si s,
    List.find (λ x, _is_beamable_note x.2) sc = Some (si, s) →
    existsb (λ x, EncodedSymbol.is_rest x.2) sc = false →
    ∃ hnr', beam_scan sc hnr false = (Some si, hnr', false).
Proof.
  induction sc as [|[i s0] sc IH]; intros hnr si s Hfind Hrest;
    simpl in *; [done|].
  apply orb_false_iff in Hrest as [Hr0 Hrest]. rewrite Hr0. simpl.
  destruct (_is_beamable_note s0).
  - injection Hfind as -> ->. by eexists.
  - by eapply IH.
Qed.

Lemma action_of_role (staff_position : string) (group : Chord) :
  match position_role staff_position group with
  | Breaks => beam_action_of staff_position group = Flush
  | Transparent => beam_action_of staff_position group = Skip
  | Beamable si => beam_action_of staff_position group = Carry si
  | Mixed => True
  end.
Proof.
  unfold position_role, beam_action_of.
  destruct (SymbolChord.is_barline group); [done|].
  destruct (staff_chord_of staff_position group) as [sc|]; [|done].
  destruct (List.find (λ x, _is_beamable_note x.2) sc) as [[si s]|] eqn:Hfind.
  - destruct (existsb (λ x, EncodedSymbol.is_rest x.2) sc) eqn:Hrest; [done|].
    destruct (beam_scan_some sc false si s Hfind Hrest) as [hnr' ->]. done.
  - rewrite (beam_scan_none sc false false Hfind). simpl.
    destruct (existsb (λ x, EncodedSymbol.is_note x.2
                            || EncodedSymbol.is_rest x.2) sc) eqn:Hnr.
    + by destruct (existsb (λ x, EncodedSymbol.is_rest x.2) sc).
    + assert (Hr : existsb (λ x, EncodedSymbol.is_rest x.2) sc = false).
      { apply not_true_is_false. intros Hr.
        apply existsb_exists in Hr as (x & Hx & Hxr).
        assert (existsb (λ x, EncodedSymbol.is_note x.2
                              || EncodedSymbol.is_rest x.2) sc = true).
        { apply existsb_exists. exists x. split; [done|].
          rewrite Hxr. apply orb_true_r. }
        congruence. }
      by rewrite Hr.
Qed.




(** C5 (chords with neither note nor rest), as amended.  A chord that is
    no barline and whose sub-chord at the staff position holds neither a
    note nor a rest (a clef, say) is skipped by the beaming pass: the
    pending symbol, the run length and every marker stay as they are.
    The pending run is flushed and the run state reset when the chord is
    a barline, when it has no sub-chord at the position, or when its
    sub-chord holds a note or a rest but no beamable note. *)
Theorem C5_chord_without_note_or_rest_is_skipped
    (staff_position : string) (st : beam_state) (gi : nat) (group : Chord) :
  match position_role staff_position group with
  | Transparent => beam_step staff_position st (gi, group) = st
  | Breaks => beam_step staff_position st (gi, group) = beam_flush st
  | Beamable si =>
      beam_step staff_position st (gi, group) = beam_carry (gi, si) st
  | Mixed => True
  end.
Proof.
  rewrite beam_step_action.
  pose proof (action_of_role staff_position group) as H.
  destruct (position_role staff_position group); try rewrite H; done.
Qed.

(** C5 as stated fails: a clef between two eighth notes neither flushes
    nor resets the run that the first eighth note has started, and the two
    notes are beamed together across the clef. *)
Lemma C5_counterexample :
  let groups := Scenario.clef_between_eighths in
  let clef := SymbolChord.make
                [Scenario.sym "clef_F4" "_" "_" "_" "upper" Scenario.nodur] in
  let st := {| pending := Some (0, 0)%nat; run_length := 1;
               marked := groups |} in
  existsb (λ s, EncodedSymbol.is_note s || EncodedSymbol.is_rest s)
          (SymbolChord.symbols clef) = false
  ∧ beam_step "upper" st (1%nat, clef) = st
  ∧ pending (beam_flush st) = None
  ∧ map (λ g, map EncodedSymbol.beam (SymbolChord.symbols g))
        (apply_beaming groups)
    = [[Some "begin"]; [None]; [Some "end"]].
Proof. repeat split; reflexivity. Qed.

End BeamStep.

Section BeamMarks.

Lemma erase_set_beam (l : loc) (b : string) (m : list Chord) :
  clear_beams (set_beam l b m) = clear_beams m.
Proof.
  unfold clear_beams, set_beam.
  rewrite (list_fmap_alter erase_beams _ id).
  - by apply list_alter_id.
  - apply Forall_forall. intros c _. unfold erase_beams. simpl. f_equal.
    rewrite (list_fmap_alter (EncodedSymbol.with_beam None) _ id).
    + by apply list_alter_id.
    + apply Forall_forall. by intros s _.
Qed.

Lemma symbol_at_clear (m : list Chord) (l : loc) :
  symbol_at (clear_beams m) l
  = EncodedSymbol.with_beam None <$> symbol_at m l.
Proof.
  unfold symbol_at, clear_beams. rewrite list_lookup_fmap.
  destruct (m !! l.1) as [c|]; simpl; [|done].
  by rewrite list_lookup_fmap.
Qed.


Lemma beam_at_set_beam_ne (l l' : loc) (b : string) (m : list Chord) :
  l ≠ l' → beam_at (set_beam l b m) l' = beam_at m l'.
Proof.
  intros Hne. unfold beam_at, symbol_at, set_beam.
  destruct l as [gi si], l' as [gi' si']. simpl.
  rewrite list_lookup_alter. destruct (decide (gi = gi')) as [->|]; [|done].
  destruct (m !! gi') as [c|]; simpl; [|done].
  rewrite list_lookup_alter.
  destruct (decide (si = si')) as [->|]; [congruence|done].
Qed.


Lemma beam_at_cleared (m : list Chord) (l : loc) :
  beam_at (clear_beams m) l = None.
Proof.
  unfold beam_at. rewrite symbol_at_clear.
  by destruct (symbol_at m l).
Qed.

Lemma finalize_frame (p : option loc) (r : Z) (m : list Chord) (l0 : loc) :
  p ≠ Some l0 →
  beam_at (_finalize_pending_beam p r m) l0 = beam_at m l0.
Proof.
  intros Hne. unfold _finalize_pending_beam.
  destruct p as [q|]; [|done]. destruct (r <? 2); [done|].
  apply beam_at_set_beam_ne. congruence.
Qed.

Lemma finalize_shape (p : option loc) (r : Z) (m : list Chord) :
  clear_beams (_finalize_pending_beam p r m) = clear_beams m.
Proof.
  unfold _finalize_pending_beam. destruct p; [|done].
  destruct (r <? 2); [done|]. apply erase_set_beam.
Qed.

(** One iteration writes at most one marker, on the pending symbol. *)
Lemma beam_step_frame (sp : string) (st : beam_state) (ig : nat * Chord)
    (l0 : loc) :
  pending st ≠ Some l0 →
  beam_at (marked (beam_step sp st ig)) l0 = beam_at (marked st) l0.
Proof.
  intros Hne. destruct ig as [gi g]. rewrite beam_step_action.
  destruct (beam_action_of sp g); [|done|].
  - by apply finalize_frame.
  - unfold beam_carry. destruct (pending st) as [q|]; simpl; [|done].
    apply beam_at_set_beam_ne. congruence.
Qed.

Lemma beam_step_shape (sp : string) (st : beam_state) (ig : nat * Chord) :
  clear_beams (marked (beam_step sp st ig)) = clear_beams (marked st).
Proof.
  destruct ig as [gi g]. rewrite beam_step_action.
  destruct (beam_action_of sp g); [|done|].
  - apply finalize_shape.
  - unfold beam_carry. destruct (pending st) as [q|]; simpl; [|done].
    apply erase_set_beam.
Qed.

Lemma beam_fold_shape (sp : string) (l : list (nat * Chord)) :
  ∀ st, clear_beams (marked (foldl (beam_step sp) st l))
        = clear_beams (marked st).
Proof.
  induction l as [|ig l IH]; intros st; cbn [foldl]; [done|].
  by rewrite IH, beam_step_shape.
Qed.

(** The pending symbol after an iteration: none, the one before, or the
    candidate of the chord. *)
Lemma beam_step_pending (sp : string) (st : beam_state) (gi : nat)
    (g : Chord) (c : loc) :
  pending (beam_step sp st (gi, g)) = Some c →
  pending st = Some c
  ∨ ∃ si, beam_action_of sp g = Carry si ∧ c = (gi, si).
Proof.
  rewrite beam_step_action.
  destruct (beam_action_of sp g) as [| |si]; simpl; [done|by left|].
  unfold beam_carry. destruct (pending st); simpl; intros [= <-];
    right; by exists si.
Qed.

(** The frame of a stretch of the loop: a symbol that is neither pending
    nor a candidate of the stretch keeps its marker. *)
Lemma beam_fold_frame (sp : string) (Q : loc → Prop) (l0 : loc)
    (l : list (nat * Chord)) :
  ¬ Q l0 →
  (∀ gi g si, (gi, g) ∈ l → beam_action_of sp g = Carry si → Q (gi, si)) →
  ∀ st,
    (∀ c, pending st = Some c → Q c) →
    beam_at (marked (foldl (beam_step sp) st l)) l0 = beam_at (marked st) l0
    ∧ (∀ c, pending (foldl (beam_step sp) st l) = Some c → Q c).
Proof.
  intros HnQ. induction l as [|[gi g] l IH]; intros Hcand st Hpend;
    cbn [foldl].
  - done.
  - destruct (IH (λ gi' g' si' Hin, Hcand gi' g' si' (list_elem_of_further _ _ _ Hin))
                 (beam_step sp st (gi, g))) as [Hbeam Hpend'].
    + intros c Hc. apply beam_step_pending in Hc as [Hc|(si & Ha & ->)].
      * by apply Hpend.
      * eapply Hcand; [left|done].
    + split; [|done]. rewrite Hbeam. apply beam_step_frame.
      intros Heq. apply HnQ. by apply Hpend.
Qed.

End BeamMarks.

Section BeamRun.
Variable sp : string.



End BeamRun.

Section BeamPass.
Variable sp : string.


Lemma indexed_symbols_lookup (g : Chord) (si : nat) (s : Symbol) :
  (si, s) ∈ indexed_symbols g → SymbolChord.symbols g !! si = Some s.
Proof.
  unfold indexed_symbols. intros H.
  apply elem_of_lookup_imap in H as (i & x & [= -> ->] & Hx). done.
Qed.

(** The sub-chord of a staff position is the list of the upper symbols
    or the list of the other symbols, according to its first symbol. *)
Lemma staff_chord_members (g : Chord) (sc : list (nat * Symbol))
    (si : nat) (s : Symbol) :
  staff_chord_of sp g = Some sc → (si, s) ∈ sc →
  SymbolChord.symbols g !! si = Some s
  ∧ (sp = "upper" → SymbolChord.is_upper id s = true)
  ∧ (sp = "lower" → SymbolChord.is_upper id s = false).
Proof.
  unfold staff_chord_of. intros Hfind Hin.
  apply find_some in Hfind as [Hsc Hhead].
  unfold SymbolChord.split_positions in Hsc.
  set (upper := filter (λ a, SymbolChord.is_upper snd a = true)
                       (indexed_symbols g)) in *.
  set (lower := filter (λ a, SymbolChord.is_upper snd a = false)
                       (indexed_symbols g)) in *.
  assert (Hcases : sc = upper ∨ sc = lower).
  { apply list_elem_of_In, list_elem_of_filter in Hsc as [_ Hsc].
    destruct (forallb _ lower);
      repeat (apply elem_of_cons in Hsc as [Hsc|Hsc]; [by eauto|]);
      by apply elem_of_nil in Hsc. }
  assert (Hmem : (si, s) ∈ indexed_symbols g).
  { destruct Hcases as [->| ->];
      apply list_elem_of_filter in Hin as [_ Hin]; done. }
  split; [by apply indexed_symbols_lookup|].
  destruct sc as [|[i0 first] sc']; [done|].
  apply String.eqb_eq in Hhead.
  assert (Hfirst : (i0, first) ∈ (i0, first) :: sc') by left.
  destruct Hcases as [Hc|Hc]; rewrite Hc in Hin, Hfirst;
    apply list_elem_of_filter in Hin as [Hup _];
    apply list_elem_of_filter in Hfirst as [Hup0 _];
    unfold SymbolChord.is_upper in *; simpl in *;
    split; intros ->; try done;
    rewrite Hhead in Hup0; done.
Qed.




End BeamPass.

Section BeamErase.

Lemma filter_fmap_pres {A B : Type} (F : A → B) (P : B → Prop)
    (P' : A → Prop) `{∀ x, Decision (P x)} `{∀ x, Decision (P' x)}
    (l : list A) :
  (∀ x, P (F x) ↔ P' x) → filter P (F <$> l) = F <$> filter P' l.
Proof.
  intros HP. induction l as [|x l IH]; [done|].
  rewrite fmap_cons, !filter_cons, IH.
  destruct (decide (P (F x))) as [Hx|Hx], (decide (P' x)) as [Hx'|Hx'];
    try done; exfalso; by (apply Hx, HP) || (apply Hx', HP).
Qed.

Lemma find_fmap {A B : Type} (p : B → bool) (F : A → B) (l : list A) :
  List.find p (F <$> l) = F <$> List.find (λ x, p (F x)) l.
Proof.
  induction l as [|x l IH]; [done|]. simpl.
  destruct (p (F x)); [done|]. exact IH.
Qed.

Lemma find_ext {A : Type} (p q : A → bool) (l : list A) :
  (∀ x, p x = q x) → List.find p l = List.find q l.
Proof.
  intros H. induction l as [|x l IH]; [done|]. simpl. by rewrite H, IH.
Qed.

Lemma existsb_fmap {A B : Type} (p : B → bool) (F : A → B) (l : list A) :
  existsb p (F <$> l) = existsb (λ x, p (F x)) l.
Proof. induction l as [|x l IH]; [done|]. simpl. by rewrite <- IH. Qed.

Lemma forallb_fmap {A B : Type} (p : B → bool) (F : A → B) (l : list A) :
  forallb p (F <$> l) = forallb (λ x, p (F x)) l.
Proof. induction l as [|x l IH]; [done|]. simpl. by rewrite <- IH. Qed.

Lemma indexed_symbols_erase (g : Chord) :
  indexed_symbols (erase_beams g) = unmarked <$> indexed_symbols g.
Proof.
  unfold indexed_symbols, erase_beams. simpl.
  change (map (EncodedSymbol.with_beam None) (SymbolChord.symbols g))
    with (EncodedSymbol.with_beam None <$> SymbolChord.symbols g).
  rewrite imap_fmap, fmap_imap. by apply imap_ext.
Qed.

Lemma split_positions_unmarked (l : list (nat * Symbol)) :
  SymbolChord.split_positions (A:=nat * Symbol) snd (unmarked <$> l)
  = fmap (M:=list) unmarked <$> SymbolChord.split_positions snd l.
Proof.
  unfold SymbolChord.split_positions.
  rewrite (filter_fmap_pres unmarked
             (λ a, SymbolChord.is_upper snd a = true)
             (λ a, SymbolChord.is_upper snd a = true) l) by done.
  rewrite (filter_fmap_pres unmarked
             (λ a, SymbolChord.is_upper snd a = false)
             (λ a, SymbolChord.is_upper snd a = false) l) by done.
  rewrite forallb_fmap. cbn [unmarked snd].
  change (λ x : nat * Symbol,
            EncodedSymbol.is_rest (EncodedSymbol.with_beam None x.2))
    with (λ a : nat * Symbol, EncodedSymbol.is_rest a.2).
  destruct (forallb _ _);
    rewrite <- (filter_fmap_pres (fmap (M:=list) unmarked)
                  (λ ch, (0 < length ch)%nat) (λ ch, (0 < length ch)%nat));
    try done; intros x; by rewrite length_fmap.
Qed.

Lemma staff_chord_of_erase (sp : string) (g : Chord) :
  staff_chord_of sp (erase_beams g)
  = fmap (M:=list) unmarked <$> staff_chord_of sp g.
Proof.
  unfold staff_chord_of.
  rewrite indexed_symbols_erase, split_positions_unmarked, find_fmap.
  f_equal. apply find_ext. intros [|[i s] ch]; done.
Qed.

Lemma is_barline_erase (g : Chord) :
  SymbolChord.is_barline (erase_beams g) = SymbolChord.is_barline g.
Proof.
  unfold SymbolChord.is_barline, erase_beams. simpl.
  by destruct (SymbolChord.symbols g).
Qed.

(** The role of a chord does not depend on beam markers. *)
Lemma role_erase (sp : string) (g : Chord) :
  position_role sp (erase_beams g) = position_role sp g.
Proof.
  unfold position_role.
  rewrite is_barline_erase, staff_chord_of_erase.
  destruct (SymbolChord.is_barline g); [done|].
  destruct (staff_chord_of sp g) as [sc|]; [|done]. simpl.
  rewrite find_fmap, !existsb_fmap. cbn [unmarked snd].
  change (λ x : nat * Symbol,
            _is_beamable_note (EncodedSymbol.with_beam None x.2))
    with (λ x : nat * Symbol, _is_beamable_note x.2).
  by destruct (List.find _ sc) as [[si s]|].
Qed.

Lemma role_same (sp : string) (g g' : Chord) :
  erase_beams g = erase_beams g' →
  position_role sp g = position_role sp g'.
Proof. intros H. by rewrite <- (role_erase sp g), H, role_erase. Qed.




Lemma clear_beams_idem (gs : list Chord) :
  clear_beams (clear_beams gs) = clear_beams gs.
Proof.
  unfold clear_beams. rewrite <- list_fmap_compose.
  apply list_fmap_ext. intros _ g _. unfold erase_beams. simpl. f_equal.
  rewrite <- list_fmap_compose. by apply list_fmap_ext.
Qed.

Lemma beam_pass_shape (sp : string) (gs : list Chord) :
  clear_beams (beam_pass sp gs) = clear_beams gs.
Proof. unfold beam_pass. by rewrite finalize_shape, beam_fold_shape. Qed.

End BeamErase.

Section BeamLaw.

Lemma clear_beams_Forall2 (gs ref : list Chord) :
  clear_beams gs = clear_beams ref → Forall2 same_notes gs ref.
Proof.
  intros H. apply list_eq_Forall2 in H. unfold clear_beams in H.
  by apply (Forall2_fmap erase_beams) in H.
Qed.








Lemma apply_beaming_passes (groups : list Chord) :
  apply_beaming groups
  = beam_pass "lower" (beam_pass "upper" (clear_beams groups)).
Proof. reflexivity. Qed.








(** A rest in the chord of a beamable note: before the note it
    interrupts the run, and the three eighth notes get no marker; behind
    the note it is not read, and the three notes are beamed. *)
Lemma rest_beside_a_beamable_note :
  map (run_role_of "upper") Scenario.rest_before_eighth
  = [Continues 0%nat; Interrupts; Continues 0%nat]
  ∧ map (beam_at (apply_beaming Scenario.rest_before_eighth))
        [(0, 0); (1, 1); (2, 0)]%nat
    = [None; None; None]
  ∧ map (run_role_of "upper") Scenario.rest_behind_eighth
    = [Continues 0%nat; Continues 0%nat; Continues 0%nat]
  ∧ map (beam_at (apply_beaming Scenario.rest_behind_eighth))
        [(0, 0); (1, 0); (2, 0)]%nat
    = [Some "begin"; Some "continue"; Some "end"].
Proof. repeat split; reflexivity. Qed.

End BeamLaw.

(** ** The note and chord emitter *)

Section Ticks.






Lemma frac_lt_this (a b : Fraction) : (a < b)%Qc ↔ (this a < this b)%Q.
Proof. done. Qed.





End Ticks.

Section Monad.

Lemma bind_inr {A B : Type} (m : M A) (k : A → M B) (st : State)
    (r : B) (st' : State) :
  (m ≫= k) st = inr (r, st') →
  ∃ a s1, m st = inr (a, s1) ∧ k a s1 = inr (r, st').
Proof.
  unfold mbind, M_bind. destruct (m st) as [e|[a s1]]; [done|].
  intros H. by exists a, s1.
Qed.

Lemma ret_inr {A : Type} (a r : A) (st st' : State) :
  mret (M:=M) a st = inr (r, st') → r = a ∧ st' = st.
Proof. unfold mret, M_ret. by intros [= -> ->]. Qed.

Lemma of_option_inr {A : Type} (e : exn) (o : option A) (r : A)
    (st st' : State) :
  of_option e o st = inr (r, st') → o = Some r ∧ st' = st.
Proof.
  unfold of_option. destruct o; [|done].
  intros H. apply ret_inr in H as [-> ->]. done.
Qed.

Lemma XMLStep_inr (value_ : string) (st : State) (xml : XMLElement)
    (st' : State) :
  XMLStep value_ st = inr (xml, st') →
  xml = mxl.elem_v "XMLStep" (VStr value_) ∧ st' = st
  ∧ value_ ∈ ["A"; "B"; "C"; "D"; "E"; "F"; "G"].
Proof.
  unfold XMLStep. case_bool_decide as Hin; [|done].
  intros H. by apply ret_inr in H as [-> ->].
Qed.

Lemma XMLDuration_inr (value_ : Z) (st : State) (xml : XMLElement)
    (st' : State) :
  XMLDuration value_ st = inr (xml, st') →
  xml = mxl.elem_v "XMLDuration" (VInt value_) ∧ st' = st ∧ 0 < value_.
Proof.
  unfold XMLDuration. destruct (0 <? value_) eqn:Hpos; [|done].
  intros H. apply ret_inr in H as [-> ->]. by apply Z.ltb_lt in Hpos.
Qed.

Lemma backup_inr (ticks : Z) (st : State) (xml : XMLElement) (st' : State) :
  backup ticks st = inr (xml, st') →
  xml = XMLNode "XMLBackup" [] None
          [mxl.elem_v "XMLDuration" (VInt ticks)]
  ∧ st' = st ∧ 0 < ticks.
Proof.
  unfold backup. intros H. apply bind_inr in H as (d & s1 & Hd & H).
  apply XMLDuration_inr in Hd as (-> & -> & Hpos).
  by apply ret_inr in H as [-> ->].
Qed.

Lemma keeps_ret {A : Type} (a : A) : keeps_division (mret a).
Proof. intros st r st' H. by apply ret_inr in H as [_ ->]. Qed.

Lemma keeps_raise {A : Type} (e : exn) : keeps_division (raise (A:=A) e).
Proof. by intros st r st' H. Qed.

Lemma keeps_bind {A B : Type} (m : M A) (k : A → M B) :
  keeps_division m → (∀ a, keeps_division (k a)) →
  keeps_division (m ≫= k).
Proof.
  intros Hm Hk st r st' H. apply bind_inr in H as (a & s1 & H1 & H2).
  rewrite (Hk a s1 r st' H2). by eapply Hm.
Qed.

Lemma keeps_of_option {A : Type} (e : exn) (o : option A) :
  keeps_division (of_option e o).
Proof. intros st r st' H. by apply of_option_inr in H as [_ ->]. Qed.

Lemma keeps_XMLStep (value_ : string) : keeps_division (XMLStep value_).
Proof. intros st r st' H. by apply XMLStep_inr in H as (_ & -> & _). Qed.

Lemma keeps_XMLDuration (value_ : Z) : keeps_division (XMLDuration value_).
Proof. intros st r st' H. by apply XMLDuration_inr in H as (_ & -> & _). Qed.

Lemma keeps_backup (ticks : Z) : keeps_division (backup ticks).
Proof. intros st r st' H. by apply backup_inr in H as (_ & -> & _). Qed.

Lemma keeps_with_state {A : Type} (f : State → A * State) :
  (∀ st, ConversionState.division (f st).2 = ConversionState.division st) →
  keeps_division (with_state f).
Proof.
  intros Hf st r st' H. unfold with_state in H.
  injection H as H. rewrite <- (Hf st), H. done.
Qed.

Lemma keeps_get_state : keeps_division get_state.
Proof. intros st r st' H. unfold get_state in H. by injection H as _ <-. Qed.

Lemma keeps_for_each {A B : Type} (body : B → A → M B) (l : list A) :
  (∀ acc x, keeps_division (body acc x)) →
  ∀ acc, keeps_division (for_each body l acc).
Proof.
  intros Hbody. induction l as [|x l IH]; intros acc; simpl.
  - apply keeps_ret.
  - apply keeps_bind; [apply Hbody|]. intros a. apply IH.
Qed.

End Monad.

Section AllocatorDivision.
Import ConversionState.

Lemma toggle_tremolo_division (st : State) :
  division (toggle_tremolo_state st).2 = division st.
Proof. done. Qed.

Lemma start_slur_division (staff voice : Z) (st : State) :
  division (start_slur staff voice st).2 = division st.
Proof. unfold start_slur. by destruct (_available_slur_numbers st). Qed.

Lemma stop_slur_division (staff voice : Z) (st : State) :
  division (stop_slur staff voice st).2 = division st.
Proof.
  unfold stop_slur. destruct (_open_slurs st !! (staff, voice)); [|done].
  destruct (last l); [|done]. simpl. unfold _release_slur_number.
  by destruct (_ && _).
Qed.

Lemma start_tie_division (staff : Z) (pitch lift : string) (st : State) :
  division (start_tie staff pitch lift st).2 = division st.
Proof. unfold start_tie. by destruct (default _ _). Qed.

Lemma stop_tie_division (staff : Z) (pitch lift : string) (st : State) :
  division (stop_tie staff pitch lift st).2 = division st.
Proof.
  unfold stop_tie. destruct (_open_ties st !! (staff, pitch, lift)); [|done].
  destruct (last l); [|done]. simpl. unfold _release_tie_number.
  by destruct (_ && _).
Qed.

End AllocatorDivision.

Lemma articulation_step_division (note : XMLElement) (staff voice : option Z)
    (acc : art_acc) (articulation : string) :
  keeps_division (articulation_step note staff voice acc articulation).
Proof.
  unfold articulation_step.
  repeat match goal with
         | |- keeps_division (if ?b then _ else _) => destruct b
         | |- keeps_division (mret _) => apply keeps_ret
         | |- keeps_division (raise _) => apply keeps_raise
         | |- keeps_division (_ ≫= _) => apply keeps_bind; [|intros ?]
         | |- keeps_division (match ?o with _ => _ end) => destruct o
         | |- keeps_division (with_state _) =>
             apply keeps_with_state; intros ?
         end;
    auto using toggle_tremolo_division, start_slur_division,
      stop_slur_division, start_tie_division, stop_tie_division.
Qed.

Lemma build_articulations_division (note : XMLElement)
    (articualations tuplet_mark : string) (staff voice : option Z) :
  keeps_division
    (build_articulations note articualations tuplet_mark staff voice).
Proof.
  unfold build_articulations. apply keeps_bind.
  - apply keeps_for_each. intros acc x. apply articulation_step_division.
  - intros acc. apply keeps_ret.
Qed.

Section NoteShape.

Lemma shape_add_child (x e : XMLElement) :
  shape (mxl.add_child x e)
  = (mxl.cls e,
     has_child "XMLChord" e || mxl.isinstance x "XMLChord",
     has_child "XMLGrace" e || mxl.isinstance x "XMLGrace",
     match _find_child_of_type e "XMLDuration" with
     | Some d => Some (mxl.value_ d)
     | None => if mxl.isinstance x "XMLDuration"
               then Some (mxl.value_ x) else None
     end).
Proof.
  destruct e as [c a v ch]. unfold shape, has_child, _find_child_of_type.
  simpl. rewrite !existsb_app. simpl. rewrite !orb_false_r.
  f_equal. clear. induction ch as [|y ch IH]; simpl.
  - by destruct (mxl.isinstance x "XMLDuration").
  - destruct (mxl.isinstance y "XMLDuration"); [done|]. exact IH.
Qed.

Lemma shape_add_child_to (x e : XMLElement) (c : string) (hc hg : bool)
    (d : option (option xml_value)) :
  shape e = (c, hc, hg, d) →
  shape (mxl.add_child x e)
  = (c, hc || mxl.isinstance x "XMLChord",
     hg || mxl.isinstance x "XMLGrace",
     match d with
     | Some v => Some v
     | None => if mxl.isinstance x "XMLDuration"
               then Some (mxl.value_ x) else None
     end).
Proof.
  intros H. rewrite shape_add_child. unfold shape in H.
  injection H as <- <- <- <-.
  by destruct (_find_child_of_type e "XMLDuration").
Qed.

(** A child that is no chord mark, grace mark or duration leaves the
    shape as it is. *)
Lemma shape_add_other (x e : XMLElement) :
  mxl.isinstance x "XMLChord" = false →
  mxl.isinstance x "XMLGrace" = false →
  mxl.isinstance x "XMLDuration" = false →
  shape (mxl.add_child x e) = shape e.
Proof.
  intros H1 H2 H3. rewrite shape_add_child, H1, H2, H3, !orb_false_r.
  unfold shape. by destruct (_find_child_of_type e "XMLDuration").
Qed.

Lemma cursor_delta_shape (e : XMLElement) (hc hg : bool)
    (d : option (option xml_value)) :
  shape e = ("XMLNote", hc, hg, d) →
  cursor_delta e
  = if hc || hg then 0
    else match d with Some (Some (VInt z)) => z | _ => 0 end.
Proof.
  unfold shape, cursor_delta, xml_duration, mxl.isinstance.
  intros [= -> -> -> ->]. done.
Qed.

Lemma shape_dots (n : list nat) (e : XMLElement) :
  shape (foldl (λ n _, mxl.add_child (mxl.elem "XMLDot") n) e n) = shape e.
Proof.
  revert e. induction n as [|k n IH]; intros e; simpl; [done|].
  rewrite IH. by apply shape_add_other.
Qed.

Lemma build_articulations_shape (note : XMLElement)
    (articualations tuplet_mark : string) (staff voice : option Z)
    (st : State) (xml : XMLElement) (st' : State) :
  build_articulations note articualations tuplet_mark staff voice st
  = inr (xml, st') →
  shape xml = shape note.
Proof.
  unfold build_articulations. intros H.
  apply bind_inr in H as (acc & s1 & _ & H).
  apply ret_inr in H as [-> _]. by apply shape_add_other.
Qed.

Lemma build_note_or_rest_spec (model_note : Symbol) (voice : Z)
    (is_chord : bool) (tuplet_mark : string) (st : State)
    (xml : XMLElement) (st' : State) :
  build_note_or_rest model_note voice is_chord tuplet_mark st
  = inr (xml, st') →
  cursor_delta xml = note_ticks model_note is_chord st
  ∧ ConversionState.division st' = ConversionState.division st.
Proof.
  unfold build_note_or_rest. intros H.
  apply bind_inr in H as (note1 & s1 & H1 & H).
  apply bind_inr in H as (state & s2 & Hget & H).
  unfold get_state in Hget. injection Hget as <- <-.
  apply bind_inr in H as (note2 & s3 & H2 & H).
  (* the pitch or the rest *)
  assert (Hshape1 : shape note1 = ("XMLNote", is_chord, false, None)
                    ∧ s1 = st).
  { set (note0 := if is_chord
                  then mxl.add_child (mxl.elem "XMLChord") (mxl.elem "XMLNote")
                  else mxl.elem "XMLNote") in *.
    assert (H0 : shape note0 = ("XMLNote", is_chord, false, None))
      by (unfold note0; by destruct is_chord).
    assert (Hadd : ∀ x, mxl.isinstance x "XMLChord" = false →
                        mxl.isinstance x "XMLGrace" = false →
                        mxl.isinstance x "XMLDuration" = false →
                        shape (mxl.add_child x note0)
                        = ("XMLNote", is_chord, false, None))
      by (intros; by rewrite shape_add_other).
    destruct (String.eqb (EncodedSymbol.pitch model_note) empty).
    { destruct (numerator _ =? 0);
        apply ret_inr in H1 as [-> ->]; split; try done; by apply Hadd. }
    destruct (String.eqb (EncodedSymbol.pitch model_note) nonote).
    { apply ret_inr in H1 as [-> ->]; split; try done; by apply Hadd. }
    apply bind_inr in H1 as (step & t1 & E1 & H1).
    apply of_option_inr in E1 as [_ ->].
    apply bind_inr in H1 as (xstep & t1 & E1 & H1).
    apply XMLStep_inr in E1 as (_ & -> & _).
    apply bind_inr in H1 as (od & t2 & E2 & H1).
    apply of_option_inr in E2 as [_ ->].
    apply bind_inr in H1 as (octave & t3 & E3 & H1).
    apply of_option_inr in E3 as [_ ->].
    apply bind_inr in H1 as (pitch & t4 & E4 & H1).
    apply ret_inr in H1 as [-> ->].
    assert (Hp : mxl.cls pitch = "XMLPitch" ∧ t4 = st).
    { destruct (String.eqb (EncodedSymbol.lift model_note) nonote).
      { by apply ret_inr in E4 as [-> ->]. }
      destruct (negb _).
      - apply bind_inr in E4 as (alter & t5 & E5 & E4).
        apply of_option_inr in E5 as [_ ->].
        by apply ret_inr in E4 as [-> ->].
      - by apply ret_inr in E4 as [-> ->]. }
    destruct Hp as [Hp ->]. split; [|done].
    apply Hadd; unfold mxl.isinstance; by rewrite Hp. }
  destruct Hshape1 as [Hshape1 ->].
  (* the type and the duration *)
  assert (Hshape2 :
    shape note2
    = ("XMLNote", is_chord, EncodedSymbol.is_grace model_note,
       if EncodedSymbol.is_grace model_note then None
       else Some (Some (VInt
              (if 0 <? numerator (fraction
                                    (EncodedSymbol.get_duration model_note))
               then int_of_frac
                      (frac_mul_int
                         (fraction (EncodedSymbol.get_duration model_note))
                         (ConversionState.division st))
               else ConversionState.beats st))))
    ∧ s3 = st).
  { destruct (EncodedSymbol.is_grace model_note).
    - apply bind_inr in H2 as (name & t1 & E1 & H2).
      apply of_option_inr in E1 as [_ ->].
      apply ret_inr in H2 as [-> ->]. split; [|done].
      rewrite shape_add_other by done.
      rewrite (shape_add_child_to _ _ _ _ _ _ Hshape1). simpl.
      by rewrite ?orb_false_r.
    - destruct (0 <? numerator _).
      + apply bind_inr in H2 as (name & t1 & E1 & H2).
        apply of_option_inr in E1 as [_ ->].
        apply bind_inr in H2 as (d & t1 & E1 & H2).
        apply XMLDuration_inr in E1 as (-> & -> & _).
        apply ret_inr in H2 as [-> ->]. split; [|done].
        erewrite shape_add_child_to;
          [|rewrite shape_add_other by done; exact Hshape1].
        simpl. by rewrite !orb_false_r.
      + apply bind_inr in H2 as (d & t1 & E1 & H2).
        apply XMLDuration_inr in E1 as (-> & -> & _).
        apply ret_inr in H2 as [-> ->]. split; [|done].
        erewrite shape_add_child_to;
          [|rewrite shape_add_other by done; exact Hshape1].
        simpl. by rewrite !orb_false_r. }
  destruct Hshape2 as [Hshape2 ->].
  (* the rest of the note *)
  set (note3 := mxl.add_child _ (mxl.add_child _ note2)) in H.
  assert (H3 : shape note3 = shape note2)
    by (unfold note3; by rewrite !shape_add_other).
  set (note4 := match EncodedSymbol.beam model_note with
                | Some _ => _ | None => _ end) in H.
  assert (H4 : shape note4 = shape note2).
  { unfold note4. destruct (EncodedSymbol.beam model_note); [|done].
    destruct (_ && _); [|done]. by rewrite shape_add_other. }
  set (note5 := foldl _ note4 _) in H.
  assert (H5 : shape note5 = shape note2)
    by (unfold note5; by rewrite shape_dots).
  assert (Hxml : shape xml = shape note2
                 ∧ ConversionState.division st' = ConversionState.division st).
  { clear H1 H2. destruct (negb (actual_notes _ =? _)).
    - split; [|exact (build_articulations_division _ _ _ _ _ _ _ _ H)].
      apply build_articulations_shape in H. rewrite H.
      by rewrite shape_add_other.
    - split; [|exact (build_articulations_division _ _ _ _ _ _ _ _ H)].
      apply build_articulations_shape in H. by rewrite H. }
  destruct Hxml as [Hxml Hdiv]. split; [|done].
  rewrite Hshape2 in Hxml.
  rewrite (cursor_delta_shape _ _ _ _ Hxml). unfold note_ticks.
  destruct is_chord; [done|]. simpl.
  by destruct (EncodedSymbol.is_grace model_note).
Qed.

End NoteShape.

Section Sorting.

Lemma frac_eqb_eq (a b : Fraction) : frac_eqb a b = true ↔ a = b.
Proof.
  unfold frac_eqb. rewrite Qceq_alt.
  destruct (a ?= b)%Qc; split; congruence.
Qed.

Lemma frac_ltb_ge (a b : Fraction) : frac_ltb a b = false ↔ (b ≤ a)%Qc.
Proof.
  split.
  - intros H. apply Qcnot_lt_le. intros Hlt.
    apply frac_ltb_lt in Hlt. congruence.
  - intros H. destruct (frac_ltb a b) eqn:E; [|done].
    apply frac_ltb_lt in E. by apply Qcle_not_lt in H.
Qed.

Lemma sorted_insert_elem (x : Fraction) (l : list Fraction) (y : Fraction) :
  y ∈ sorted_insert x l ↔ y = x ∨ y ∈ l.
Proof.
  induction l as [|z l IH]; simpl.
  - rewrite list_elem_of_singleton. set_solver.
  - destruct (frac_ltb x z); [set_solver|].
    rewrite !elem_of_cons, IH. tauto.
Qed.

Lemma sorted_insert_length (x : Fraction) (l : list Fraction) :
  length (sorted_insert x l) = S (length l).
Proof.
  induction l as [|z l IH]; simpl; [done|].
  destruct (frac_ltb x z); simpl; by rewrite ?IH.
Qed.

Lemma sorted_insert_sorted (x : Fraction) (l : list Fraction) :
  StronglySorted Qcle l → StronglySorted Qcle (sorted_insert x l).
Proof.
  induction 1 as [|z l Hl IH Hz]; simpl.
  - repeat constructor.
  - destruct (frac_ltb x z) eqn:E.
    + apply frac_ltb_lt in E. constructor; [by constructor|].
      constructor; [by apply Qclt_le_weak|].
      eapply Forall_impl; [exact Hz|]. intros y Hy. simpl in Hy.
      eapply Qcle_trans; [|exact Hy]. by apply Qclt_le_weak.
    + apply frac_ltb_ge in E. constructor; [done|].
      apply Forall_forall. intros y Hy.
      apply sorted_insert_elem in Hy as [->|Hy]; [done|].
      rewrite Forall_forall in Hz. by apply Hz.
Qed.

Lemma sorted_from (acc l : list Fraction) :
  let r := foldl (λ acc x, sorted_insert x acc) acc l in
  (∀ y, y ∈ r ↔ y ∈ acc ∨ y ∈ l)
  ∧ length r = (length acc + length l)%nat
  ∧ (StronglySorted Qcle acc → StronglySorted Qcle r).
Proof.
  revert acc. induction l as [|x l IH]; intros acc; simpl.
  - split; [set_solver|]. split; [lia|done].
  - destruct (IH (sorted_insert x acc)) as (H1 & H2 & H3).
    split; [|split].
    + intros y. rewrite H1, sorted_insert_elem, elem_of_cons. tauto.
    + rewrite H2, sorted_insert_length. lia.
    + intros H. apply H3. by apply sorted_insert_sorted.
Qed.

Lemma sorted_elem (l : list Fraction) (y : Fraction) : y ∈ sorted l ↔ y ∈ l.
Proof.
  destruct (sorted_from [] l) as (H & _ & _). rewrite (H y). set_solver.
Qed.




End Sorting.

Section Groups.
Context {A : Type}.

Lemma dict_get_append (k k' : Fraction) (v : A)
    (d : list (Fraction * list A)) :
  dict_get k (dict_append k' v d)
  = if frac_eqb k k' then dict_get k d ++ [v] else dict_get k d.
Proof.
  unfold dict_get. induction d as [|[k'' vs] r IH]; simpl.
  - by destruct (frac_eqb k k').
  - destruct (frac_eqb k' k'') eqn:E1; simpl.
    + apply frac_eqb_eq in E1 as ->. by destruct (frac_eqb k k'').
    + destruct (frac_eqb k k'') eqn:E2; [|exact IH].
      apply frac_eqb_eq in E2 as ->.
      destruct (frac_eqb k'' k') eqn:E3; [|done].
      apply frac_eqb_eq in E3 as ->.
      assert (frac_eqb k' k' = true) by by apply frac_eqb_eq.
      congruence.
Qed.

Lemma dict_keys_append (k k' : Fraction) (v : A)
    (d : list (Fraction * list A)) :
  k ∈ map fst (dict_append k' v d) ↔ k = k' ∨ k ∈ map fst d.
Proof.
  induction d as [|[k'' vs] r IH]; simpl.
  - rewrite list_elem_of_singleton. set_solver.
  - destruct (frac_eqb k' k'') eqn:E1; simpl.
    + apply frac_eqb_eq in E1 as ->. set_solver.
    + rewrite !elem_of_cons, IH. tauto.
Qed.

(** The class filed under a key holds the notes of that key, in their
    order. *)
Lemma group_get (f : A → Fraction) (notes : list A) (k : Fraction) :
  dict_get k (foldl (λ g n, dict_append (f n) n g) [] notes)
  = filter (λ n, k = f n) notes.
Proof.
  induction notes as [|n notes IH] using rev_ind; [done|].
  rewrite foldl_snoc, dict_get_append, IH, filter_app.
  destruct (frac_eqb k (f n)) eqn:E.
  - apply frac_eqb_eq in E. by rewrite filter_cons_True.
  - rewrite filter_cons_False, app_nil_r; [done|].
    intros H. apply frac_eqb_eq in H. congruence.
Qed.

Lemma group_keys (f : A → Fraction) (notes : list A) (k : Fraction) :
  k ∈ map fst (foldl (λ g n, dict_append (f n) n g) [] notes)
  ↔ ∃ n, n ∈ notes ∧ k = f n.
Proof.
  induction notes as [|n notes IH] using rev_ind.
  - simpl. set_solver.
  - rewrite foldl_snoc, dict_keys_append, IH. set_solver.
Qed.

End Groups.

Section Alignment.
Import ConversionState.



(** An invariant of a loop holds when the loop is over. *)
Lemma for_each_ind {A B : Type} (body : B → A → M B)
    (P : list A → B → State → Prop) (l : list A) :
  (∀ pre x rest acc st acc' st',
      l = pre ++ x :: rest → P pre acc st →
      body acc x st = inr (acc', st') → P (pre ++ [x]) acc' st') →
  ∀ acc st acc' st',
    P [] acc st → for_each body l acc st = inr (acc', st') → P l acc' st'.
Proof.
  intros Hstep.
  assert (Hgen : ∀ rest pre acc st acc' st',
             l = pre ++ rest → P pre acc st →
             for_each body rest acc st = inr (acc', st') → P l acc' st').
  { induction rest as [|x rest IH]; intros pre acc st acc' st' Hl HP H;
      simpl in H.
    - apply ret_inr in H as [-> ->]. by rewrite Hl, app_nil_r.
    - apply bind_inr in H as (a & s1 & H1 & H2).
      apply (IH (pre ++ [x]) a s1); [by rewrite <- app_assoc| |done].
      eapply Hstep; eauto. }
  intros acc st acc' st' HP H. by apply (Hgen l [] acc st).
Qed.





Lemma measured_stripped (to_strip : list string) (s : Symbol) :
  measured (EncodedSymbol.strip_articulations to_strip s).2 = measured s.
Proof. reflexivity. Qed.

Lemma class_of_stripped (to_strip : list string) (s : Symbol) :
  class_of (EncodedSymbol.strip_articulations to_strip s).2 = class_of s.
Proof. reflexivity. Qed.

Lemma zip_strip {A B C : Type} (f : A → B * C) (l : list A) :
  zip (map snd (map f l)) (map fst (map f l))
  = map (λ x, ((f x).2, (f x).1)) l.
Proof. induction l as [|x l IH]; simpl; by rewrite ?IH. Qed.



End Alignment.

Section AlignmentLaw.
Import ConversionState.


End AlignmentLaw.

Section Positions.
Import ConversionState.

Lemma children_add_all (new : list XMLElement) (parent : XMLElement) :
  mxl.get_children (add_all new parent) = mxl.get_children parent ++ new.
Proof.
  unfold add_all. revert parent.
  induction new as [|x new IH]; intros parent; simpl.
  - by rewrite app_nil_r.
  - rewrite IH. destruct parent as [c a v ch]. simpl.
    by rewrite <- app_assoc.
Qed.

(** A staff position holds symbols of the chord, and at least one. *)
Lemma into_positions_members (c p : Chord) :
  p ∈ SymbolChord.into_positions c →
  SymbolChord.symbols p ≠ []
  ∧ ∀ s, s ∈ SymbolChord.symbols p → s ∈ SymbolChord.symbols c.
Proof.
  unfold SymbolChord.into_positions, SymbolChord.split_positions.
  intros H. apply list_elem_of_fmap in H as (l & -> & H). simpl.
  apply list_elem_of_filter in H as [Hlen H]. split.
  { intros E. rewrite E in Hlen. simpl in Hlen. lia. }
  intros s Hs.
  assert (Hl : l = filter (λ a, SymbolChord.is_upper id a = true)
                          (SymbolChord.symbols c)
               ∨ l = filter (λ a, SymbolChord.is_upper id a = false)
                            (SymbolChord.symbols c)).
  { destruct (forallb _ _); set_solver. }
  destruct Hl as [-> | ->]; by apply list_elem_of_filter in Hs as [_ Hs].
Qed.


End Positions.

Section NoPosition.


End NoPosition.

Section PositionsLaw.
Import ConversionState.







End PositionsLaw.

(** ** The numbering allocator: further properties *)

Section AllocatorLaws.
Import ConversionState.

Lemma insort_smallest (x : Z) (l : list Z) :
  Forall (λ y, x < y) l → insort x l = x :: l.
Proof.
  destruct l as [|y l]; [done|]. intros H. apply Forall_inv in H. simpl.
  by destruct (Z.ltb_spec x y); [|lia].
Qed.

Lemma insort_elem (x : Z) (l : list Z) (y : Z) :
  y ∈ insort x l ↔ y = x ∨ y ∈ l.
Proof.
  induction l as [|z l IH]; simpl.
  - rewrite list_elem_of_singleton. set_solver.
  - destruct (x <? z); [set_solver|].
    rewrite !elem_of_cons, IH. tauto.
Qed.

Lemma insort_sorted (x : Z) (l : list Z) :
  x ∉ l → StronglySorted Z.lt l → StronglySorted Z.lt (insort x l).
Proof.
  intros Hx. induction 1 as [|z l Hl IH Hz]; simpl.
  - repeat constructor.
  - destruct (Z.ltb_spec x z).
    + constructor; [by constructor|]. constructor; [done|].
      eapply Forall_impl; [exact Hz|]. simpl. lia.
    + assert (x ≠ z) by (intros ->; apply Hx; left).
      constructor. { apply IH. intros Hin. apply Hx. by right. }
      apply Forall_forall. intros y Hy.
      apply insort_elem in Hy as [->|Hy]; [lia|].
      rewrite Forall_forall in Hz. by apply Hz.
Qed.

Lemma open_slurs_release (key : Z * Z) (number : Z) (s : State) :
  _open_slurs (_release_slur_number key number s) = _open_slurs s.
Proof. unfold _release_slur_number. by destruct (_ && _). Qed.

Lemma open_ties_release (key : Z * string * string) (number : Z)
    (s : State) :
  _open_ties (_release_tie_number key number s) = _open_ties s.
Proof. unfold _release_tie_number. by destruct (_ && _). Qed.

(** X1: the slurs of a key are closed in the reverse order of their
    opening.  A [stop_slur] that follows a [start_slur] on the same key
    returns the number that was just handed out, whatever the state of
    the pool (also when the pool is exhausted and the number is a
    fallback), and leaves every stack of open slurs as it was before the
    slur was started. *)
Theorem slur_stop_returns_last_started (staff voice : Z) (s : State) :
  let started := start_slur staff voice s in
  let stopped := stop_slur staff voice started.2 in
  stopped.1 = Some started.1
  ∧ ∀ key, default [] (_open_slurs stopped.2 !! key)
           = default [] (_open_slurs s !! key).
Proof.
  unfold start_slur, stop_slur.
  destruct (_available_slur_numbers s) as [|number rest]; simpl;
    rewrite lookup_insert_eq, last_snoc; simpl;
    (split; [done|]); intros key; rewrite open_slurs_release; simpl;
    rewrite removelast_last;
    (destruct (decide (key = (staff, voice))) as [->|Hne];
     [by rewrite lookup_insert_eq
     |by rewrite !lookup_insert_ne by done]).
Qed.

(** X2: the same for ties.  A [stop_tie] that follows a [start_tie] on
    the same (staff, pitch, accidental) key returns the number that was
    just handed out and leaves every stack of open ties as it was. *)
Theorem tie_stop_returns_last_started (staff : Z) (pitch lift : string)
    (s : State) :
  let started := start_tie staff pitch lift s in
  let stopped := stop_tie staff pitch lift started.2 in
  stopped.1 = Some started.1
  ∧ ∀ key, default [] (_open_ties stopped.2 !! key)
           = default [] (_open_ties s !! key).
Proof.
  unfold start_tie, stop_tie.
  destruct (default range_1_16 _) as [|number rest]; simpl;
    rewrite lookup_insert_eq, last_snoc; simpl;
    (split; [done|]); intros key; rewrite open_ties_release; simpl;
    rewrite removelast_last;
    (destruct (decide (key = (staff, pitch, lift))) as [->|Hne];
     [by rewrite lookup_insert_eq
     |by rewrite !lookup_insert_ne by done]).
Qed.

(** X3: a number up to 6 goes back to the pool.  When the head of the
    free list is a number between 1 and 6 that is smaller than every
    other free number, a slur that is started and stopped leaves the
    free list exactly as it was, and the next slur gets the same number
    again. *)
Theorem slur_number_is_reused (staff voice staff' voice' : Z) (s : State)
    (n : Z) (rest : list Z) :
  _available_slur_numbers s = n :: rest →
  1 ≤ n ≤ 6 →
  Forall (λ m, n < m) rest →
  let stopped := (stop_slur staff voice (start_slur staff voice s).2).2 in
  _available_slur_numbers stopped = n :: rest
  ∧ (start_slur staff' voice' stopped).1 = n.
Proof.
  intros Havail Hn Hrest stopped.
  assert (Hnot : n ∉ rest).
  { intros Hin. rewrite Forall_forall in Hrest. specialize (Hrest n Hin).
    lia. }
  assert (H : _available_slur_numbers stopped = n :: rest).
  { unfold stopped, start_slur, stop_slur. rewrite Havail.
    cbn [fst snd _open_slurs set_slurs].
    rewrite lookup_insert_eq, last_snoc.
    cbn [fst snd]. unfold _release_slur_number.
    cbn [_available_slur_numbers set_slurs].
    rewrite (bool_decide_eq_false_2 _ Hnot).
    destruct (Z.leb_spec 1 n); [|lia]. destruct (Z.leb_spec n 6); [|lia].
    cbn [andb negb _available_slur_numbers set_slurs].
    by apply insort_smallest. }
  split; [done|]. unfold start_slur. by rewrite H.
Qed.

Lemma slur_number_is_reused_witness :
  let s := init 16 4 1%Qc in
  let stopped := (stop_slur 1 1 (start_slur 1 1 s).2).2 in
  _available_slur_numbers stopped = 1 :: seqZ 2 14
  ∧ (start_slur 2 1 stopped).1 = 1.
Proof.
  apply (slur_number_is_reused 1 1 2 1 (init 16 4 1%Qc) 1 (seqZ 2 14)).
  - reflexivity.
  - lia.
  - vm_compute. repeat constructor.
Defined.

(** X4: the free list of slur numbers stays sorted.  When it is strictly
    increasing (hence without duplicates), it is still so after a slur
    is started and after a slur is stopped, on whatever key: the head of
    the list, which [start_slur] hands out, is always the least free
    number. *)
Theorem slur_pool_stays_sorted (staff voice : Z) (s : State) :
  StronglySorted Z.lt (_available_slur_numbers s) →
  StronglySorted Z.lt (_available_slur_numbers (start_slur staff voice s).2)
  ∧ StronglySorted Z.lt
      (_available_slur_numbers (stop_slur staff voice s).2).
Proof.
  intros Hsorted. split.
  - unfold start_slur.
    destruct (_available_slur_numbers s) as [|n rest] eqn:E; simpl.
    + constructor.
    + by apply StronglySorted_inv in Hsorted as [? _].
  - unfold stop_slur. destruct (_open_slurs s !! (staff, voice)); [|done].
    destruct (last l); [|done]. simpl. unfold _release_slur_number. simpl.
    destruct (bool_decide_reflect (z ∈ _available_slur_numbers s));
      rewrite ?andb_false_r; simpl; [done|].
    destruct (_ && _); simpl; [|done]. by apply insort_sorted.
Qed.

Lemma slur_pool_stays_sorted_witness :
  let s := init 16 4 1%Qc in
  StronglySorted Z.lt (_available_slur_numbers (start_slur 1 1 s).2)
  ∧ StronglySorted Z.lt (_available_slur_numbers (stop_slur 1 1 s).2).
Proof.
  apply (slur_pool_stays_sorted 1 1 (init 16 4 1%Qc)).
  vm_compute. repeat (constructor; [|repeat constructor]). constructor.
Defined.

Lemma start_slurs_from (keys : list (Z * Z)) (s : State) (a : Z)
    (m : nat) :
  _available_slur_numbers s = seqZ a (Z.of_nat m) →
  (length keys ≤ m)%nat →
  (start_slurs keys s).1 = seqZ a (Z.of_nat (length keys)).
Proof.
  revert s a m. induction keys as [|[staff voice] keys IH];
    intros s a m Havail Hlen; simpl in *; [done|].
  destruct m as [|m]; [lia|].
  rewrite Nat2Z.inj_succ, seqZ_cons in Havail by lia.
  destruct (start_slur staff voice s) as [number s1] eqn:E1.
  unfold start_slur in E1. rewrite Havail in E1.
  injection E1 as <- <-.
  destruct (start_slurs keys _) as [numbers s2] eqn:E2. simpl.
  rewrite Nat2Z.inj_succ, seqZ_cons by lia. f_equal.
  replace (Z.pred (Z.succ (Z.of_nat (length keys))))
    with (Z.of_nat (length keys)) by lia.
  erewrite <- (IH _ (Z.succ a) m); [by rewrite E2| |lia].
  simpl. f_equal. lia.
Qed.

(** X5: on a fresh state the slurs are numbered in the order of their
    start.  Whatever their keys, the first fifteen slurs that are
    started without any stop in between get the numbers 1, 2, 3 and so
    on, one after the other. *)
Theorem fresh_slurs_are_numbered_in_order (keys : list (Z * Z))
    (duration_of_quarter division : Z) (nominator : Fraction) :
  (length keys ≤ 15)%nat →
  (start_slurs keys (init duration_of_quarter division nominator)).1
  = seqZ 1 (Z.of_nat (length keys)).
Proof. intros Hlen. by apply (start_slurs_from keys _ 1 15%nat). Qed.

Lemma fresh_slurs_are_numbered_in_order_witness :
  (start_slurs [(1, 1); (2, 1); (1, 2)] (init 16 4 1%Qc)).1 = [1; 2; 3].
Proof.
  apply (fresh_slurs_are_numbered_in_order [(1, 1); (2, 1); (1, 2)] 16 4
           1%Qc).
  simpl. lia.
Defined.

(** X6: the ties of one key do not touch the numbers of another.  After
    a tie is started or stopped on a (staff, pitch, accidental) key, the
    free numbers and the open ties of every other key are what they
    were, so that the next tie on another key gets the same number as it
    would have got before. *)
Theorem tie_pools_are_independent (staff staff' : Z)
    (pitch lift pitch' lift' : string) (s : State) :
  (staff, pitch, lift) ≠ (staff', pitch', lift') →
  let key' := (staff', pitch', lift') in
  let started := (start_tie staff pitch lift s).2 in
  let stopped := (stop_tie staff pitch lift s).2 in
  _available_tie_numbers started !! key' = _available_tie_numbers s !! key'
  ∧ _open_ties started !! key' = _open_ties s !! key'
  ∧ _available_tie_numbers stopped !! key' = _available_tie_numbers s !! key'
  ∧ _open_ties stopped !! key' = _open_ties s !! key'
  ∧ (start_tie staff' pitch' lift' started).1
    = (start_tie staff' pitch' lift' s).1
  ∧ (start_tie staff' pitch' lift' stopped).1
    = (start_tie staff' pitch' lift' s).1.
Proof.
  intros Hne key' started stopped.
  assert (H1 : _available_tie_numbers started !! key'
               = _available_tie_numbers s !! key'
               ∧ _open_ties started !! key' = _open_ties s !! key').
  { unfold started, start_tie.
    destruct (default range_1_16 _); simpl;
      by rewrite !lookup_insert_ne by done. }
  assert (H2 : _available_tie_numbers stopped !! key'
               = _available_tie_numbers s !! key'
               ∧ _open_ties stopped !! key' = _open_ties s !! key').
  { unfold stopped, stop_tie.
    destruct (_open_ties s !! (staff, pitch, lift)); [|done].
    destruct (last l); [|done]. simpl. unfold _release_tie_number. simpl.
    destruct (_ && _); simpl; by rewrite !lookup_insert_ne by done. }
  destruct H1 as [H1a H1b], H2 as [H2a H2b].
  split; [exact H1a|]. split; [exact H1b|].
  split; [exact H2a|]. split; [exact H2b|].
  unfold start_tie. fold key'. rewrite H1a, H1b, H2a, H2b.
  by destruct (default range_1_16 _).
Qed.

Lemma tie_pools_are_independent_witness :
  let s := init 16 4 1%Qc in
  (start_tie 1 "D5" "_" (start_tie 1 "C5" "_" s).2).1
  = (start_tie 1 "D5" "_" s).1.
Proof.
  intros s.
  apply (tie_pools_are_independent 1 1 "C5" "_" "D5" "_" s). discriminate.
Defined.

(** X7: the numbering of volta brackets.  A volta that starts in the
    measure right after the one in which the last volta stopped
    continues the count; a volta that starts in any other measure is
    number 1 again.  The stop itself reports the number of the volta it
    closes. *)
Theorem volta_numbering (stop_measure start_measure : Z) (s : State) :
  let stopped := stop_volta stop_measure s in
  let started := start_volta start_measure stopped.2 in
  stopped.1 = volta_number s
  ∧ started.1 = (if decide (start_measure = stop_measure + 1)
                 then volta_number s + 1 else 1)
  ∧ volta_number started.2 = started.1.
Proof.
  unfold stop_volta, start_volta. simpl. split; [done|]. split; [|done].
  destruct (decide _) as [->|Hne].
  - by rewrite Z.eqb_refl.
  - by destruct (Z.eqb_spec start_measure (stop_measure + 1)).
Qed.

(** X8: the tremolo marks alternate.  Two calls of
    [toggle_tremolo_state] in a row never return the same mark: the
    first of them returns [start] unless the state was [start], and the
    second returns the other one of [start] and [stop]; on a fresh state
    the first mark is [start]. *)
Theorem tremolo_marks_alternate (s : State) :
  let first := toggle_tremolo_state s in
  let second := toggle_tremolo_state first.2 in
  (first.1 = "start" ∧ second.1 = "stop"
   ∨ first.1 = "stop" ∧ second.1 = "start")
  ∧ (first.1 = "stop" ↔ tremolo_state s = "start")
  ∧ ∀ duration_of_quarter division nominator,
      (toggle_tremolo_state
         (init duration_of_quarter division nominator)).1 = "start".
Proof.
  unfold toggle_tremolo_state. simpl.
  destruct (String.eqb_spec (tremolo_state s) "start") as [E|E]; simpl.
  - split; [by right|]. split; [|done]. by split.
  - split; [by left|]. split; [|done]. split; [discriminate|done].
Qed.

End AllocatorLaws.

(** ** Chords: further properties *)

Section ChordLaws.

Lemma concat_nonempty {A : Type} (chords : list (list A)) :
  concat (filter (λ ch, (0 < length ch)%nat) chords) = concat chords.
Proof.
  induction chords as [|ch chords IH]; [done|].
  rewrite filter_cons. destruct (decide _) as [H|H]; simpl.
  - by rewrite IH.
  - rewrite IH. destruct ch; [done|]. simpl in H. lia.
Qed.

Lemma split_upper_lower (l : list Symbol) :
  filter (λ a, SymbolChord.is_upper id a = true) l
  ++ filter (λ a, SymbolChord.is_upper id a = false) l ≡ₚ l.
Proof.
  induction l as [|s l IH]; [done|].
  rewrite !filter_cons.
  destruct (SymbolChord.is_upper id s) eqn:E.
  - rewrite decide_True, decide_False by done. simpl. by rewrite IH.
  - rewrite decide_False, decide_True by done.
    rewrite <- Permutation_middle. by rewrite IH.
Qed.

(** X9: the staff positions of a chord split its symbols.  Every symbol
    of the chord is in exactly one position (the positions, one after
    the other, are a rearrangement of the symbols of the chord); there
    are at most two positions, none of them is empty, each keeps the
    tuplet mark of the chord, and each holds symbols of one staff only:
    all of the upper staff, or none of it. *)
Theorem into_positions_split (c : Chord) :
  let positions := SymbolChord.into_positions c in
  concat (map SymbolChord.symbols positions) ≡ₚ SymbolChord.symbols c
  ∧ (length positions ≤ 2)%nat
  ∧ Forall (λ p, SymbolChord.symbols p ≠ []
                 ∧ SymbolChord.tuplet_mark p = SymbolChord.tuplet_mark c
                 ∧ (Forall (λ s, EncodedSymbol.position s = "upper")
                           (SymbolChord.symbols p)
                    ∨ Forall (λ s, EncodedSymbol.position s ≠ "upper")
                             (SymbolChord.symbols p)))
           positions.
Proof.
  unfold SymbolChord.into_positions, SymbolChord.split_positions.
  set (upper := filter (λ a, SymbolChord.is_upper id a = true) _).
  set (lower := filter (λ a, SymbolChord.is_upper id a = false) _).
  set (chords := if forallb _ lower then [lower; upper] else [upper; lower]).
  assert (Hchords : chords = [lower; upper] ∨ chords = [upper; lower])
    by (unfold chords; destruct (forallb _ lower); auto).
  split; [|split].
  - assert (Hmap : ∀ L : list (list Symbol),
               map SymbolChord.symbols
                   (map (λ l, {| SymbolChord.symbols := l;
                                 SymbolChord.tuplet_mark :=
                                   SymbolChord.tuplet_mark c |}) L) = L)
      by (induction L as [|? ? IHL]; simpl; [done|by rewrite IHL]).
    rewrite Hmap, concat_nonempty.
    etransitivity; [|apply (split_upper_lower (SymbolChord.symbols c))].
    fold upper lower.
    destruct Hchords as [-> | ->]; simpl; rewrite app_nil_r;
      [|reflexivity].
    apply Permutation_app_comm.
  - rewrite length_fmap.
    etransitivity; [apply length_filter|].
    by destruct Hchords as [-> | ->].
  - apply Forall_fmap, Forall_forall. intros ch Hch. simpl.
    apply list_elem_of_filter in Hch as [Hlen Hch].
    split. { intros E. rewrite E in Hlen. simpl in Hlen. lia. }
    split; [done|].
    assert (Hul : ch = upper ∨ ch = lower)
      by (destruct Hchords as [E | E]; rewrite E in Hch; set_solver).
    destruct Hul as [-> | ->]; [left|right];
      apply Forall_forall; intros s Hs;
      apply list_elem_of_filter in Hs as [Hs _];
      unfold SymbolChord.is_upper in Hs; simpl in Hs.
    + by apply String.eqb_eq in Hs.
    + by apply String.eqb_neq in Hs.
Qed.

Lemma foldl_frac_min (x : Fraction) (r : list Fraction) :
  let m := foldl frac_min x r in
  m ∈ x :: r ∧ ∀ y, y ∈ x :: r → (m ≤ y)%Qc.
Proof.
  revert x. induction r as [|z r IH]; intros x; simpl.
  - split; [left|]. intros y Hy. apply list_elem_of_singleton in Hy as ->.
    apply Qcle_refl.
  - destruct (IH (frac_min x z)) as [Hin Hle]. split.
    + apply elem_of_cons in Hin as [Hin|Hin]; [|by do 2 right].
      rewrite Hin. unfold frac_min.
      destruct (frac_ltb z x); [right; left|left].
    + intros y Hy.
      assert (Hxz : (frac_min x z ≤ x)%Qc ∧ (frac_min x z ≤ z)%Qc).
      { unfold frac_min. destruct (frac_ltb z x) eqn:E.
        - apply frac_ltb_lt in E. split; [by apply Qclt_le_weak|].
          apply Qcle_refl.
        - apply frac_ltb_ge in E. split; [apply Qcle_refl|done]. }
      destruct Hxz as [Hx Hz].
      assert (Hm : (foldl frac_min (frac_min x z) r ≤ frac_min x z)%Qc)
        by (apply Hle; left).
      apply elem_of_cons in Hy as [->|Hy].
      { by eapply Qcle_trans. }
      apply elem_of_cons in Hy as [->|Hy].
      { by eapply Qcle_trans. }
      apply Hle. by right.
Qed.

Lemma get_duration_le (c : Chord) (s : Symbol) :
  s ∈ SymbolChord.symbols c → EncodedSymbol.is_note_or_rest s = true →
  (SymbolChord.get_duration c
   ≤ fraction (EncodedSymbol.get_duration s))%Qc.
Proof.
  intros Hs Hnr. unfold SymbolChord.get_duration.
  assert (Hin : s ∈ filter (λ s, EncodedSymbol.is_note_or_rest s = true)
                           (SymbolChord.symbols c))
    by by apply list_elem_of_filter.
  destruct (filter _ (SymbolChord.symbols c)) as [|s0 l].
  { by apply elem_of_nil in Hin. }
  simpl.
  destruct (foldl_frac_min
              (fraction (EncodedSymbol.get_duration s0))
              (map (λ s, fraction (EncodedSymbol.get_duration s)) l))
    as [_ Hle].
  apply Hle.
  change (fraction (EncodedSymbol.get_duration s0)
          :: map (λ s, fraction (EncodedSymbol.get_duration s)) l)
    with (map (λ s, fraction (EncodedSymbol.get_duration s)) (s0 :: l)).
  apply list_elem_of_fmap. by exists s.
Qed.

(** X10: the duration of a chord is the shortest duration among its
    notes and rests: it is the duration of one of them and none of them
    is shorter.  A chord without note and rest has the duration zero. *)
Theorem chord_duration_is_minimum (c : Chord) :
  let notes_rests :=
    filter (λ s, EncodedSymbol.is_note_or_rest s = true)
           (SymbolChord.symbols c) in
  match notes_rests with
  | [] => SymbolChord.get_duration c = 0%Qc
  | _ :: _ =>
      (∃ s, s ∈ notes_rests
            ∧ SymbolChord.get_duration c
              = fraction (EncodedSymbol.get_duration s))
      ∧ ∀ s, s ∈ notes_rests →
             (SymbolChord.get_duration c
              ≤ fraction (EncodedSymbol.get_duration s))%Qc
  end.
Proof.
  unfold SymbolChord.get_duration.
  destruct (filter _ (SymbolChord.symbols c)) as [|s0 l]; [done|].
  simpl.
  destruct (foldl_frac_min
              (fraction (EncodedSymbol.get_duration s0))
              (map (λ s, fraction (EncodedSymbol.get_duration s)) l))
    as [Hin Hle].
  split.
  - change (fraction (EncodedSymbol.get_duration s0)
            :: map (λ s, fraction (EncodedSymbol.get_duration s)) l)
      with (map (λ s, fraction (EncodedSymbol.get_duration s)) (s0 :: l))
      in Hin.
    apply list_elem_of_fmap in Hin as (s & Hs & Hin). by exists s.
  - intros s Hs. apply Hle.
    change (fraction (EncodedSymbol.get_duration s0)
            :: map (λ s, fraction (EncodedSymbol.get_duration s)) l)
      with (map (λ s, fraction (EncodedSymbol.get_duration s)) (s0 :: l)).
    apply list_elem_of_fmap. by exists s.
Qed.

(** X11: the staff position that is emitted last can carry the duration
    of the chord.  When every symbol of a chord is a note or a rest and
    none is a grace note, the last staff position holds a symbol whose
    duration class is not shorter than the duration of the chord, which
    is what the final rewind of [build_note_chord] relies on. *)
Theorem last_position_is_long_enough (c p : Chord) :
  Forall (λ s, EncodedSymbol.is_note_or_rest s = true
               ∧ EncodedSymbol.is_grace s = false)
         (SymbolChord.symbols c) →
  last (SymbolChord.into_positions c) = Some p →
  Exists (λ s, (SymbolChord.get_duration c ≤ class_of s)%Qc)
         (SymbolChord.symbols p).
Proof.
  intros Hall Hlast. apply last_Some_elem_of in Hlast.
  apply into_positions_members in Hlast as [Hne Hsub].
  destruct (SymbolChord.symbols p) as [|s l] eqn:E; [done|].
  apply Exists_cons_hd.
  assert (Hs : s ∈ SymbolChord.symbols c) by (apply Hsub; left).
  rewrite Forall_forall in Hall. destruct (Hall s Hs) as [Hnr Hg].
  unfold class_of. rewrite Hg. by apply get_duration_le.
Qed.

Lemma last_position_is_long_enough_witness :
  Exists (λ s, (SymbolChord.get_duration Scenario.two_staves
                ≤ class_of s)%Qc)
         [Scenario.eighth "C3" "lower"].
Proof.
  apply (last_position_is_long_enough Scenario.two_staves
           (SymbolChord.make [Scenario.eighth "C3" "lower"])).
  - repeat constructor.
  - reflexivity.
Defined.

End ChordLaws.

(** ** The tuplet annotator and the beaming pass: further properties *)

Section AnnotatorLaws.

Lemma tuplet_loop_symbols (gs : list Chord) :
  ∀ h, map SymbolChord.symbols (tuplet_loop h gs)
       = map SymbolChord.symbols gs.
Proof.
  induction gs as [|g gs IH]; intros h; [done|].
  rewrite tuplet_loop_cons. simpl. rewrite IH. f_equal.
  by destruct (negb _).
Qed.

(** X12: the tuplet annotator changes tuplet marks only.  The annotated
    list has the chords of the given list, in the same order and with
    the same symbols; it is as long as the given list. *)
Theorem add_tuplet_keeps_symbols (groups : list Chord) :
  map SymbolChord.symbols (add_tuplet_start_stop groups)
  = map SymbolChord.symbols groups
  ∧ length (add_tuplet_start_stop groups) = length groups.
Proof.
  unfold add_tuplet_start_stop. split; [apply tuplet_loop_symbols|].
  apply tuplet_loop_length.
Qed.

Lemma tuplet_loop_brackets (gs : list Chord) :
  Forall (λ g, SymbolChord.tuplet_mark g = "") gs →
  ∀ h, ∃ n,
    filter (λ m, m ≠ "") (map SymbolChord.tuplet_mark (tuplet_loop h gs))
    = brackets h n.
Proof.
  induction 1 as [|g gs Hg Hgs IH]; intros h; [by exists 0%nat|].
  rewrite tuplet_loop_cons. cbn [map].
  destruct (IH (tuplet_chord g)) as [n Hn].
  destruct (Bool.eqb (tuplet_chord g) h) eqn:E; cbn [negb].
  - apply Bool.eqb_prop in E. rewrite E in Hn |- *.
    exists n. rewrite filter_cons_False; [done|].
    rewrite Hg. by intros H.
  - assert (tuplet_chord g = negb h) as Eh
      by (destruct (tuplet_chord g), h; done).
    rewrite Eh in Hn |- *. exists (S n).
    rewrite filter_cons_True; [|by destruct h].
    simpl. by rewrite Hn.
Qed.

(** X13: the tuplet brackets of a part are balanced.  Read in the order
    of the chords, the marks that the annotator leaves on the chords of
    a part are [start], [stop], [start], [stop] and so on: a bracket is
    never opened twice in a row, and no [stop] comes before the first
    [start]. *)
Theorem tuplet_marks_alternate
    (sort_token_chords : list Symbol → list (list Symbol))
    (voice : list Symbol) :
  ∃ n,
    filter (λ m, m ≠ "")
           (map SymbolChord.tuplet_mark
                (add_tuplet_start_stop
                   (group_into_chords sort_token_chords voice)))
    = brackets false n.
Proof.
  apply tuplet_loop_brackets. unfold group_into_chords.
  apply Forall_fmap, Forall_forall. by intros l _.
Qed.

End AnnotatorLaws.

Section BeamingLaws.

(** X14: the beaming pass changes beam markers only.  With the markers
    erased, the part after [apply_beaming] is the part before it: the
    same chords with the same symbols in the same order, and the same
    tuplet marks. *)
Theorem apply_beaming_keeps_notes (groups : list Chord) :
  clear_beams (apply_beaming groups) = clear_beams groups
  ∧ length (apply_beaming groups) = length groups
  ∧ map SymbolChord.tuplet_mark (apply_beaming groups)
    = map SymbolChord.tuplet_mark groups.
Proof.
  assert (H : clear_beams (apply_beaming groups) = clear_beams groups).
  { rewrite apply_beaming_passes, !beam_pass_shape.
    apply clear_beams_idem. }
  split; [done|]. split.
  - apply (f_equal length) in H. unfold clear_beams in H.
    by rewrite !length_fmap in H.
  - apply (f_equal (map SymbolChord.tuplet_mark)) in H.
    unfold clear_beams in H. rewrite <- !list_fmap_compose in H.
    exact H.
Qed.

(** X15: markers left by an earlier run do not matter.  Two parts that
    differ in beam markers only are beamed alike; in particular a second
    [apply_beaming] changes nothing. *)
Theorem apply_beaming_ignores_old_markers (groups groups' : list Chord) :
  (clear_beams groups = clear_beams groups' →
   apply_beaming groups = apply_beaming groups')
  ∧ apply_beaming (apply_beaming groups) = apply_beaming groups.
Proof.
  assert (H : ∀ g g', clear_beams g = clear_beams g' →
                      apply_beaming g = apply_beaming g').
  { intros g g' E. by rewrite !apply_beaming_passes, E. }
  split; [apply H|]. apply H.
  rewrite apply_beaming_passes, !beam_pass_shape. apply clear_beams_idem.
Qed.

Lemma beam_scan_beamable (sc : list (nat * Symbol)) :
  ∀ hnr hr si hnr' hr',
    beam_scan sc hnr hr = (Some si, hnr', hr') →
    ∃ s, (si, s) ∈ sc ∧ _is_beamable_note s = true.
Proof.
  induction sc as [|[i s] sc IH]; intros hnr hr si hnr' hr' H; simpl in H;
    [done|].
  destruct (_is_beamable_note s) eqn:E.
  - injection H as <- _ _. exists s. split; [left|done].
  - apply IH in H as (s' & Hs' & Hb). exists s'. split; [by right|done].
Qed.

Lemma carry_beamable (sp : string) (g : Chord) (si : nat) :
  beam_action_of sp g = Carry si →
  ∃ s, SymbolChord.symbols g !! si = Some s ∧ _is_beamable_note s = true.
Proof.
  unfold beam_action_of.
  destruct (SymbolChord.is_barline g); [done|].
  destruct (staff_chord_of sp g) as [sc|] eqn:Hsc; [|done].
  destruct (beam_scan sc false false) as [[found hnr] hr] eqn:Hscan.
  destruct hr; [by destruct hnr|].
  destruct found as [si'|]; [|by destruct hnr].
  intros [= ->]. apply beam_scan_beamable in Hscan as (s & Hs & Hb).
  exists s. split; [|done]. by eapply staff_chord_members.
Qed.

(** A pass leaves the symbols alone that are no beamable notes. *)
Lemma beam_pass_unbeamable (sp : string) (gs : list Chord) (l0 : loc) :
  (∀ s, symbol_at gs l0 = Some s → _is_beamable_note s = false) →
  beam_at (beam_pass sp gs) l0 = beam_at gs l0.
Proof.
  intros Hl0. unfold beam_pass.
  destruct (beam_fold_frame sp
              (λ l, ∃ s, symbol_at gs l = Some s
                         ∧ _is_beamable_note s = true)
              l0 (indexed_groups gs))
    with (st := {| pending := None; run_length := 0; marked := gs |})
    as [Hbeam Hpend].
  - intros (s & Hs & Hb). rewrite (Hl0 s Hs) in Hb. done.
  - intros gi g si Hin Hact. unfold indexed_groups in Hin.
    apply elem_of_lookup_imap in Hin as (i & x & [= -> ->] & Hx).
    apply carry_beamable in Hact as (s & Hs & Hb).
    exists s. split; [|done]. unfold symbol_at. simpl. by rewrite Hx.
  - done.
  - rewrite finalize_frame; [done|].
    intros Heq. apply Hpend in Heq as (s & Hs & Hb).
    rewrite (Hl0 s Hs) in Hb. done.
Qed.

Lemma symbol_at_erased (m m' : list Chord) (l : loc) (s' : Symbol) :
  clear_beams m' = clear_beams m → symbol_at m' l = Some s' →
  ∃ s, symbol_at m l = Some s
       ∧ EncodedSymbol.with_beam None s' = EncodedSymbol.with_beam None s.
Proof.
  intros E Hs'.
  assert (H : symbol_at (clear_beams m') l
              = Some (EncodedSymbol.with_beam None s'))
    by by rewrite symbol_at_clear, Hs'.
  rewrite E, symbol_at_clear in H.
  destruct (symbol_at m l) as [s|]; [|done].
  exists s. split; [done|]. by apply (inj Some) in H.
Qed.

Lemma beamable_erased (s s' : Symbol) :
  EncodedSymbol.with_beam None s' = EncodedSymbol.with_beam None s →
  _is_beamable_note s' = _is_beamable_note s.
Proof.
  intros E.
  change (_is_beamable_note (EncodedSymbol.with_beam None s')
          = _is_beamable_note (EncodedSymbol.with_beam None s)).
  by rewrite E.
Qed.

(** X16: only beamable notes are beamed.  After [apply_beaming], a
    symbol that is no beamable note (a rest, a grace note, a note of a
    quarter or longer, a clef, a barline) carries no beam marker,
    whatever marker it carried before. *)
Theorem unbeamable_symbols_carry_no_marker (groups : list Chord)
    (l : loc) (s : Symbol) :
  symbol_at groups l = Some s →
  _is_beamable_note s = false →
  beam_at (apply_beaming groups) l = None.
Proof.
  intros Hs Hb. rewrite apply_beaming_passes.
  rewrite beam_pass_unbeamable.
  - rewrite beam_pass_unbeamable; [apply beam_at_cleared|].
    intros s' Hs'.
    destruct (symbol_at_erased groups (clear_beams groups) l s')
      as (s0 & Hs0 & E); [apply clear_beams_idem|done|].
    rewrite (beamable_erased _ _ E). congruence.
  - intros s' Hs'.
    destruct (symbol_at_erased groups
                (beam_pass "upper" (clear_beams groups)) l s')
      as (s0 & Hs0 & E); [|done|].
    { rewrite beam_pass_shape. apply clear_beams_idem. }
    rewrite (beamable_erased _ _ E). congruence.
Qed.

Lemma unbeamable_symbols_carry_no_marker_witness :
  beam_at (apply_beaming Scenario.four_eighths) (0, 0)%nat = None.
Proof.
  apply (unbeamable_symbols_carry_no_marker Scenario.four_eighths
           (0, 0)%nat (Scenario.quarter "B4" "upper" "_")).
  - reflexivity.
  - reflexivity.
Defined.

End BeamingLaws.

(** ** The note emitter: further properties *)

Section EmitterLaws.

Lemma for_each_ok {A B : Type} (body : B → A → M B) (l : list A) :
  (∀ x, x ∈ l → ∀ acc st, ∃ acc' st', body acc x st = inr (acc', st')) →
  ∀ acc st, ∃ acc' st', for_each body l acc st = inr (acc', st').
Proof.
  induction l as [|x l IH]; intros Hbody acc st; simpl.
  - by exists acc, st.
  - destruct (Hbody x (list_elem_of_here _ _) acc st) as (acc1 & s1 & H1).
    unfold mbind, M_bind. rewrite H1. apply IH.
    intros y Hy. apply Hbody. by right.
Qed.

Lemma for_each_raise {A B : Type} (body : B → A → M B)
    (pre : list A) (x : A) (post : list A) (e : exn) :
  (∀ y, y ∈ pre → ∀ acc st, ∃ acc' st', body acc y st = inr (acc', st')) →
  (∀ acc st, body acc x st = inl e) →
  ∀ acc st, for_each body (pre ++ x :: post) acc st = inl e.
Proof.
  induction pre as [|y pre IH]; intros Hpre Hx acc st; simpl.
  - unfold mbind, M_bind. by rewrite Hx.
  - destruct (Hpre y (list_elem_of_here _ _) acc st) as (acc1 & s1 & H1).
    unfold mbind, M_bind. rewrite H1. apply IH; [|done].
    intros z Hz. apply Hpre. by right.
Qed.

Lemma articulation_step_supported (note : XMLElement)
    (staff voice : option Z) (acc : art_acc) (a : string) (st : State) :
  a ∈ supported_articulations →
  ∃ acc' st', articulation_step note staff voice acc a st = inr (acc', st').
Proof.
  intros H. unfold supported_articulations in H.
  repeat (apply elem_of_cons in H as [->|H]);
    [..|by apply elem_of_nil in H];
    unfold articulation_step; eval_string_tests;
    try (by eexists _, _);
    unfold mbind, M_bind, with_state;
    repeat match goal with
           | |- context [match ?x with _ => _ end] =>
               match type of x with
               | option _ => destruct x
               | prod _ _ => destruct x
               end
           end;
    by eexists _, _.
Qed.

Lemma articulation_step_unsupported (note : XMLElement)
    (staff voice : option Z) (acc : art_acc) (a : string) (st : State) :
  a ∉ supported_articulations →
  articulation_step note staff voice acc a st
  = inl (ValueError ("Unsupported articulation " +:+ a)).
Proof.
  intros H. unfold articulation_step.
  repeat match goal with
         | |- context [String.eqb a ?x] =>
             destruct (String.eqb_spec a x) as [E|_];
             [exfalso; apply H; rewrite E; unfold supported_articulations;
              rewrite list_elem_of_In; simpl; tauto|]
         end.
  done.
Qed.

(** X17: an articulation tag that [build_articulations] does not know
    is fatal, and nothing else is.  When every tag of the articulation
    field is one of the known tags, [build_articulations] returns a
    note, whatever the state; the first tag that is not known raises
    [ValueError] with the tag in its message, and no note is
    returned. *)
Theorem unsupported_articulation_is_fatal (note : XMLElement)
    (articualations tuplet_mark : string) (staff voice : option Z)
    (st : State) :
  let tags := PyStr.split "_" articualations in
  (Forall (λ a, a ∈ supported_articulations) tags →
   ∃ xml st',
     build_articulations note articualations tuplet_mark staff voice st
     = inr (xml, st'))
  ∧ (∀ pre tag post,
       tags = pre ++ tag :: post →
       Forall (λ a, a ∈ supported_articulations) pre →
       tag ∉ supported_articulations →
       build_articulations note articualations tuplet_mark staff voice st
       = inl (ValueError ("Unsupported articulation " +:+ tag))).
Proof.
  intros tags. unfold build_articulations. fold tags. split.
  - intros Hall.
    destruct (for_each_ok (articulation_step note staff voice) tags)
      with (acc := {| notation := []; xml_articulations := [];
                      xml_ornaments := [] |}) (st := st)
      as (acc' & st' & H).
    { intros x Hx acc s. apply articulation_step_supported.
      rewrite Forall_forall in Hall. by apply Hall. }
    unfold mbind, M_bind. rewrite H. by eexists _, _.
  - intros pre tag post -> Hpre Htag.
    unfold mbind, M_bind.
    rewrite (for_each_raise (articulation_step note staff voice) pre tag
               post (ValueError ("Unsupported articulation " +:+ tag)));
      [done| |].
    + intros y Hy acc s. apply articulation_step_supported.
      rewrite Forall_forall in Hpre. by apply Hpre.
    + intros acc s. by apply articulation_step_unsupported.
Qed.

Lemma foldl_frac_max (x : Fraction) (r : list Fraction) :
  let m := foldl frac_max x r in
  m ∈ x :: r ∧ ∀ y, y ∈ x :: r → (y ≤ m)%Qc.
Proof.
  revert x. induction r as [|z r IH]; intros x; simpl.
  - split; [left|]. intros y Hy. apply list_elem_of_singleton in Hy as ->.
    apply Qcle_refl.
  - destruct (IH (frac_max x z)) as [Hin Hle]. split.
    + apply elem_of_cons in Hin as [Hin|Hin]; [|by do 2 right].
      rewrite Hin. unfold frac_max.
      destruct (frac_ltb x z); [right; left|left].
    + intros y Hy.
      assert (Hxz : (x ≤ frac_max x z)%Qc ∧ (z ≤ frac_max x z)%Qc).
      { unfold frac_max. destruct (frac_ltb x z) eqn:E.
        - apply frac_ltb_lt in E. split; [by apply Qclt_le_weak|].
          apply Qcle_refl.
        - apply frac_ltb_ge in E. split; [apply Qcle_refl|done]. }
      destruct Hxz as [Hx Hz].
      assert (Hm : (frac_max x z ≤ foldl frac_max (frac_max x z) r)%Qc)
        by (apply Hle; left).
      apply elem_of_cons in Hy as [->|Hy].
      { by eapply Qcle_trans. }
      apply elem_of_cons in Hy as [->|Hy].
      { by eapply Qcle_trans. }
      apply Hle. by right.
Qed.

Lemma dict_append_keys {A : Type} (k : Fraction) (v : A)
    (d : list (Fraction * list A)) :
  map fst (dict_append k v d)
  = if decide (k ∈ map fst d) then map fst d else map fst d ++ [k].
Proof.
  induction d as [|[k' vs] d IH].
  - cbn [dict_append map]. destruct (decide (k ∈ [])) as [Hin|_]; [|done].
    by apply elem_of_nil in Hin.
  - cbn [dict_append map fst]. destruct (frac_eqb k k') eqn:E.
    + apply frac_eqb_eq in E as ->. cbn [map fst].
      destruct (decide (k' ∈ k' :: map fst d)) as [_|Hin]; [done|].
      exfalso. apply Hin. left.
    + assert (k ≠ k')
        by (intros ->; by rewrite (proj2 (frac_eqb_eq k' k')) in E).
      cbn [map fst]. rewrite IH.
      destruct (decide (k ∈ map fst d)) as [Hin|Hin];
        destruct (decide (k ∈ k' :: map fst d)) as [Hin'|Hin']; try done.
      * exfalso. apply Hin'. by right.
      * exfalso. apply elem_of_cons in Hin' as [?|?]; done.
Qed.

Lemma group_keys_nodup {A : Type} (f : A → Fraction) (notes : list A) :
  NoDup (map fst (foldl (λ g n, dict_append (f n) n g) [] notes)).
Proof.
  induction notes as [|n notes IH] using rev_ind; [constructor|].
  rewrite foldl_snoc, dict_append_keys.
  destruct (decide _) as [Hin|Hin]; [done|].
  apply NoDup_app. split; [done|]. split.
  - intros k Hk Hk'. apply list_elem_of_singleton in Hk' as ->. done.
  - apply NoDup_singleton.
Qed.

(** X18: the duration classes of [_group_notes].  On an empty list the
    function raises (the maximum of nothing).  Otherwise the keys of the
    returned dictionary are pairwise different, a key is present exactly
    when some note has it as its class (zero for a grace note, the
    longest duration of the chord for a whole-measure rest, its own
    duration otherwise), and the class of a key holds exactly the notes
    of that class, in their order in the chord: every note is in one
    class and in one only. *)
Theorem group_notes_classes {A : Type} (sym : A → Symbol)
    (notes : list A) :
  match _group_notes sym notes with
  | inl e => notes = [] ∧ e = ValueError "max() arg is an empty sequence"
  | inr groups =>
      ∃ max_duration,
        (∃ n, n ∈ notes
              ∧ max_duration = fraction (EncodedSymbol.get_duration (sym n)))
        ∧ (∀ n, n ∈ notes →
                (fraction (EncodedSymbol.get_duration (sym n))
                 ≤ max_duration)%Qc)
        ∧ NoDup (map fst groups)
        ∧ ∀ k,
            (k ∈ map fst groups
             ↔ ∃ n, n ∈ notes ∧ k = group_key sym max_duration n)
            ∧ dict_get k groups
              = filter (λ n, k = group_key sym max_duration n) notes
  end.
Proof.
  unfold _group_notes.
  destruct notes as [|n0 notes]; [done|].
  cbn [map].
  set (x := fraction (EncodedSymbol.get_duration (sym n0))).
  set (r := map _ notes).
  destruct (foldl_frac_max x r) as [Hin Hmax].
  exists (foldl frac_max x r). split; [|split; [|split]].
  - change (x :: r)
      with (map (λ n, fraction (EncodedSymbol.get_duration (sym n)))
                (n0 :: notes)) in Hin.
    apply list_elem_of_fmap in Hin as (n & Hn & Hin). by exists n.
  - intros n Hn. apply Hmax.
    change (x :: r)
      with (map (λ n, fraction (EncodedSymbol.get_duration (sym n)))
                (n0 :: notes)).
    apply list_elem_of_fmap. by exists n.
  - apply group_keys_nodup.
  - intros k. split; [apply group_keys|apply group_get].
Qed.

(** X19: a malformed pitch is fatal, and the step is checked before the
    octave is read.  For a symbol whose pitch is neither the empty mark
    nor the no-note mark, [build_note_or_rest] returns no note and
    raises: [IndexError] when the pitch has no character; the error of
    the step element when the first character is none of the letters A
    to G, whatever follows it; [IndexError] when the pitch is one of
    these letters alone; the error of [int] on the second character
    when the first is one of these letters and the second is no
    digit. *)
Theorem malformed_pitch_is_fatal (model_note : Symbol) (voice : Z)
    (is_chord : bool) (tuplet_mark : string) (st : State) :
  EncodedSymbol.pitch model_note ≠ empty →
  EncodedSymbol.pitch model_note ≠ nonote →
  (EncodedSymbol.pitch model_note = "" →
   build_note_or_rest model_note voice is_chord tuplet_mark st
   = inl IndexError)
  ∧ (∀ step,
       char_at (EncodedSymbol.pitch model_note) 0 = Some step →
       step ∉ ["A"; "B"; "C"; "D"; "E"; "F"; "G"] →
       build_note_or_rest model_note voice is_chord tuplet_mark st
       = inl (SchemaError "XMLStep"))
  ∧ (∀ step,
       EncodedSymbol.pitch model_note = step →
       step ∈ ["A"; "B"; "C"; "D"; "E"; "F"; "G"] →
       build_note_or_rest model_note voice is_chord tuplet_mark st
       = inl IndexError)
  ∧ (∀ step octave,
       char_at (EncodedSymbol.pitch model_note) 0 = Some step →
       step ∈ ["A"; "B"; "C"; "D"; "E"; "F"; "G"] →
       char_at (EncodedSymbol.pitch model_note) 1 = Some octave →
       PyStr.int octave = None →
       build_note_or_rest model_note voice is_chord tuplet_mark st
       = inl (InvalidLiteral octave)).
Proof.
  intros He Hn. unfold build_note_or_rest.
  apply String.eqb_neq in He, Hn. rewrite He, Hn.
  unfold mbind, M_bind. split; [|split; [|split]].
  - by intros ->.
  - intros step H0 Hstep. rewrite H0. unfold of_option at 1, mret, M_ret.
    cbv beta iota. unfold XMLStep. by rewrite bool_decide_eq_false_2.
  - intros step Hpitch Hstep. rewrite Hpitch.
    unfold XMLStep.
    repeat (apply elem_of_cons in Hstep as [->|Hstep]; [done|]).
    by apply elem_of_nil in Hstep.
  - intros step octave H0 Hstep Hoct Hint.
    rewrite H0, Hoct. unfold of_option at 1, mret, M_ret.
    cbv beta iota. unfold XMLStep. rewrite bool_decide_eq_true_2 by done.
    unfold mret, M_ret. cbv beta iota. unfold of_option at 1.
    unfold mret, M_ret. cbv beta iota. unfold of_option at 1.
    by rewrite Hint.
Qed.

Lemma malformed_pitch_is_fatal_witness :
  build_note_or_rest (Scenario.quarter "H4" "upper" "_") 0 false ""
                     (ConversionState.init 16 4 1%Qc)
  = inl (SchemaError "XMLStep").
Proof.
  refine (proj1 (proj2 (malformed_pitch_is_fatal
                          (Scenario.quarter "H4" "upper" "_") 0
                          false "" (ConversionState.init 16 4 1%Qc) _ _))
            "H" _ _).
  - discriminate.
  - discriminate.
  - reflexivity.
  - intros H.
    repeat (apply elem_of_cons in H as [H|H]; [discriminate H|]).
    by apply elem_of_nil in H.
Defined.

End EmitterLaws.

(** ** Timing and the builders of a measure: further properties *)

Section TimingLaws.

(** X20: the divisions element is exact.  The division chosen for a part
    counts the ticks of a whole note and is a multiple of 4; the value
    of the [divisions] element, which counts the ticks of a quarter
    note, is a quarter of it without remainder. *)
Theorem divisions_per_quarter_are_exact (voice : list Chord) :
  let division := (find_division_and_time_signature_nominator voice).1 in
  ∃ per_quarter,
    build_divisions division = mxl.elem_v "XMLDivisions" (VInt per_quarter)
    ∧ 4 * per_quarter = division
    ∧ 0 < per_quarter.
Proof.
  intros division. exists (division / 4). split; [done|].
  assert (H4 : (4 | division)).
  { unfold division. rewrite find_division_fst.
    destruct (find_common_division_spec
                (durations (foldl timing_step timing_init voice)))
      as (_ & Hmul & _).
    destruct quarter_seed as [Hden Hpos]. rewrite <- Hden.
    apply Hmul; [|done].
    apply (timing_fold_durations voice timing_init). left. }
  assert (Hpos : 0 < division).
  { unfold division. rewrite find_division_fst.
    apply find_common_division_spec. }
  destruct H4 as [q Hq]. rewrite Hq, Z.div_mul by done. lia.
Qed.

Lemma timing_fold_single (voice : list Chord) :
  Forall (λ c, SymbolChord.is_barline c = false) voice →
  ∀ st,
    measure_duration (foldl timing_step st voice) = measure_duration st
    ∧ duration_in_measure (foldl timing_step st voice)
      = foldl (λ total c,
                 if frac_ltb 0%Qc (SymbolChord.get_duration c)
                 then (total + SymbolChord.get_duration c)%Qc else total)
              (duration_in_measure st) voice.
Proof.
  induction 1 as [|c voice Hc Hvoice IH]; intros st; simpl; [done|].
  destruct (IH (timing_step st c)) as [H1 H2]. rewrite H1, H2.
  unfold timing_step. rewrite Hc. simpl.
  by destruct (frac_ltb 0%Qc (SymbolChord.get_duration c)).
Qed.

(** X21: the time signature of a part without barline.  When no chord
    of the part is a barline chord, the nominator that is kept for the
    time signature is the sum of the positive durations of the chords
    (the length of the only measure), and 1 when that sum is not
    positive. *)
Theorem nominator_of_a_single_measure (voice : list Chord) :
  Forall (λ c, SymbolChord.is_barline c = false) voice →
  let total :=
    foldl (λ total c,
             if frac_ltb 0%Qc (SymbolChord.get_duration c)
             then (total + SymbolChord.get_duration c)%Qc else total)
          0%Qc voice in
  (find_division_and_time_signature_nominator voice).2
  = if frac_ltb 0%Qc total then total else 1%Qc.
Proof.
  intros Hvoice total.
  unfold find_division_and_time_signature_nominator.
  destruct (timing_fold_single voice Hvoice timing_init) as [H1 H2].
  rewrite H1, H2. simpl. fold total.
  destruct (frac_ltb 0%Qc total); reflexivity.
Qed.

Lemma nominator_of_a_single_measure_witness :
  (find_division_and_time_signature_nominator
     Scenario.eighth_against_triplet).2 = frac 1 8.
Proof.
  rewrite (nominator_of_a_single_measure Scenario.eighth_against_triplet).
  - apply Qc_is_canon. vm_compute. reflexivity.
  - repeat constructor.
Defined.

End TimingLaws.

Section BuilderLaws.

(** X22: a part has one staff or two.  [_max_staff_number] is 2 when
    some symbol of the part sits on the lower staff, and 1 otherwise
    (also for a part without symbols). *)
Theorem max_staff_number_is_one_or_two (voice : list Symbol) :
  _max_staff_number voice
  = if existsb (λ s, String.eqb (EncodedSymbol.position s) "lower") voice
    then 2 else 1.
Proof.
  unfold _max_staff_number.
  assert (H : ∀ m, m = 1 ∨ m = 2 →
            foldl (λ max_staff symbol, Z.max max_staff (get_staff symbol))
                  m voice
            = if existsb (λ s, String.eqb (EncodedSymbol.position s) "lower")
                         voice
              then 2 else m).
  { induction voice as [|s voice IH]; intros m Hm; simpl; [done|].
    unfold get_staff at 2.
    destruct (String.eqb (EncodedSymbol.position s) "lower"); simpl.
    - rewrite IH by lia. replace (Z.max m 2) with 2 by lia.
      by destruct (existsb _ voice).
    - rewrite IH by lia. by replace (Z.max m 1) with m by lia. }
  apply H. by left.
Qed.

Lemma find_index_Some {A : Type} (p : A → bool) (l : list A) (i : nat) :
  find_index p l = Some i → ∃ x, l !! i = Some x ∧ p x = true.
Proof.
  revert i. induction l as [|y l IH]; intros i H; simpl in H; [done|].
  destruct (p y) eqn:E.
  - injection H as <-. by exists y.
  - destruct (find_index p l) as [j|]; [|done]. injection H as <-.
    by apply IH.
Qed.

Lemma find_index_app {A : Type} (p : A → bool) (l l' : list A) :
  find_index p (l ++ l')
  = match find_index p l with
    | Some i => Some i
    | None => (λ j, (length l + j)%nat) <$> find_index p l'
    end.
Proof.
  induction l as [|y l IH]; simpl.
  - by destruct (find_index p l').
  - destruct (p y); [done|]. rewrite IH.
    destruct (find_index p l); [done|]. by destruct (find_index p l').
Qed.

(** X23: a measure has at most one barline for a location.  The first
    [build_or_get_barline] for a location attaches a barline to the
    measure unless there is one already; a second call for the same
    location finds that barline and attaches nothing: it returns the
    same measure and the same barline.  The barline it returns is a
    child of the measure, of class barline and of that location. *)
Theorem barline_is_built_once (measure : XMLElement) (location : string) :
  let '(measure1, b1) := build_or_get_barline measure location in
  build_or_get_barline measure1 location = (measure1, b1)
  ∧ ∃ barline,
      mxl.get_children measure1 !! b1 = Some barline
      ∧ mxl.isinstance barline "XMLBarline" = true
      ∧ mxl.get_attr "location" barline = Some (VStr location).
Proof.
  unfold build_or_get_barline.
  set (p := λ child, mxl.isinstance child "XMLBarline"
                     && bool_decide (mxl.get_attr "location" child
                                     = Some (VStr location))).
  destruct (find_index p (mxl.get_children measure)) as [i|] eqn:E.
  - rewrite E. split; [done|].
    apply find_index_Some in E as (x & Hx & Hp). exists x.
    unfold p in Hp. apply andb_prop in Hp as [H1 H2].
    by apply bool_decide_eq_true in H2.
  - destruct measure as [c a v ch]. simpl in *.
    rewrite find_index_app, E. simpl.
    assert (Hp : p (mxl.elem_a "XMLBarline" [("location", VStr location)])
                 = true).
    { unfold p. apply andb_true_intro. split; [reflexivity|].
      by apply bool_decide_eq_true. }
    rewrite Hp. simpl. rewrite Nat.add_0_r. split; [done|].
    exists (mxl.elem_a "XMLBarline" [("location", VStr location)]).
    rewrite lookup_app_r, Nat.sub_diag by done. split; [done|].
    split; reflexivity.
Qed.

(** X24: the first repeat of a barline wins.  [build_repeat] attaches a
    repeat to a barline that has none, forward for [repeatStart] and
    backward otherwise, and leaves a barline alone that has one: after
    a [build_repeat] a second one changes nothing, so a barline never
    holds two repeats made by it. *)
Theorem first_repeat_wins (rhythm rhythm' : string) (xml : XMLElement) :
  build_repeat rhythm' (build_repeat rhythm xml) = build_repeat rhythm xml
  ∧ (mxl.get_children_of_type "XMLRepeat" xml = [] →
     mxl.get_children_of_type "XMLRepeat" (build_repeat rhythm xml)
     = [mxl.elem_a "XMLRepeat"
          [("direction",
            VStr (if String.eqb rhythm "repeatStart" then "forward"
                  else "backward"))]]).
Proof.
  unfold build_repeat at 2 3 4.
  destruct (mxl.get_children_of_type "XMLRepeat" xml) as [|r l] eqn:E.
  - assert (H : mxl.get_children_of_type "XMLRepeat"
                  (mxl.add_child
                     (mxl.elem_a "XMLRepeat"
                        [("direction",
                          VStr (if String.eqb rhythm "repeatStart"
                                then "forward" else "backward"))]) xml)
                = [mxl.elem_a "XMLRepeat"
                     [("direction",
                       VStr (if String.eqb rhythm "repeatStart"
                             then "forward" else "backward"))]]).
    { destruct xml as [c a v ch]. unfold mxl.get_children_of_type in *.
      simpl in *. rewrite List.filter_app, E. done. }
    split; [|done]. unfold build_repeat. by rewrite H.
  - split; [|done]. unfold build_repeat. by rewrite E.
Qed.

End BuilderLaws.

(** ** The measure driver: what holds at every chord *)

Section DriverInvariant.

Lemma numbered_add_child (n : Z) (x m : XMLElement) :
  numbered n m → numbered n (mxl.add_child x m).
Proof. by destruct m. Qed.

Lemma numbered_alter_child (n : Z) (f : XMLElement → XMLElement) (i : nat)
    (m : XMLElement) :
  numbered n m → numbered n (mxl.alter_child f i m).
Proof. by destruct m. Qed.

Lemma numbered_add_all (n : Z) (new : list XMLElement) (m : XMLElement) :
  numbered n m → numbered n (add_all new m).
Proof.
  unfold add_all. revert m. induction new as [|x new IH]; intros m H;
    simpl; [done|].
  by apply IH, numbered_add_child.
Qed.

Lemma numbered_update_child (n : Z) (f : XMLElement → M XMLElement)
    (i : nat) (m : XMLElement) (st : State) (m' : XMLElement)
    (st' : State) :
  update_child f i m st = inr (m', st') → numbered n m → numbered n m'.
Proof.
  unfold update_child. destruct (mxl.get_children m !! i) as [child|].
  - intros H. apply bind_inr in H as (child' & s1 & _ & H).
    apply ret_inr in H as [-> _]. apply numbered_alter_child.
  - intros H. by apply ret_inr in H as [-> _].
Qed.

Lemma numbered_emit_positions (n : Z) (group : Chord) (m : XMLElement)
    (st : State) (m' : XMLElement) (st' : State) :
  emit_positions group m st = inr (m', st') → numbered n m → numbered n m'.
Proof.
  unfold emit_positions. intros H Hm. revert H.
  apply (for_each_ind _ (λ _ m _, numbered n m)); [|done].
  intros pre [i pos] rest acc s acc' s' _ Hacc Hbody. simpl in Hbody.
  apply bind_inr in Hbody as (notes & s1 & _ & Hbody).
  apply ret_inr in Hbody as [-> _]. by apply numbered_add_all.
Qed.

Lemma attributes_at_add_child (a : nat) (x m : XMLElement) :
  attributes_at a m → attributes_at a (mxl.add_child x m).
Proof.
  destruct m as [c at' v ch]. intros (e & He & Hc). exists e. simpl in *.
  split; [|done]. by apply lookup_app_l_Some.
Qed.

Lemma attributes_at_new (m : XMLElement) :
  attributes_at (length (mxl.get_children m))
                (mxl.add_child (mxl.elem "XMLAttributes") m).
Proof.
  destruct m as [c at' v ch]. exists (mxl.elem "XMLAttributes"). simpl.
  split; [|done]. by rewrite lookup_app_r, Nat.sub_diag.
Qed.

Lemma attributes_at_update_child (a : nat) (f : XMLElement → M XMLElement)
    (m : XMLElement) (st : State) (m' : XMLElement) (st' : State) :
  keeps_cls f →
  update_child f a m st = inr (m', st') →
  attributes_at a m → attributes_at a m'.
Proof.
  intros Hf H (e & He & Hc). unfold update_child in H. rewrite He in H.
  apply bind_inr in H as (e' & s1 & Hfe & H).
  apply ret_inr in H as [-> _]. exists e'.
  destruct m as [c at' v ch]. simpl in *. split.
  - rewrite list_lookup_alter_eq, He. done.
  - rewrite (Hf _ _ _ _ Hfe). done.
Qed.

Lemma build_or_get_attributes_ok (n : Z) (m : XMLElement)
    (last_attributes : option nat) (force_new : bool) :
  numbered n m →
  (∀ a, last_attributes = Some a → attributes_at a m) →
  numbered n (build_or_get_attributes m last_attributes force_new).1
  ∧ attributes_at (build_or_get_attributes m last_attributes force_new).2
                  (build_or_get_attributes m last_attributes force_new).1.
Proof.
  intros Hm Hlast. unfold build_or_get_attributes.
  destruct last_attributes as [a|].
  - destruct (_ || _); simpl.
    + split; [done|]. by apply Hlast.
    + split; [by apply numbered_add_child|apply attributes_at_new].
  - simpl. split; [by apply numbered_add_child|apply attributes_at_new].
Qed.

Lemma build_or_get_barline_numbered (n : Z) (m : XMLElement)
    (location : string) :
  numbered n m → numbered n (build_or_get_barline m location).1.
Proof.
  intros Hm. unfold build_or_get_barline.
  destruct (find_index _ _); simpl; [done|]. by apply numbered_add_child.
Qed.

Lemma keeps_cls_multi_measure_rest (symbol : Symbol) :
  keeps_cls (build_multi_measure_rest symbol).
Proof.
  intros e st e' st' H. unfold build_multi_measure_rest in H.
  destruct (mxl.get_children_of_type _ e).
  - apply bind_inr in H as (field & s1 & _ & H).
    apply bind_inr in H as (duration & s2 & _ & H).
    apply ret_inr in H as [-> _]. by destruct e.
  - by apply ret_inr in H as [-> _].
Qed.

Lemma keeps_cls_clef (symbol : Symbol) : keeps_cls (build_clef symbol).
Proof.
  intros e st e' st' H. unfold build_clef in H.
  apply bind_inr in H as (x1 & s1 & _ & H).
  apply bind_inr in H as (x2 & s2 & _ & H).
  apply bind_inr in H as (x3 & s3 & _ & H).
  apply bind_inr in H as (x4 & s4 & _ & H).
  apply ret_inr in H as [-> _]. by destruct e.
Qed.

Lemma keeps_cls_key (symbol : Symbol) : keeps_cls (build_key symbol).
Proof.
  intros e st e' st' H. unfold build_key in H.
  apply bind_inr in H as (x1 & s1 & _ & H).
  apply bind_inr in H as (x2 & s2 & _ & H).
  apply ret_inr in H as [-> _]. by destruct e.
Qed.

Lemma keeps_cls_time_signature (symbol : Symbol) :
  keeps_cls (build_time_signature symbol).
Proof.
  intros e st e' st' H. unfold build_time_signature in H.
  apply bind_inr in H as (x1 & s1 & _ & H).
  apply bind_inr in H as (x2 & s2 & _ & H).
  apply bind_inr in H as (x3 & s3 & _ & H).
  apply bind_inr in H as (x4 & s4 & _ & H).
  apply ret_inr in H as [-> _]. by destruct e.
Qed.

Lemma driver_ok_continue (m : XMLElement) (a : option nat) (d : driver) :
  driver_ok d →
  numbered (measure_number d) m →
  (∀ a', a = Some a' → attributes_at a' m) →
  driver_ok (continue_with m a d).
Proof. intros [H1 H2 H3 H4] Hm Ha. by constructor. Qed.

Lemma numbered_new_measure (n : Z) : numbered n (new_measure n).
Proof. done. Qed.

Lemma driver_ok_next (m : XMLElement) (d : driver) :
  driver_ok d →
  numbered (measure_number d) m →
  driver_ok (next_measure m d).
Proof.
  intros [H1 H2 H3 H4] Hm. constructor; simpl.
  - lia.
  - apply numbered_new_measure.
  - replace (measure_number d + 1 - 1)
      with (measure_number d - 1 + 1) by lia.
    rewrite seqZ_app by lia. apply Forall2_app; [done|].
    replace (1 + (measure_number d - 1)) with (measure_number d) by lia.
    by constructor.
  - done.
Qed.

(** One chord keeps the invariant. *)
Lemma driver_step_ok (n_groups : nat) (d : driver) (ig : nat * Chord)
    (st : State) (d' : driver) (st' : State) :
  driver_ok d → driver_step n_groups d ig st = inr (d', st') →
  driver_ok d'.
Proof.
  intros Hd H. destruct ig as [group_no group]. unfold driver_step in H.
  apply bind_inr in H as (symbol & s0 & _ & H).
  pose proof (ok_current _ Hd) as Hcur.
  pose proof (ok_attributes _ Hd) as Hattr.
  destruct (EncodedSymbol.is_note_or_rest symbol).
  { destruct (_ && _).
    - destruct (build_or_get_attributes_ok _ (current_measure d)
                  (attributes d) false Hcur Hattr) as [Hn Ha].
      destruct (build_or_get_attributes _ _ _) as [current a].
      cbn [fst snd] in Hn, Ha.
      apply bind_inr in H as (current' & s1 & Hup & H).
      apply ret_inr in H as [-> _].
      apply driver_ok_continue;
        [done|by eapply numbered_update_child|].
      intros a' [= <-].
      eapply attributes_at_update_child;
        [apply keeps_cls_multi_measure_rest|done|done].
    - apply bind_inr in H as (current' & s1 & Hemit & H).
      apply ret_inr in H as [-> _].
      apply driver_ok_continue;
        [done|by eapply numbered_emit_positions|done]. }
  destruct (String.eqb _ "newline").
  { destruct (negb _); apply ret_inr in H as [-> _];
      apply driver_ok_continue; try done.
    by apply numbered_add_child. }
  destruct (PyStr.startswith _ "clef").
  { destruct (build_or_get_attributes_ok _ (current_measure d)
                (attributes d) true Hcur Hattr) as [Hn Ha].
    destruct (build_or_get_attributes _ _ _) as [current a].
    cbn [fst snd] in Hn, Ha.
    apply bind_inr in H as (current' & s1 & Hloop & H).
    apply ret_inr in H as [-> _].
    assert (Hboth : numbered (measure_number d) current'
                    ∧ attributes_at a current').
    { revert Hloop.
      apply (for_each_ind _ (λ _ m _, numbered (measure_number d) m
                                      ∧ attributes_at a m)); [|done].
      intros pre x rest acc s acc' s' _ [Hacc1 Hacc2] Hbody.
      destruct (PyStr.startswith _ "clef").
      - split; [by eapply numbered_update_child|].
        eapply attributes_at_update_child; [apply keeps_cls_clef|done|done].
      - by apply ret_inr in Hbody as [-> _]. }
    destruct Hboth as [Hn' Ha'].
    apply driver_ok_continue; [done|done|]. by intros a' [= <-]. }
  destruct (PyStr.startswith _ "keySignature").
  { destruct (build_or_get_attributes_ok _ (current_measure d)
                (attributes d) false Hcur Hattr) as [Hn Ha].
    destruct (build_or_get_attributes _ _ _) as [current a].
    cbn [fst snd] in Hn, Ha.
    apply bind_inr in H as (current' & s1 & Hup & H).
    apply ret_inr in H as [-> _].
    apply driver_ok_continue;
      [done|by eapply numbered_update_child|].
    intros a' [= <-].
    eapply attributes_at_update_child; [apply keeps_cls_key|done|done]. }
  destruct (PyStr.startswith _ "timeSignature").
  { destruct (build_or_get_attributes_ok _ (current_measure d)
                (attributes d) false Hcur Hattr) as [Hn Ha].
    destruct (build_or_get_attributes _ _ _) as [current a].
    cbn [fst snd] in Hn, Ha.
    apply bind_inr in H as (current' & s1 & Hup & H).
    apply ret_inr in H as [-> _].
    apply driver_ok_continue;
      [done|by eapply numbered_update_child|].
    intros a' [= <-].
    eapply attributes_at_update_child;
      [apply keeps_cls_time_signature|done|done]. }
  destruct (PyStr.contains "barline" _).
  { apply ret_inr in H as [-> _]. apply driver_ok_next; [done|].
    destruct (negb _); [|done].
    pose proof (build_or_get_barline_numbered (measure_number d)
                  (current_measure d) "right" Hcur) as Hb.
    destruct (build_or_get_barline _ _) as [current b].
    by apply numbered_alter_child. }
  destruct (String.eqb _ "repeatStart").
  { pose proof (driver_ok_next (current_measure d) d Hd Hcur) as Hd1.
    pose proof (build_or_get_barline_numbered _ _ "right"
                  (ok_current _ Hd1)) as Hb.
    destruct (build_or_get_barline _ _) as [current b].
    apply ret_inr in H as [-> _].
    apply driver_ok_continue; [done| |done].
    by apply numbered_alter_child. }
  destruct (String.eqb _ "repeatEnd").
  { pose proof (build_or_get_barline_numbered (measure_number d)
                  (current_measure d) "right" Hcur) as Hb.
    destruct (build_or_get_barline _ _) as [current b].
    apply ret_inr in H as [-> _]. apply driver_ok_next; [done|].
    by apply numbered_alter_child. }
  destruct (String.eqb _ "repeatEndStart").
  { pose proof (build_or_get_barline_numbered (measure_number d)
                  (current_measure d) "right" Hcur) as Hb.
    destruct (build_or_get_barline (current_measure d) "right")
      as [current b].
    cbn [fst] in Hb.
    pose proof (driver_ok_next
                  (mxl.alter_child (build_repeat "repeatEnd") b current) d
                  Hd (numbered_alter_child _ _ _ _ Hb)) as Hd1.
    pose proof (build_or_get_barline_numbered _ _ "right"
                  (ok_current _ Hd1)) as Hb1.
    destruct (build_or_get_barline _ _) as [current1 b1].
    apply ret_inr in H as [-> _].
    apply driver_ok_continue; [done| |done].
    by apply numbered_alter_child. }
  destruct (PyStr.startswith _ "voltaStart").
  { apply bind_inr in H as (volta_number & s1 & _ & H).
    pose proof (build_or_get_barline_numbered (measure_number d)
                  (current_measure d) "left" Hcur) as Hb.
    destruct (build_or_get_barline _ _) as [current b].
    apply bind_inr in H as (current' & s2 & Hup & H).
    apply ret_inr in H as [-> _].
    apply driver_ok_continue; [done| |done].
    by eapply numbered_update_child. }
  destruct (_ || _).
  { apply bind_inr in H as (volta_number & s1 & _ & H).
    pose proof (build_or_get_barline_numbered (measure_number d)
                  (current_measure d) "right" Hcur) as Hb.
    destruct (build_or_get_barline _ _) as [current b].
    apply bind_inr in H as (current' & s2 & Hup & H).
    apply ret_inr in H as [-> _].
    apply driver_ok_continue; [done| |done].
    by eapply numbered_update_child. }
  apply ret_inr in H as [-> _]. by apply driver_ok_continue.
Qed.

Lemma driver_init_ok (args : XmlGeneratorArguments) (division max_staff : Z)
    (is_first_part : bool) :
  driver_ok (driver_init args division max_staff is_first_part).
Proof.
  unfold driver_init. simpl.
  constructor; cbn [measure_number measures current_measure attributes].
  - lia.
  - destruct (1 <? max_staff), is_first_part;
      try destruct (build_add_time_direction args); done.
  - constructor.
  - intros a [= <-].
    destruct (1 <? max_staff), is_first_part;
      try destruct (build_add_time_direction args);
      by eexists.
Qed.

Lemma run_driver_ok (duration_of_quarter : Z) (args : XmlGeneratorArguments)
    (groups : list Chord) (max_staff : Z) (is_first_part : bool)
    (d : driver) (st : State) :
  run_driver duration_of_quarter args groups max_staff is_first_part
  = inr (d, st) →
  driver_ok d.
Proof.
  unfold run_driver.
  destruct (find_division_and_time_signature_nominator groups)
    as [division nominator].
  apply (for_each_ind _ (λ _ d _, driver_ok d)).
  - intros pre x rest acc s acc' s' _ Hacc Hbody.
    by eapply driver_step_ok.
  - apply driver_init_ok.
Qed.

Lemma numbered_map (ns : list Z) (ms : list XMLElement) :
  Forall2 numbered ns ms →
  map (λ m, (mxl.cls m, mxl.attrs m)) ms
  = map (λ n, ("XMLMeasure", [("number", VStr (pretty n))])) ns.
Proof.
  induction 1 as [|n m ns ms [Hc Ha] _ IH]; [done|].
  simpl. by rewrite Hc, Ha, IH.
Qed.

(** X25: the measures of a part are numbered 1, 2, 3 and so on.  Every
    element of the list that [build_measures] returns is a measure, and
    the measure at place [i] (counted from 1) carries the number [i] as
    its only attribute: no number is skipped or used twice, whatever the
    symbols of the part. *)
Theorem measures_are_numbered_in_order
    (sort_token_chords : list Symbol → list (list Symbol))
    (duration_of_quarter : Z) (args : XmlGeneratorArguments)
    (voice : list Symbol) (is_first_part : bool)
    (measures : list XMLElement) :
  build_measures sort_token_chords duration_of_quarter args voice
                 is_first_part = inr measures →
  map (λ m, (mxl.cls m, mxl.attrs m)) measures
  = map (λ n, ("XMLMeasure", [("number", VStr (pretty n))]))
        (seqZ 1 (Z.of_nat (length measures))).
Proof.
  unfold build_measures.
  destruct (run_driver _ _ _ _ _) as [e|[d st]] eqn:Hrun; [done|].
  intros [= <-]. apply run_driver_ok in Hrun as [H1 H2 H3 _].
  apply numbered_map.
  assert (Hlen : Z.of_nat (length (measures d)) = measure_number d - 1).
  { apply Forall2_length in H3. rewrite length_seqZ in H3. lia. }
  unfold driver_finish. destruct (0 <? _)%nat.
  - rewrite length_app, Nat.add_1_r, seqZ_S, Hlen.
    apply Forall2_app; [done|]. constructor; [|done].
    by replace (1 + (measure_number d - 1)) with (measure_number d) by lia.
  - by rewrite Hlen.
Qed.

Lemma measures_are_numbered_in_order_witness :
  match build_measures (Scenario.given Scenario.trailing_key_signature) 16
                       Scenario.no_args [] true with
  | inr measures =>
      map (λ m, (mxl.cls m, mxl.attrs m)) measures
      = map (λ n, ("XMLMeasure", [("number", VStr (pretty n))]))
            (seqZ 1 (Z.of_nat (length measures)))
  | inl _ => False
  end.
Proof.
  destruct (build_measures (Scenario.given Scenario.trailing_key_signature)
              16 Scenario.no_args [] true) as [e|measures] eqn:H.
  - vm_compute in H. discriminate H.
  - exact (measures_are_numbered_in_order _ _ _ _ _ _ H).
Defined.

(** X26: the attributes block under construction belongs to the measure
    under construction.  When the loop of [build_measures] ends with a
    reference to an attributes block (after a clef, a key or time
    signature or a multi-measure rest), that block is a child of the
    current measure: clefs, keys and time signatures are never written
    into a measure that was closed by a barline.  The current measure
    carries the current measure number, which is at least 1. *)
Theorem attributes_belong_to_the_current_measure
    (duration_of_quarter : Z) (args : XmlGeneratorArguments)
    (groups : list Chord) (max_staff : Z) (is_first_part : bool)
    (d : driver) (st : State) :
  run_driver duration_of_quarter args groups max_staff is_first_part
  = inr (d, st) →
  1 ≤ measure_number d
  ∧ mxl.attrs (current_measure d)
    = [("number", VStr (pretty (measure_number d)))]
  ∧ ∀ a, attributes d = Some a →
         ∃ block, mxl.get_children (current_measure d) !! a = Some block
                  ∧ mxl.cls block = "XMLAttributes".
Proof.
  intros H. apply run_driver_ok in H as [H1 [_ H2] _ H4]. done.
Qed.

Lemma attributes_belong_to_the_current_measure_witness :
  match run_driver 16 Scenario.no_args
                   (map SymbolChord.make Scenario.trailing_key_signature)
                   1 true with
  | inr (d, _) =>
      1 ≤ measure_number d
      ∧ mxl.attrs (current_measure d)
        = [("number", VStr (pretty (measure_number d)))]
      ∧ ∀ a, attributes d = Some a →
             ∃ block, mxl.get_children (current_measure d) !! a = Some block
                      ∧ mxl.cls block = "XMLAttributes"
  | inl _ => False
  end.
Proof.
  destruct (run_driver 16 Scenario.no_args
              (map SymbolChord.make Scenario.trailing_key_signature) 1 true)
    as [e|[d st]] eqn:H.
  - vm_compute in H. discriminate H.
  - exact (attributes_belong_to_the_current_measure _ _ _ _ _ _ _ H).
Defined.

End DriverInvariant.

(** ** The document: parts and part list *)

Section DocumentLaws.
Variable sort_token_chords : list Symbol → list (list Symbol).
Variable duration_of_quarter : Z.

Lemma add_all_head (new : list XMLElement) (parent : XMLElement) :
  mxl.cls (add_all new parent) = mxl.cls parent
  ∧ mxl.attrs (add_all new parent) = mxl.attrs parent.
Proof.
  unfold add_all. revert parent.
  induction new as [|x new IH]; intros parent; simpl; [done|].
  destruct (IH (mxl.add_child x parent)) as [H1 H2].
  rewrite H1, H2. by destruct parent.
Qed.

Lemma build_part_head (args : XmlGeneratorArguments) (voice : list Symbol)
    (index : nat) (part : XMLElement) :
  build_part sort_token_chords duration_of_quarter args voice index
  = inr part →
  mxl.cls part = "XMLPart"
  ∧ mxl.attrs part = [("id", VStr (get_part_id index))].
Proof.
  unfold build_part. destruct (build_measures _ _ _ _ _); [done|].
  intros [= <-]. apply add_all_head.
Qed.

Lemma build_parts_children (args : XmlGeneratorArguments)
    (staffs : list (list Symbol)) :
  ∀ index root root',
    build_parts sort_token_chords duration_of_quarter args staffs index root
    = inr root' →
    mxl.cls root' = mxl.cls root
    ∧ ∃ parts,
        mxl.get_children root' = mxl.get_children root ++ parts
        ∧ map (λ p, (mxl.cls p, mxl.attrs p)) parts
          = map (λ i, ("XMLPart", [("id", VStr (get_part_id i))]))
                (seq index (length staffs)).
Proof.
  induction staffs as [|staff staffs IH]; intros index root root' H;
    simpl in H.
  - injection H as <-. split; [done|]. exists []. by rewrite app_nil_r.
  - destruct (build_part _ _ _ _ _) as [e|part] eqn:Hpart; [done|].
    apply build_part_head in Hpart as [Hc Ha].
    apply IH in H as [Hcls (parts & Hch & Hparts)].
    split; [by destruct root|]. exists (part :: parts). split.
    + rewrite Hch. destruct root. simpl. by rewrite <- app_assoc.
    + simpl. by rewrite Hc, Ha, Hparts.
Qed.

Lemma get_part_id_inj : Inj (=) (=) get_part_id.
Proof.
  intros i j H. unfold get_part_id in H.
  assert (H' : pretty (Z.of_nat i + 1) = pretty (Z.of_nat j + 1))
    by (simpl in H; by injection H).
  apply pretty_Z_inj in H'. lia.
Qed.

(** X27: the part list announces the parts of the score.  The document
    that [generate_xml] returns has the work, the defaults and the part
    list as its first three children, followed by one part for each
    staff, in order.  The part at place [i] (counted from 1) has the id
    [P] followed by [i]; the ids of the parts are pairwise different,
    and they are, in the same order, the ids of the entries of the part
    list. *)
Theorem part_list_announces_the_parts (args : XmlGeneratorArguments)
    (staffs : list (list Symbol)) (title : string) (root : XMLElement) :
  generate_xml sort_token_chords duration_of_quarter args staffs title
  = inr root →
  ∃ part_list parts,
    mxl.cls root = "XMLScorePartwise"
    ∧ mxl.get_children root
      = build_work title :: build_defaults args :: part_list :: parts
    ∧ mxl.cls part_list = "XMLPartList"
    ∧ map (λ p, (mxl.cls p, mxl.attrs p)) parts
      = map (λ i, ("XMLPart", [("id", VStr (get_part_id i))]))
            (seq 0 (length staffs))
    ∧ map (mxl.get_attr "id") (mxl.get_children part_list)
      = map (mxl.get_attr "id") parts
    ∧ NoDup (map (mxl.get_attr "id") parts).
Proof.
  unfold generate_xml. intros H.
  apply build_parts_children in H as [Hcls (parts & Hch & Hparts)].
  exists (build_part_list (length staffs)), parts.
  split; [by rewrite Hcls|]. split; [by rewrite Hch|].
  split; [apply add_all_head|]. split; [done|].
  assert (Hids : map (mxl.get_attr "id") parts
                 = map (λ i, Some (VStr (get_part_id i)))
                       (seq 0 (length staffs))).
  { clear Hch. revert Hparts. generalize (seq 0 (length staffs)).
    induction parts as [|p parts IH]; intros [|i l] Hl; try done.
    simpl in Hl. injection Hl as Hc Ha Hl. simpl.
    rewrite (IH l Hl). f_equal. unfold mxl.get_attr. by rewrite Ha. }
  split.
  - rewrite Hids. unfold build_part_list. rewrite children_add_all. simpl.
    rewrite <- list_fmap_compose. by apply list_fmap_ext.
  - rewrite Hids. apply NoDup_fmap_2; [|apply NoDup_seq].
    intros i j Hij. apply get_part_id_inj.
    assert (E : ∀ a b, Some (VStr a) = Some (VStr b) → a = b)
      by (intros a b [= ->]; done).
    by apply E.
Qed.

End DocumentLaws.

Lemma part_list_announces_the_parts_witness :
  match generate_xml (Scenario.given Scenario.triplet_then_quarter) 16
                     Scenario.no_args [[]; []] "title" with
  | inr root =>
      ∃ part_list parts,
        mxl.cls root = "XMLScorePartwise"
        ∧ mxl.get_children root
          = build_work "title" :: build_defaults Scenario.no_args
            :: part_list :: parts
        ∧ mxl.cls part_list = "XMLPartList"
        ∧ map (λ p, (mxl.cls p, mxl.attrs p)) parts
          = map (λ i, ("XMLPart", [("id", VStr (get_part_id i))]))
                (seq 0 2)
        ∧ map (mxl.get_attr "id") (mxl.get_children part_list)
          = map (mxl.get_attr "id") parts
        ∧ NoDup (map (mxl.get_attr "id") parts)
  | inl _ => False
  end.
Proof.
  destruct (generate_xml (Scenario.given Scenario.triplet_then_quarter) 16
              Scenario.no_args [[]; []] "title") as [e|root] eqn:H.
  - vm_compute in H. discriminate H.
  - exact (part_list_announces_the_parts _ _ _ _ _ _ H).
Defined.

(** ** Whole-measure rests and the errors the driver cannot raise *)

Section WholeMeasureRest.
Import ConversionState.

(** X28: a whole-measure rest lasts a measure.  A symbol that is no
    grace note and whose duration is not positive (the whole-measure
    shorthand), emitted as a note that is not stacked on another, moves
    the cursor by the number of beats of the state, whatever the
    division, and that number is positive.  [build_time_signature]
    sets the number of beats from the symbol of the time signature: to
    the nominator times the number written after the slash of its
    rhythm, cut down to a whole number, and to 1 at least. *)
Theorem whole_measure_rest_lasts_a_measure :
  (∀ (model_note : Symbol) (voice : Z) (tuplet_mark : string)
     (st : State) (xml : XMLElement) (st' : State),
      EncodedSymbol.is_grace model_note = false →
      numerator (fraction (EncodedSymbol.get_duration model_note)) ≤ 0 →
      build_note_or_rest model_note voice false tuplet_mark st
      = inr (xml, st') →
      cursor_delta xml = beats st ∧ 0 < beats st)
  ∧ (∀ (time_signature : Symbol) (attributes attributes' : XMLElement)
       (st st1 : State),
        build_time_signature time_signature attributes st
        = inr (attributes', st1) →
        ∃ field d,
          PyStr.split "/" (EncodedSymbol.rhythm time_signature) !! 1%nat
          = Some field
          ∧ PyStr.int field = Some d
          ∧ beats st1
            = Z.max (int_of_frac (frac_mul_int (nominator st) d)) 1
          ∧ 1 ≤ beats st1).
Proof.
  split.
  - intros model_note voice tuplet_mark st xml st' Hg Hn H.
    assert (Hlt : (0 <? numerator (fraction
                     (EncodedSymbol.get_duration model_note))) = false)
      by (apply Z.ltb_ge; lia).
    split.
    + apply build_note_or_rest_spec in H as [H _]. rewrite H.
      unfold note_ticks. by rewrite Hg, Hlt.
    + unfold build_note_or_rest in H.
      apply bind_inr in H as (note1 & s1 & H1 & H).
      assert (s1 = st) as ->.
      { destruct (String.eqb (EncodedSymbol.pitch model_note) empty).
        { by destruct (numerator _ =? 0);
            apply ret_inr in H1 as [_ ->]. }
        destruct (String.eqb (EncodedSymbol.pitch model_note) nonote).
        { by apply ret_inr in H1 as [_ ->]. }
        apply bind_inr in H1 as (step & t1 & E1 & H1).
        apply of_option_inr in E1 as [_ ->].
        apply bind_inr in H1 as (xstep & t1 & E1 & H1).
        apply XMLStep_inr in E1 as (_ & -> & _).
        apply bind_inr in H1 as (od & t2 & E2 & H1).
        apply of_option_inr in E2 as [_ ->].
        apply bind_inr in H1 as (octave & t3 & E3 & H1).
        apply of_option_inr in E3 as [_ ->].
        apply bind_inr in H1 as (pitch & t4 & E4 & H1).
        apply ret_inr in H1 as [_ ->].
        destruct (String.eqb (EncodedSymbol.lift model_note) nonote).
        { by apply ret_inr in E4 as [_ ->]. }
        destruct (negb _).
        - apply bind_inr in E4 as (alter & t5 & E5 & E4).
          apply of_option_inr in E5 as [_ ->].
          by apply ret_inr in E4 as [_ ->].
        - by apply ret_inr in E4 as [_ ->]. }
      apply bind_inr in H as (state & s2 & Hget & H).
      unfold get_state in Hget. injection Hget as <- <-.
      apply bind_inr in H as (note2 & s3 & H2 & _).
      rewrite Hg, Hlt in H2.
      apply bind_inr in H2 as (duration & s4 & Hd & _).
      by apply XMLDuration_inr in Hd as (_ & _ & Hpos).
  - intros ts a a' st st1 Hts. unfold build_time_signature in Hts.
    apply bind_inr in Hts as (field & s1 & Hfield & Hts).
    apply of_option_inr in Hfield as [Hfield ->].
    apply bind_inr in Hts as (state & s2 & Hget & Hts).
    unfold get_state in Hget. injection Hget as <- <-.
    apply bind_inr in Hts as (d & s3 & Hd & Hts).
    apply of_option_inr in Hd as [Hd ->].
    apply bind_inr in Hts as ([] & s4 & Hput & Hts).
    unfold put_state in Hput. injection Hput as <-.
    apply ret_inr in Hts as [_ ->]. exists field, d. simpl.
    split; [done|]. split; [done|]. split; [done|]. lia.
Qed.

Lemma whole_measure_rest_lasts_a_measure_witness :
  match build_time_signature
          (Scenario.sym "timeSignature/4" "." "." "." "." Scenario.nodur)
          (mxl.elem "XMLAttributes") (init 16 8 (frac 3 4)) with
  | inr (_, st1) => beats st1 = 3
  | inl _ => False
  end.
Proof.
  destruct (build_time_signature
              (Scenario.sym "timeSignature/4" "." "." "." "." Scenario.nodur)
              (mxl.elem "XMLAttributes") (init 16 8 (frac 3 4)))
    as [e|[xml st1]] eqn:H.
  - vm_compute in H. discriminate H.
  - destruct (proj2 whole_measure_rest_lasts_a_measure _ _ _ _ _ H)
      as (field & d & Hfield & Hd & Hbeats & _).
    injection Hfield as <-. injection Hd as <-. exact Hbeats.
Defined.

End WholeMeasureRest.

(** ** The error of [build_barline_ending] *)

Section UnknownEnding.

Lemma never_ret {A : Type} (e : exn) (a : A) : never_raises e (mret a).
Proof. by intros st. Qed.

Lemma never_raise {A : Type} (e e' : exn) :
  e' ≠ e → never_raises e (raise (A:=A) e').
Proof. intros Hne st [= H]. done. Qed.

Lemma never_bind {A B : Type} (e : exn) (m : M A) (k : A → M B) :
  never_raises e m → (∀ a, never_raises e (k a)) →
  never_raises e (m ≫= k).
Proof.
  intros Hm Hk st. unfold mbind, M_bind.
  destruct (m st) as [e'|[a s1]] eqn:E.
  - intros [= ->]. by apply (Hm st).
  - apply Hk.
Qed.

Lemma never_of_option {A : Type} (e e' : exn) (o : option A) :
  e' ≠ e → never_raises e (of_option e' o).
Proof.
  intros Hne. destruct o; [apply never_ret|by apply never_raise].
Qed.

Lemma never_with_state {A : Type} (e : exn) (f : State → A * State) :
  never_raises e (with_state f).
Proof. by intros st. Qed.

Lemma never_get_state (e : exn) : never_raises e get_state.
Proof. by intros st. Qed.

Lemma never_put_state (e : exn) (s : State) : never_raises e (put_state s).
Proof. by intros st. Qed.

Lemma never_for_each {A B : Type} (e : exn) (body : B → A → M B)
    (l : list A) :
  (∀ acc x, never_raises e (body acc x)) →
  ∀ acc, never_raises e (for_each body l acc).
Proof.
  intros Hbody. induction l as [|x l IH]; intros acc; simpl.
  - apply never_ret.
  - apply never_bind; [apply Hbody|]. intros a. apply IH.
Qed.

Lemma never_XMLStep (value_ : string) :
  never_raises unknown_ending (XMLStep value_).
Proof.
  unfold XMLStep. case_bool_decide; [apply never_ret|].
  apply never_raise. discriminate.
Qed.

Lemma never_XMLDuration (value_ : Z) :
  never_raises unknown_ending (XMLDuration value_).
Proof.
  unfold XMLDuration. destruct (0 <? value_); [apply never_ret|].
  apply never_raise. discriminate.
Qed.

Lemma never_backup (ticks : Z) : never_raises unknown_ending (backup ticks).
Proof.
  unfold backup. apply never_bind; [apply never_XMLDuration|].
  intros d. apply never_ret.
Qed.

Lemma never_update_child (e : exn) (f : XMLElement → M XMLElement)
    (i : nat) (parent : XMLElement) :
  (∀ child, mxl.get_children parent !! i = Some child →
            never_raises e (f child)) →
  never_raises e (update_child f i parent).
Proof.
  intros Hf. unfold update_child.
  destruct (mxl.get_children parent !! i) as [child|]; [|apply never_ret].
  apply never_bind; [by apply Hf|]. intros a. apply never_ret.
Qed.

Lemma never_articulation_step (note : XMLElement) (staff voice : option Z)
    (acc : art_acc) (a : string) :
  never_raises unknown_ending (articulation_step note staff voice acc a).
Proof.
  unfold articulation_step, unknown_ending.
  repeat match goal with
         | |- never_raises _ (if ?b then _ else _) => destruct b
         end;
    try (intros st; discriminate);
    repeat first
      [ apply never_ret
      | apply never_get_state
      | apply never_with_state
      | apply never_of_option; discriminate
      | apply never_raise; discriminate
      | apply never_bind; [|intros ?]
      | match goal with
        | |- never_raises _ (if ?b then _ else _) => destruct b
        | |- never_raises _ (match ?x with _ => _ end) => destruct x
        end ].
Qed.

Lemma never_build_articulations (note : XMLElement)
    (articualations tuplet_mark : string) (staff voice : option Z) :
  never_raises unknown_ending
    (build_articulations note articualations tuplet_mark staff voice).
Proof.
  unfold build_articulations. apply never_bind.
  - apply never_for_each. intros acc x. apply never_articulation_step.
  - intros acc. apply never_ret.
Qed.

Lemma never_build_note_or_rest (model_note : Symbol) (voice : Z)
    (is_chord : bool) (tuplet_mark : string) :
  never_raises unknown_ending
    (build_note_or_rest model_note voice is_chord tuplet_mark).
Proof.
  unfold build_note_or_rest, unknown_ending.
  apply never_bind; [|intros note1; apply never_bind; [|intros state;
                      apply never_bind; [|intros note2]]];
    [..|destruct (negb _); apply never_build_articulations];
    repeat first
      [ apply never_ret
      | apply never_XMLStep
      | apply never_XMLDuration
      | apply never_get_state
      | apply never_with_state
      | apply never_of_option; discriminate
      | apply never_raise; discriminate
      | apply never_bind; [|intros ?]
      | match goal with
        | |- never_raises _ (if ?b then _ else _) => destruct b
        | |- never_raises _ (match ?x with _ => _ end) => destruct x
        end ].
Qed.

Lemma never_build_note_chord (note_chord : Chord)
    (chord_duration : Fraction) :
  never_raises unknown_ending (build_note_chord note_chord chord_duration).
Proof.
  unfold build_note_chord.
  destruct (SymbolChord.strip_slur_ties note_chord) as [groups nc].
  apply never_bind.
  { unfold of_result, _group_notes. destruct (map _ _); [|apply never_ret].
    apply never_raise. discriminate. }
  intros by_duration. apply never_bind.
  - apply never_for_each. intros [result f] [i k].
    apply never_bind.
    + apply never_for_each. intros [r first] [note_loop slur_ties].
      apply never_bind; [apply never_build_note_or_rest|].
      intros xml. apply never_ret.
    + intros [r first]. apply never_bind; [apply never_get_state|].
      intros state. apply never_bind; [|intros r2; apply never_ret].
      destruct (_ && _); [|apply never_ret].
      apply never_bind; [apply never_backup|].
      intros b. apply never_ret.
  - intros [result final]. apply never_bind; [apply never_get_state|].
    intros state. destruct (frac_ltb _ _); [|apply never_ret].
    apply never_bind; [apply never_backup|]. intros b. apply never_ret.
Qed.

Lemma never_emit_positions (group : Chord) (measure : XMLElement) :
  never_raises unknown_ending (emit_positions group measure).
Proof.
  unfold emit_positions. apply never_for_each. intros m [i pos].
  apply never_bind; [apply never_build_note_chord|].
  intros notes. apply never_ret.
Qed.

Lemma never_item {A : Type} (l : list A) (i : nat) :
  never_raises unknown_ending (item l i).
Proof. unfold item. apply never_of_option. discriminate. Qed.

Lemma never_parse_int (s : string) :
  never_raises unknown_ending (parse_int s).
Proof. unfold parse_int. apply never_of_option. discriminate. Qed.

Lemma never_build_barline_ending (volta : Symbol) (xml : XMLElement)
    (volta_number : Z) :
  PyStr.startswith (EncodedSymbol.rhythm volta) "voltaStart"
  || (PyStr.startswith (EncodedSymbol.rhythm volta) "voltaStop"
      || PyStr.startswith (EncodedSymbol.rhythm volta) "voltaDiscontinue")
  = true →
  never_raises unknown_ending (build_barline_ending volta xml volta_number).
Proof.
  intros H. unfold build_barline_ending.
  destruct (PyStr.startswith _ "voltaStart"); [apply never_ret|].
  destruct (PyStr.startswith _ "voltaStop"); [apply never_ret|].
  destruct (PyStr.startswith _ "voltaDiscontinue"); [apply never_ret|].
  done.
Qed.

Lemma never_driver_step (n_groups : nat) (d : driver) (ig : nat * Chord) :
  never_raises unknown_ending (driver_step n_groups d ig).
Proof.
  destruct ig as [group_no group]. unfold driver_step.
  apply never_bind; [apply never_item|]. intros symbol.
  destruct (EncodedSymbol.is_note_or_rest symbol).
  { destruct (_ && _).
    - destruct (build_or_get_attributes _ _ _) as [current a].
      apply never_bind; [|intros ?; apply never_ret].
      apply never_update_child. intros child _.
      unfold build_multi_measure_rest.
      destruct (mxl.get_children_of_type _ _); [|apply never_ret].
      apply never_bind; [apply never_item|]. intros field.
      apply never_bind; [apply never_parse_int|]. intros duration.
      apply never_ret.
    - apply never_bind; [apply never_emit_positions|].
      intros ?. apply never_ret. }
  destruct (String.eqb _ "newline").
  { destruct (negb _); apply never_ret. }
  destruct (PyStr.startswith _ "clef").
  { destruct (build_or_get_attributes _ _ _) as [current a].
    apply never_bind; [|intros ?; apply never_ret].
    apply never_for_each. intros acc x.
    destruct (PyStr.startswith _ "clef"); [|apply never_ret].
    apply never_update_child. intros child _. unfold build_clef.
    apply never_bind; [apply never_item|]. intros sl.
    apply never_bind; [apply never_of_option; discriminate|]. intros sign.
    apply never_bind; [apply never_of_option; discriminate|]. intros line.
    apply never_bind; [apply never_parse_int|]. intros n.
    apply never_ret. }
  destruct (PyStr.startswith _ "keySignature").
  { destruct (build_or_get_attributes _ _ _) as [current a].
    apply never_bind; [|intros ?; apply never_ret].
    apply never_update_child. intros child _. unfold build_key.
    apply never_bind; [apply never_item|]. intros c.
    apply never_bind; [apply never_parse_int|]. intros n.
    apply never_ret. }
  destruct (PyStr.startswith _ "timeSignature").
  { destruct (build_or_get_attributes _ _ _) as [current a].
    apply never_bind; [|intros ?; apply never_ret].
    apply never_update_child. intros child _.
    unfold build_time_signature.
    apply never_bind; [apply never_item|]. intros den.
    apply never_bind; [apply never_get_state|]. intros state.
    apply never_bind; [apply never_parse_int|]. intros n.
    apply never_bind; [apply never_put_state|]. intros ?.
    apply never_ret. }
  destruct (PyStr.contains "barline" _); [apply never_ret|].
  destruct (String.eqb _ "repeatStart").
  { destruct (build_or_get_barline _ _). apply never_ret. }
  destruct (String.eqb _ "repeatEnd").
  { destruct (build_or_get_barline _ _). apply never_ret. }
  destruct (String.eqb _ "repeatEndStart").
  { destruct (build_or_get_barline _ _).
    destruct (build_or_get_barline _ _). apply never_ret. }
  destruct (PyStr.startswith _ "voltaStart") eqn:E1.
  { apply never_bind; [apply never_with_state|]. intros volta_number.
    destruct (build_or_get_barline _ _) as [current b].
    apply never_bind; [|intros ?; apply never_ret].
    apply never_update_child. intros child _.
    apply never_build_barline_ending. by rewrite E1. }
  destruct (_ || _) eqn:E2.
  { apply never_bind; [apply never_with_state|]. intros volta_number.
    destruct (build_or_get_barline _ _) as [current b].
    apply never_bind; [|intros ?; apply never_ret].
    apply never_update_child. intros child _.
    apply never_build_barline_ending. by rewrite E1, E2. }
  apply never_ret.
Qed.

(** X29: the error of [build_barline_ending] cannot be reached from
    [build_measures].  The driver calls [build_barline_ending] only for
    symbols whose rhythm starts with [voltaStart], [voltaStop] or
    [voltaDiscontinue], which are the three kinds the function knows:
    whatever the symbols of the part, [build_measures] does not fail
    with the "Unknown ending" error, and a symbol of any other kind is
    skipped. *)
Theorem unknown_ending_is_never_raised
    (sort_token_chords : list Symbol → list (list Symbol))
    (duration_of_quarter : Z) (args : XmlGeneratorArguments)
    (voice : list Symbol) (is_first_part : bool) :
  build_measures sort_token_chords duration_of_quarter args voice
                 is_first_part
  ≠ inl unknown_ending
  ∧ ∀ (volta : Symbol) (xml : XMLElement) (volta_number : Z) (st : State),
      build_barline_ending volta xml volta_number st = inl unknown_ending
      ↔ PyStr.startswith (EncodedSymbol.rhythm volta) "voltaStart"
        || (PyStr.startswith (EncodedSymbol.rhythm volta) "voltaStop"
            || PyStr.startswith (EncodedSymbol.rhythm volta)
                                "voltaDiscontinue")
        = false.
Proof.
  split.
  - unfold build_measures, run_driver.
    destruct (find_division_and_time_signature_nominator _)
      as [division nominator].
    match goal with
    | |- context [for_each ?b ?l ?a ?s] =>
        pose proof (never_for_each unknown_ending b l
                      (λ acc x, never_driver_step _ acc x) a s) as H;
        destruct (for_each b l a s) as [e|[d st]]
    end.
    + intros [= ->]. done.
    + done.
  - intros volta xml volta_number st. unfold build_barline_ending.
    destruct (PyStr.startswith _ "voltaStart"); [done|].
    destruct (PyStr.startswith _ "voltaStop"); [done|].
    destruct (PyStr.startswith _ "voltaDiscontinue"); done.
Qed.

End UnknownEnding.

(** ** What a chord adds to a measure *)

Section EmittedElements.

Lemma yields_ret {A : Type} (P : A → Prop) (a : A) :
  P a → yields P (mret a).
Proof. intros H st r st' E. by apply ret_inr in E as [-> _]. Qed.

Lemma yields_bind {A B : Type} (Q : A → Prop) (P : B → Prop) (m : M A)
    (k : A → M B) :
  yields Q m → (∀ a, Q a → yields P (k a)) → yields P (m ≫= k).
Proof.
  intros Hm Hk st r st' E. apply bind_inr in E as (a & s1 & E1 & E2).
  eapply Hk; [|exact E2]. by eapply Hm.
Qed.

Lemma yields_for_each {A B : Type} (P : B → Prop) (body : B → A → M B)
    (l : list A) :
  (∀ acc x, P acc → yields P (body acc x)) →
  ∀ acc, P acc → yields P (for_each body l acc).
Proof.
  intros Hbody. induction l as [|x l IH]; intros acc Hacc; simpl.
  - by apply yields_ret.
  - eapply yields_bind; [by apply Hbody|]. intros a Ha. by apply IH.
Qed.

Lemma cls_add_child (x e : XMLElement) :
  mxl.cls (mxl.add_child x e) = mxl.cls e.
Proof. by destruct e. Qed.

Lemma yields_backup (ticks : Z) :
  yields (λ b, mxl.cls b = "XMLBackup") (backup ticks).
Proof. intros st r st' E. by apply backup_inr in E as (-> & _). Qed.

Lemma build_note_or_rest_note (model_note : Symbol) (voice : Z)
    (is_chord : bool) (tuplet_mark : string) :
  yields (λ xml, mxl.cls xml = "XMLNote")
         (build_note_or_rest model_note voice is_chord tuplet_mark).
Proof.
  unfold build_note_or_rest.
  apply (yields_bind (λ xml, mxl.cls xml = "XMLNote")).
  { repeat match goal with
           | |- yields _ (if ?b then _ else _) => destruct b
           end;
      try (apply yields_ret; rewrite cls_add_child; by destruct is_chord).
    intros st r st' E.
    apply bind_inr in E as (x1 & s1 & _ & E).
    apply bind_inr in E as (x2 & s2 & _ & E).
    apply bind_inr in E as (x3 & s3 & _ & E).
    apply bind_inr in E as (x4 & s4 & _ & E).
    apply bind_inr in E as (x5 & s5 & _ & E).
    apply ret_inr in E as [-> _]. rewrite cls_add_child.
    by destruct is_chord. }
  intros note1 H1.
  apply (yields_bind (λ _, True)); [done|]. intros state _.
  apply (yields_bind (λ xml, mxl.cls xml = "XMLNote")).
  { repeat match goal with
           | |- yields _ (if ?b then _ else _) => destruct b
           end;
      intros st r st' E;
      try apply bind_inr in E as (x1 & s1 & _ & E);
      try apply bind_inr in E as (x2 & s2 & _ & E);
      apply ret_inr in E as [-> _]; by rewrite !cls_add_child. }
  intros note2 H2.
  set (note3 := mxl.add_child _ (mxl.add_child _ note2)).
  assert (H3 : mxl.cls note3 = "XMLNote")
    by (unfold note3; by rewrite !cls_add_child).
  set (note4 := match EncodedSymbol.beam model_note with
                | Some _ => _ | None => _ end).
  assert (H4 : mxl.cls note4 = "XMLNote").
  { unfold note4. destruct (EncodedSymbol.beam model_note); [|done].
    destruct (_ && _); [|done]. by rewrite cls_add_child. }
  set (note5 := foldl _ note4 _).
  assert (H5 : mxl.cls note5 = "XMLNote").
  { unfold note5. generalize (seq 0 (dots (EncodedSymbol.get_duration
                                             model_note))).
    clear -H4. revert H4. generalize note4.
    intros n Hn l. revert n Hn.
    induction l as [|k l IH]; intros n Hn; simpl; [done|].
    apply IH. by rewrite cls_add_child. }
  intros st r st' E.
  destruct (negb (actual_notes _ =? _));
    apply build_articulations_shape in E;
    apply (f_equal (λ s, s.1.1.1)) in E; simpl in E; rewrite E;
    by rewrite ?cls_add_child.
Qed.

Lemma build_note_chord_elements (note_chord : Chord)
    (chord_duration : Fraction) :
  yields (Forall note_or_backup)
         (build_note_chord note_chord chord_duration).
Proof.
  unfold build_note_chord.
  destruct (SymbolChord.strip_slur_ties note_chord) as [groups nc].
  apply (yields_bind (λ _, True)); [done|]. intros by_duration _.
  apply (yields_bind (λ rf, Forall note_or_backup rf.1)).
  - apply (yields_for_each (λ rf, Forall note_or_backup rf.1));
      [|by constructor].
    intros [result f] [i k] Hres. simpl in Hres.
    apply (yields_bind (λ rf, Forall note_or_backup rf.1)).
    + apply (yields_for_each (λ rf, Forall note_or_backup rf.1));
        [|done].
      intros [r first] [note_loop slur_ties] Hr. simpl in Hr.
      apply (yields_bind (λ xml, mxl.cls xml = "XMLNote"));
        [apply build_note_or_rest_note|].
      intros xml Hxml. apply yields_ret. simpl.
      apply Forall_app. split; [done|]. constructor; [by left|done].
    + intros [r first] Hr. simpl in Hr.
      apply (yields_bind (λ _, True)); [done|]. intros state _.
      apply (yields_bind (Forall note_or_backup));
        [|intros r2 Hr2; by apply yields_ret].
      destruct (_ && _); [|by apply yields_ret].
      apply (yields_bind (λ b, mxl.cls b = "XMLBackup")); [apply yields_backup|].
      intros b Hb. apply yields_ret.
      apply Forall_app. split; [done|]. constructor; [by right|done].
  - intros [result final] Hres. simpl in Hres.
    apply (yields_bind (λ _, True)); [done|]. intros state _.
    destruct (frac_ltb _ _); [|by apply yields_ret].
    apply (yields_bind (λ b, mxl.cls b = "XMLBackup")); [apply yields_backup|].
    intros b Hb. apply yields_ret.
    apply Forall_app. split; [done|]. constructor; [by right|done].
Qed.

(** X30: a chord adds notes and backups to the measure, and nothing
    else.  [emit_positions] leaves the children that the measure has
    untouched and appends elements that are notes or backups: the
    cursor is never moved with a forward element, and no attributes,
    barline or direction is added while a chord of notes or rests is
    converted. *)
Theorem chord_adds_notes_and_backups (group : Chord) (measure : XMLElement)
    (st : State) (measure' : XMLElement) (st' : State) :
  emit_positions group measure st = inr (measure', st') →
  mxl.cls measure' = mxl.cls measure
  ∧ mxl.attrs measure' = mxl.attrs measure
  ∧ ∃ new,
      mxl.get_children measure'
      = mxl.get_children measure ++ new
      ∧ Forall (λ e, mxl.cls e = "XMLNote" ∨ mxl.cls e = "XMLBackup") new.
Proof.
  unfold emit_positions.
  apply (yields_for_each
           (λ m, mxl.cls m = mxl.cls measure
                 ∧ mxl.attrs m = mxl.attrs measure
                 ∧ ∃ new, mxl.get_children m
                          = mxl.get_children measure ++ new
                          ∧ Forall note_or_backup new)).
  - intros m [i pos] (Hc & Ha & new & Hch & Hnew).
    apply (yields_bind (Forall note_or_backup));
      [apply build_note_chord_elements|].
    intros notes Hnotes. apply yields_ret.
    destruct (add_all_head notes m) as [H1 H2].
    rewrite H1, H2. split; [done|]. split; [done|].
    exists (new ++ notes). rewrite children_add_all, Hch, <- app_assoc.
    split; [done|]. by apply Forall_app.
  - split; [done|]. split; [done|]. exists []. by rewrite app_nil_r.
Qed.

Lemma chord_adds_notes_and_backups_witness :
  match emit_positions Scenario.two_staves (mxl.elem "XMLMeasure")
                       (ConversionState.init 16 8 1%Qc) with
  | inr (measure', _) =>
      mxl.cls measure' = "XMLMeasure"
      ∧ mxl.attrs measure' = []
      ∧ ∃ new,
          mxl.get_children measure' = [] ++ new
          ∧ Forall (λ e, mxl.cls e = "XMLNote" ∨ mxl.cls e = "XMLBackup")
                   new
  | inl _ => False
  end.
Proof.
  destruct (emit_positions Scenario.two_staves (mxl.elem "XMLMeasure")
              (ConversionState.init 16 8 1%Qc)) as [e|[measure' st']] eqn:H.
  - vm_compute in H. discriminate H.
  - exact (chord_adds_notes_and_backups _ _ _ _ _ H).
Defined.

End EmittedElements.

(** ** Tuplet brackets in the document *)

Section NoteTuplets.

Lemma of_type_add_child (c : string) (x e : XMLElement) :
  mxl.get_children_of_type c (mxl.add_child x e)
  = mxl.get_children_of_type c e
    ++ (if mxl.isinstance x c then [x] else []).
Proof.
  destruct e as [c0 a v ch]. unfold mxl.get_children_of_type. simpl.
  rewrite List.filter_app. simpl. by destruct (mxl.isinstance x c).
Qed.

Lemma of_type_add_other (c : string) (x e : XMLElement) :
  mxl.isinstance x c = false →
  mxl.get_children_of_type c (mxl.add_child x e)
  = mxl.get_children_of_type c e.
Proof. intros H. by rewrite of_type_add_child, H, app_nil_r. Qed.

(** The notations element is the only child that carries brackets. *)
Lemma note_tuplets_add_notations (children : list XMLElement)
    (note : XMLElement) :
  mxl.get_children_of_type "XMLNotations" note = [] →
  note_tuplets (mxl.add_child (XMLNode "XMLNotations" [] None children) note)
  = map (λ m, mxl.str (mxl.get_attr "type" m))
        (List.filter (λ e, mxl.isinstance e "XMLTuplet") children).
Proof.
  intros Hnone. unfold note_tuplets, marks_of_note.
  rewrite of_type_add_child, Hnone. simpl. rewrite app_nil_r.
  rewrite map_map. done.
Qed.

(** The loop over the articulations collects no tuplet element. *)
Lemma articulation_step_tuplets (note : XMLElement) (staff voice : option Z)
    (acc : art_acc) (a : string) :
  List.filter (λ e, mxl.isinstance e "XMLTuplet") (notation acc) = [] →
  yields (λ acc', List.filter (λ e, mxl.isinstance e "XMLTuplet")
                              (notation acc') = [])
         (articulation_step note staff voice acc a).
Proof.
  intros Hacc.
  assert (Hadd : ∀ e, mxl.isinstance e "XMLTuplet" = false →
            List.filter (λ e, mxl.isinstance e "XMLTuplet")
                        (notation (to_notation e acc)) = []).
  { intros e He. simpl. rewrite List.filter_app, Hacc. simpl.
    by rewrite He. }
  unfold articulation_step.
  repeat match goal with
         | |- yields _ (if ?b then _ else _) => destruct b
         end;
    try (intros st r st' E; discriminate E);
    repeat first
      [ apply yields_ret; first [exact Hacc | by apply Hadd]
      | eapply (yields_bind (λ _, True)); [done|intros ? _]
      | match goal with
        | |- yields _ (match ?x with _ => _ end) => destruct x
        end ].
Qed.

Lemma build_articulations_tuplets (note : XMLElement)
    (articualations tuplet_mark : string) (staff voice : option Z) :
  mxl.get_children_of_type "XMLNotations" note = [] →
  yields (λ xml, mxl.cls xml = mxl.cls note
                 ∧ note_tuplets xml
                   = if negb (String.eqb tuplet_mark "")
                     then [tuplet_mark] else [])
         (build_articulations note articualations tuplet_mark staff voice).
Proof.
  intros Hnone. unfold build_articulations.
  apply (yields_bind
           (λ acc, List.filter (λ e, mxl.isinstance e "XMLTuplet")
                               (notation acc) = [])).
  - apply yields_for_each; [|done]. intros acc x Hacc.
    by apply articulation_step_tuplets.
  - intros acc Hacc. apply yields_ret. split; [by destruct note|].
    rewrite note_tuplets_add_notations by done.
    destruct (xml_articulations acc), (xml_ornaments acc),
      (negb (String.eqb tuplet_mark ""));
      rewrite ?List.filter_app, Hacc; done.
Qed.

End NoteTuplets.

Section EmittedTuplets.

Lemma bare_add (x e : XMLElement) :
  mxl.isinstance x "XMLNotations" = false → bare_note e →
  bare_note (mxl.add_child x e).
Proof.
  intros Hx [H1 H2]. split; [by rewrite cls_add_child|].
  by rewrite of_type_add_other.
Qed.

Lemma build_note_or_rest_tuplets (model_note : Symbol) (voice : Z)
    (is_chord : bool) (tuplet_mark : string) :
  yields (λ xml, mxl.cls xml = "XMLNote"
                 ∧ note_tuplets xml = written_mark tuplet_mark model_note)
         (build_note_or_rest model_note voice is_chord tuplet_mark).
Proof.
  unfold build_note_or_rest.
  assert (H0 : bare_note (if is_chord
                     then mxl.add_child (mxl.elem "XMLChord")
                                        (mxl.elem "XMLNote")
                     else mxl.elem "XMLNote"))
    by (by destruct is_chord).
  apply (yields_bind bare_note).
  { repeat match goal with
           | |- yields _ (if ?b then _ else _) => destruct b
           end;
      try (apply yields_ret; by apply bare_add).
    intros st r st' E.
    apply bind_inr in E as (x1 & s1 & _ & E).
    apply bind_inr in E as (x2 & s2 & _ & E).
    apply bind_inr in E as (x3 & s3 & _ & E).
    apply bind_inr in E as (x4 & s4 & _ & E).
    apply bind_inr in E as (x5 & s5 & E5 & E).
    apply ret_inr in E as [-> _]. apply bare_add; [|done].
    destruct (String.eqb (EncodedSymbol.lift model_note) nonote).
    { by apply ret_inr in E5 as [-> _]. }
    destruct (negb _).
    - apply bind_inr in E5 as (alter & t5 & _ & E5).
      by apply ret_inr in E5 as [-> _].
    - by apply ret_inr in E5 as [-> _]. }
  intros note1 H1.
  apply (yields_bind (λ _, True)); [done|]. intros state _.
  apply (yields_bind bare_note).
  { repeat match goal with
           | |- yields _ (if ?b then _ else _) => destruct b
           end;
      intros st r st' E.
    - apply bind_inr in E as (x1 & s1 & _ & E).
      apply ret_inr in E as [-> _]. by repeat apply bare_add.
    - apply bind_inr in E as (x1 & s1 & _ & E).
      apply bind_inr in E as (x2 & s2 & E2 & E).
      apply XMLDuration_inr in E2 as (-> & _).
      apply ret_inr in E as [-> _]. by repeat apply bare_add.
    - apply bind_inr in E as (x2 & s2 & E2 & E).
      apply XMLDuration_inr in E2 as (-> & _).
      apply ret_inr in E as [-> _]. by repeat apply bare_add. }
  intros note2 H2.
  set (note3 := mxl.add_child _ (mxl.add_child _ note2)).
  assert (H3 : bare_note note3) by (unfold note3; by repeat apply bare_add).
  set (note4 := match EncodedSymbol.beam model_note with
                | Some _ => _ | None => _ end).
  assert (H4 : bare_note note4).
  { unfold note4. destruct (EncodedSymbol.beam model_note); [|done].
    destruct (_ && _); [|done]. by apply bare_add. }
  set (note5 := foldl _ note4 _).
  assert (H5 : bare_note note5).
  { unfold note5. generalize (seq 0 (dots (EncodedSymbol.get_duration
                                             model_note))).
    clear -H4. revert H4. generalize note4.
    intros n Hn l. revert n Hn.
    induction l as [|k l IH]; intros n Hn; simpl; [done|].
    apply IH. by apply bare_add. }
  unfold written_mark.
  destruct (negb (actual_notes _ =? _)).
  - intros st r st' E.
    apply build_articulations_tuplets in E as [Hc Ht];
      [|by apply bare_add].
    rewrite Hc, cls_add_child. split; [apply H5|]. by rewrite Ht.
  - intros st r st' E.
    apply build_articulations_tuplets in E as [Hc Ht]; [|apply H5].
    rewrite Hc. split; [apply H5|]. by rewrite Ht.
Qed.

End EmittedTuplets.

Section ChordTuplets.

Lemma tuplets_of_app (a b : list XMLElement) :
  tuplets_of (a ++ b) = tuplets_of a ++ tuplets_of b.
Proof. unfold tuplets_of. by rewrite List.filter_app, flat_map_app. Qed.

Lemma tuplets_of_note (xml : XMLElement) :
  mxl.cls xml = "XMLNote" → tuplets_of [xml] = note_tuplets xml.
Proof.
  intros H. unfold tuplets_of, mxl.isinstance. simpl. rewrite H. simpl.
  by rewrite app_nil_r.
Qed.

Lemma written_mark_retagged (tuplet_mark : string)
    (t : Symbol * list string) :
  written_mark tuplet_mark (retagged t) = written_mark tuplet_mark t.1.
Proof. unfold retagged. by destruct t.2. Qed.

(** The notes of one duration class carry the brackets of their
    symbols. *)
Lemma class_loop_tuplets (voice : Z) (tuplet_mark : string)
    (l : list (Symbol * list string)) :
  ∀ (result : list XMLElement) (is_first : bool) (st : State)
    (result' : list XMLElement) (is_first' : bool) (st' : State),
    for_each
      (λ '(result, is_first) '(note_loop, slur_ties),
         let note :=
           match slur_ties with
           | [] => note_loop
           | _ => EncodedSymbol.add_articulations slur_ties note_loop
           end in
         xml ← build_note_or_rest note voice (negb is_first) tuplet_mark;
         mret (result ++ [xml], false))
      l (result, is_first) st = inr ((result', is_first'), st') →
    tuplets_of result'
    = tuplets_of result ++ flat_map (written_mark tuplet_mark) (map fst l).
Proof.
  induction l as [|[note_loop slur_ties] l IH];
    intros result is_first st result' is_first' st' H; simpl in H.
  - apply ret_inr in H as [[= -> ->] ->]. by rewrite app_nil_r.
  - apply bind_inr in H as ([r1 f1] & s1 & H1 & H).
    apply bind_inr in H1 as (xml & s2 & Hxml & H1).
    apply ret_inr in H1 as [[= -> ->] ->].
    apply build_note_or_rest_tuplets in Hxml as [Hcls Hxml].
    apply IH in H. rewrite H, tuplets_of_app, (tuplets_of_note _ Hcls), Hxml.
    change (written_mark tuplet_mark
              match slur_ties with
              | [] => note_loop
              | _ :: _ => EncodedSymbol.add_articulations slur_ties note_loop
              end)
      with (written_mark tuplet_mark (retagged (note_loop, slur_ties))).
    rewrite written_mark_retagged. simpl. by rewrite <- app_assoc.
Qed.

Lemma backup_tuplets (ticks : Z) (st : State) (b : XMLElement)
    (st' : State) :
  backup ticks st = inr (b, st') → tuplets_of [b] = [].
Proof. intros H. by apply backup_inr in H as (-> & _). Qed.

(** The brackets written for a sub-chord are those of symbols, among
    which are all the symbols of the sub-chord. *)
Lemma build_note_chord_tuplets (note_chord : Chord)
    (chord_duration : Fraction) (st : State) (result : list XMLElement)
    (st' : State) :
  build_note_chord note_chord chord_duration st = inr (result, st') →
  ∃ ss, tuplets_of result
        = flat_map (written_mark (SymbolChord.tuplet_mark note_chord)) ss
        ∧ ∀ s, s ∈ SymbolChord.symbols note_chord →
               ∃ s', s' ∈ ss
                     ∧ EncodedSymbol.get_duration s'
                       = EncodedSymbol.get_duration s.
Proof.
  intros H.
  unfold build_note_chord, SymbolChord.strip_slur_ties in H.
  cbn [SymbolChord.symbols SymbolChord.tuplet_mark] in H.
  rewrite zip_strip in H.
  set (strip := EncodedSymbol.strip_articulations _) in H.
  set (tagged := map (λ x, ((strip x).2, (strip x).1))
                     (SymbolChord.symbols note_chord)) in H.
  apply bind_inr in H as (by_duration & s0 & Hgroup & H).
  unfold _group_notes in Hgroup.
  destruct (map _ tagged) as [|x r] eqn:Hmap; [done|].
  set (max_duration := foldl frac_max x r) in Hgroup.
  apply ret_inr in Hgroup as [-> ->].
  set (by_duration := foldl _ [] tagged) in H.
  set (keys := sorted (map fst by_duration)) in H.
  apply bind_inr in H as ([result1 final_duration] & s1 & Hloop & H).
  apply bind_inr in H as (state & s2 & Hget & H).
  unfold get_state in Hget. injection Hget as <- <-.
  set (mark := SymbolChord.tuplet_mark note_chord) in *.
  pose (P := λ (pre : list (nat * Fraction))
               (acc : list XMLElement * Fraction) (s : State),
          tuplets_of acc.1
          = flat_map (written_mark mark)
                     (flat_map (λ ik, map fst (dict_get ik.2 by_duration))
                               pre)).
  assert (HP : P (imap (λ i k, (i, k)) keys) (result1, final_duration) s1).
  { revert Hloop. apply for_each_ind; [|done].
    intros pre [i k] rest [res fin] s [res' fin'] s' Hl HP Hbody.
    unfold P in *. simpl in Hbody, HP.
    apply bind_inr in Hbody as ([r1 f1] & s3 & Hinner & Hbody).
    apply bind_inr in Hbody as (state & s4 & Hget' & Hbody).
    unfold get_state in Hget'. injection Hget' as <- <-.
    apply bind_inr in Hbody as (r2 & s5 & Hback & Hbody).
    apply ret_inr in Hbody as [[= -> ->] ->].
    apply class_loop_tuplets in Hinner.
    assert (Hr2 : tuplets_of r2 = tuplets_of r1).
    { destruct (_ && _).
      - apply bind_inr in Hback as (b & s6 & Hb & Hback).
        apply ret_inr in Hback as [-> _].
        by rewrite tuplets_of_app, (backup_tuplets _ _ _ _ Hb), app_nil_r.
      - by apply ret_inr in Hback as [-> _]. }
    simpl. rewrite Hr2, Hinner, HP, !flat_map_app. simpl.
    by rewrite app_nil_r. }
  unfold P in HP. simpl in HP.
  exists (flat_map (λ ik : nat * Fraction, map fst (dict_get ik.2 by_duration))
                   (imap (λ i k, (i, k)) keys)).
  split.
  - destruct (frac_ltb chord_duration final_duration).
    + apply bind_inr in H as (b & s6 & Hb & H).
      apply ret_inr in H as [-> _].
      by rewrite tuplets_of_app, (backup_tuplets _ _ _ _ Hb), app_nil_r.
    + by apply ret_inr in H as [-> _].
  - intros s Hs.
    set (t := ((strip s).2, (strip s).1)).
    assert (Ht : t ∈ tagged).
    { unfold tagged. apply list_elem_of_fmap. by exists s. }
    exists t.1. split; [|done].
    apply list_elem_of_In, in_flat_map.
    set (k := group_key fst max_duration t).
    assert (Hk : k ∈ keys).
    { apply sorted_elem, group_keys. by exists t. }
    apply list_elem_of_lookup in Hk as [i Hi].
    exists (i, k). split.
    + apply list_elem_of_In, elem_of_lookup_imap. by exists i, k.
    + apply list_elem_of_In, list_elem_of_fmap. exists t. split; [done|].
      unfold by_duration. rewrite group_get.
      apply list_elem_of_filter. by split.
Qed.

End ChordTuplets.

Section PositionTuplets.

(** Every symbol of a chord is in one of its staff positions, and the
    positions carry the mark of the chord. *)
Lemma into_positions_covers (c : Chord) (s : Symbol) :
  s ∈ SymbolChord.symbols c →
  ∃ p, p ∈ SymbolChord.into_positions c ∧ s ∈ SymbolChord.symbols p.
Proof.
  intros Hs. unfold SymbolChord.into_positions, SymbolChord.split_positions.
  set (upper := filter (λ a, SymbolChord.is_upper id a = true) _).
  set (lower := filter (λ a, SymbolChord.is_upper id a = false) _).
  assert (Hin : s ∈ upper ∨ s ∈ lower).
  { destruct (SymbolChord.is_upper id s) eqn:E; [left|right];
      by apply list_elem_of_filter. }
  assert (Hl : ∃ l, l ∈ [upper; lower] ∧ s ∈ l)
    by (destruct Hin; [exists upper|exists lower]; set_solver).
  destruct Hl as (l & Hl & Hsl).
  exists {| SymbolChord.symbols := l;
            SymbolChord.tuplet_mark := SymbolChord.tuplet_mark c |}.
  split; [|done]. apply list_elem_of_fmap. exists l. split; [done|].
  apply list_elem_of_filter. split.
  - destruct l; [by apply elem_of_nil in Hsl|simpl; lia].
  - destruct (forallb _ _); set_solver.
Qed.

Lemma into_positions_mark (c p : Chord) :
  p ∈ SymbolChord.into_positions c →
  SymbolChord.tuplet_mark p = SymbolChord.tuplet_mark c.
Proof.
  unfold SymbolChord.into_positions. intros H.
  by apply list_elem_of_fmap in H as (l & -> & _).
Qed.

(** The brackets written for a chord that is converted into notes. *)
Lemma emit_positions_tuplets (group : Chord) (measure : XMLElement)
    (st : State) (measure' : XMLElement) (st' : State) :
  emit_positions group measure st = inr (measure', st') →
  ∃ new ss,
    mxl.get_children measure' = mxl.get_children measure ++ new
    ∧ tuplets_of new
      = flat_map (written_mark (SymbolChord.tuplet_mark group)) ss
    ∧ ∀ s, s ∈ SymbolChord.symbols group →
           ∃ s', s' ∈ ss
                 ∧ EncodedSymbol.get_duration s'
                   = EncodedSymbol.get_duration s.
Proof.
  unfold emit_positions. intros H.
  set (mark := SymbolChord.tuplet_mark group).
  pose (P := λ (pre : list (nat * Chord)) (m : XMLElement) (s : State),
          ∃ new ss,
            mxl.get_children m = mxl.get_children measure ++ new
            ∧ tuplets_of new = flat_map (written_mark mark) ss
            ∧ ∀ ip s, ip ∈ pre → s ∈ SymbolChord.symbols ip.2 →
                      ∃ s', s' ∈ ss
                            ∧ EncodedSymbol.get_duration s'
                              = EncodedSymbol.get_duration s).
  assert (HP : P (imap (λ i p, (i, p)) (SymbolChord.into_positions group))
                 measure' st').
  { revert H. apply for_each_ind.
    - intros pre [i pos] rest m s m' s' Hl (new & ss & Hch & Hnew & Hcov)
        Hbody.
      assert (Hin : (i, pos) ∈ imap (λ i p, (i, p))
                                    (SymbolChord.into_positions group))
        by (rewrite Hl; set_solver).
      apply elem_of_lookup_imap in Hin as (j & p & [= -> ->] & Hp).
      apply list_elem_of_lookup_2, into_positions_mark in Hp.
      simpl in Hbody.
      apply bind_inr in Hbody as (notes & s1 & Hnotes & Hbody).
      apply ret_inr in Hbody as [-> ->].
      apply build_note_chord_tuplets in Hnotes as (ss1 & Hss1 & Hcov1).
      rewrite Hp in Hss1. fold mark in Hss1.
      exists (new ++ notes), (ss ++ ss1).
      rewrite children_add_all, Hch, <- app_assoc.
      split; [done|]. split.
      + by rewrite tuplets_of_app, flat_map_app, Hnew, Hss1.
      + intros ip s0 Hip Hs0. apply elem_of_app in Hip as [Hip|Hip].
        * destruct (Hcov ip s0 Hip Hs0) as (s0' & H1 & H2).
          exists s0'. split; [|done]. apply elem_of_app. by left.
        * apply list_elem_of_singleton in Hip as ->.
          destruct (Hcov1 s0 Hs0) as (s0' & H1 & H2).
          exists s0'. split; [|done]. apply elem_of_app. by right.
    - exists [], []. rewrite app_nil_r. split; [done|]. split; [done|].
      intros ip s0 Hip. by apply elem_of_nil in Hip. }
  destruct HP as (new & ss & Hch & Hnew & Hcov).
  exists new, ss. split; [done|]. split; [done|].
  intros s Hs. apply into_positions_covers in Hs as (p & Hp & Hsp).
  apply list_elem_of_lookup in Hp as [i Hi].
  apply (Hcov (i, p) s); [|done].
  apply elem_of_lookup_imap. by exists i, p.
Qed.

End PositionTuplets.

Section MeasureNotes.

Lemma filter_alter_other {A : Type} (p : A → bool) (f : A → A) (i : nat)
    (l : list A) :
  (∀ e, l !! i = Some e → p e = false ∧ p (f e) = false) →
  List.filter p (alter f i l) = List.filter p l.
Proof.
  revert i. induction l as [|x l IH]; intros i H; [done|].
  destruct i as [|i].
  - simpl. destruct (H x eq_refl) as [-> ->]. done.
  - change (alter f (S i) (x :: l)) with (x :: alter f i l).
    cbn [List.filter]. rewrite IH; [done|]. intros e He. by apply H.
Qed.

Lemma notes_alter_child (c : string) (f : XMLElement → XMLElement)
    (i : nat) (m : XMLElement) :
  c ≠ "XMLNote" → (∀ e, mxl.cls (f e) = mxl.cls e) →
  (∃ e, mxl.get_children m !! i = Some e ∧ mxl.cls e = c) →
  mxl.get_children_of_type "XMLNote" (mxl.alter_child f i m)
  = mxl.get_children_of_type "XMLNote" m.
Proof.
  intros Hc Hf (e & He & Hce). destruct m as [c0 a v ch].
  unfold mxl.get_children_of_type. simpl in *.
  apply filter_alter_other. intros e' He'.
  assert (e' = e) as -> by congruence.
  unfold mxl.isinstance. rewrite Hf, Hce.
  by apply String.eqb_neq in Hc as ->.
Qed.

Lemma notes_update_child (c : string) (f : XMLElement → M XMLElement)
    (i : nat) (m : XMLElement) (st : State) (m' : XMLElement)
    (st' : State) :
  c ≠ "XMLNote" → keeps_cls f →
  (∃ e, mxl.get_children m !! i = Some e ∧ mxl.cls e = c) →
  update_child f i m st = inr (m', st') →
  mxl.get_children_of_type "XMLNote" m'
  = mxl.get_children_of_type "XMLNote" m.
Proof.
  intros Hc Hf (e & He & Hce) H. unfold update_child in H.
  rewrite He in H. apply bind_inr in H as (e' & s1 & Hfe & H).
  apply ret_inr in H as [-> _].
  destruct m as [c0 a v ch]. unfold mxl.get_children_of_type.
  simpl in *. apply filter_alter_other. intros e0 He0.
  assert (e0 = e) as -> by congruence.
  unfold mxl.isinstance. rewrite (Hf _ _ _ _ Hfe), Hce.
  by apply String.eqb_neq in Hc as ->.
Qed.

Lemma build_or_get_attributes_notes (m : XMLElement)
    (last_attributes : option nat) (force_new : bool) :
  mxl.get_children_of_type "XMLNote"
    (build_or_get_attributes m last_attributes force_new).1
  = mxl.get_children_of_type "XMLNote" m.
Proof.
  unfold build_or_get_attributes.
  destruct last_attributes as [a|]; [destruct (_ || _)|]; simpl;
    try done; by rewrite of_type_add_other.
Qed.

Lemma build_or_get_barline_notes (m : XMLElement) (location : string) :
  mxl.get_children_of_type "XMLNote" (build_or_get_barline m location).1
  = mxl.get_children_of_type "XMLNote" m
  ∧ ∃ e, mxl.get_children (build_or_get_barline m location).1
         !! (build_or_get_barline m location).2 = Some e
         ∧ mxl.cls e = "XMLBarline".
Proof.
  unfold build_or_get_barline.
  destruct (find_index _ _) as [i|] eqn:E; simpl.
  - split; [done|]. apply find_index_Some in E as (x & Hx & Hp).
    exists x. split; [done|]. apply andb_true_iff in Hp as [Hp _].
    by apply String.eqb_eq in Hp.
  - split; [by rewrite of_type_add_other|].
    destruct m as [c a v ch]. simpl.
    exists (mxl.elem_a "XMLBarline" [("location", VStr location)]).
    split; [|done]. by rewrite lookup_app_r, Nat.sub_diag.
Qed.

Lemma keeps_cls_barline_ending (volta : Symbol) (volta_number : Z) :
  keeps_cls (λ xml, build_barline_ending volta xml volta_number).
Proof.
  intros e st e' st' H. unfold build_barline_ending in H.
  repeat match type of H with
         | (if ?b then _ else _) _ = _ => destruct b
         end; try done;
    apply ret_inr in H as [-> _]; by destruct e.
Qed.

Lemma cls_barline_style (barline : Symbol) (e : XMLElement) :
  mxl.cls (build_barline_style barline e) = mxl.cls e.
Proof. by destruct e. Qed.

Lemma cls_repeat (rhythm : string) (e : XMLElement) :
  mxl.cls (build_repeat rhythm e) = mxl.cls e.
Proof.
  unfold build_repeat. destruct (mxl.get_children_of_type _ e); [|done].
  by destruct e.
Qed.

Lemma tuplet_types_app (ms ms' : list XMLElement) :
  tuplet_types (ms ++ ms') = tuplet_types ms ++ tuplet_types ms'.
Proof.
  unfold tuplet_types, marks_of. by rewrite flat_map_app, map_app.
Qed.

Lemma tuplet_types_measure (m : XMLElement) :
  tuplet_types [m]
  = flat_map note_tuplets (mxl.get_children_of_type "XMLNote" m).
Proof.
  unfold tuplet_types, marks_of. simpl. rewrite app_nil_r.
  induction (mxl.get_children_of_type "XMLNote" m) as [|x l IH]; [done|].
  simpl. by rewrite map_app, IH.
Qed.

Lemma tuplet_types_children (m : XMLElement) :
  tuplet_types [m] = tuplets_of (mxl.get_children m).
Proof. apply tuplet_types_measure. Qed.

End MeasureNotes.

Section DriverTuplets.

Lemma tuplets_continue (m : XMLElement) (a : option nat) (d : driver) :
  mxl.get_children_of_type "XMLNote" m
  = mxl.get_children_of_type "XMLNote" (current_measure d) →
  tuplet_types (measures (continue_with m a d)
                ++ [current_measure (continue_with m a d)])
  = tuplet_types (measures d ++ [current_measure d]).
Proof.
  intros H. simpl. by rewrite !tuplet_types_app, !tuplet_types_measure, H.
Qed.

Lemma tuplets_next (m : XMLElement) (d : driver) :
  mxl.get_children_of_type "XMLNote" m
  = mxl.get_children_of_type "XMLNote" (current_measure d) →
  tuplet_types (measures (next_measure m d)
                ++ [current_measure (next_measure m d)])
  = tuplet_types (measures d ++ [current_measure d]).
Proof.
  intros H. simpl.
  rewrite !tuplet_types_app, !tuplet_types_measure, H. simpl.
  by rewrite app_nil_r.
Qed.

Lemma written_mark_In (tuplet_mark type : string) (s : Symbol) :
  In type (written_mark tuplet_mark s) → type = tuplet_mark.
Proof.
  unfold written_mark.
  destruct (negb (_ =? _) && negb (String.eqb tuplet_mark ""));
    simpl; [|done]. by intros [<-|[]].
Qed.

Lemma no_brackets (group : Chord) :
  emitted_as_notes group = false → chord_brackets group [].
Proof. intros H. split; [constructor|]. split; [done|]. congruence. Qed.

(** What one chord adds to the brackets of the document. *)
Lemma driver_step_tuplets (n_groups : nat) (d : driver) (gi : nat)
    (group : Chord) (st : State) (d' : driver) (st' : State) :
  driver_ok d → driver_step n_groups d (gi, group) st = inr (d', st') →
  ∃ part,
    tuplet_types (measures d' ++ [current_measure d'])
    = tuplet_types (measures d ++ [current_measure d]) ++ part
    ∧ chord_brackets group part.
Proof.
  intros Hd H. unfold driver_step in H.
  apply bind_inr in H as (symbol & s0 & Hsym & H).
  apply of_option_inr in Hsym as [Hsym ->].
  assert (Hsyms : ∃ rest, SymbolChord.symbols group = symbol :: rest).
  { destruct (SymbolChord.symbols group) as [|x rest]; [done|].
    injection Hsym as ->. by exists rest. }
  destruct Hsyms as [rest Hsyms].
  pose proof (ok_current _ Hd) as Hcur.
  pose proof (ok_attributes _ Hd) as Hattr.
  assert (Hsame : tuplet_types (measures d' ++ [current_measure d'])
                  = tuplet_types (measures d ++ [current_measure d]) →
                  emitted_as_notes group = false →
                  ∃ part,
                    tuplet_types (measures d' ++ [current_measure d'])
                    = tuplet_types (measures d ++ [current_measure d])
                      ++ part
                    ∧ chord_brackets group part).
  { intros HT He. exists []. rewrite app_nil_r. split; [done|].
    by apply no_brackets. }
  assert (Hemitted : emitted_as_notes group
                     = EncodedSymbol.is_note_or_rest symbol
                       && negb ((length (SymbolChord.symbols group) =? 1)%nat
                                && PyStr.endswith
                                     (EncodedSymbol.rhythm symbol) "m")).
  { unfold emitted_as_notes. by rewrite Hsyms. }
  destruct (EncodedSymbol.is_note_or_rest symbol) eqn:Hnr.
  { simpl in Hemitted.
    destruct ((length (SymbolChord.symbols group) =? 1)%nat
              && PyStr.endswith (EncodedSymbol.rhythm symbol) "m") eqn:Hmm;
      simpl in Hemitted.
    - destruct (build_or_get_attributes_ok _ (current_measure d)
                  (attributes d) false Hcur Hattr) as [Hn Ha].
      pose proof (build_or_get_attributes_notes (current_measure d)
                    (attributes d) false) as HN.
      destruct (build_or_get_attributes _ _ _) as [current a].
      cbn [fst snd] in Hn, Ha, HN.
      apply bind_inr in H as (current' & s1 & Hup & H).
      apply ret_inr in H as [-> _].
      apply Hsame; [|done]. apply tuplets_continue. rewrite <- HN.
      eapply (notes_update_child "XMLAttributes");
        [done|apply keeps_cls_multi_measure_rest|exact Ha|exact Hup].
    - apply bind_inr in H as (current' & s1 & Hemit & H).
      apply ret_inr in H as [-> _].
      apply emit_positions_tuplets in Hemit as (new & ss & Hch & Hnew & Hcov).
      exists (tuplets_of new). split.
      + simpl. rewrite !tuplet_types_app, !tuplet_types_children, Hch.
        by rewrite tuplets_of_app, app_assoc.
      + rewrite Hnew. split; [|split].
        * apply Forall_forall. intros type Htype.
          apply list_elem_of_In, in_flat_map in Htype as (s & _ & Hs).
          by apply written_mark_In in Hs.
        * intros [He|Hmark]; [by rewrite Hemitted in He|].
          rewrite Hmark. clear. induction ss as [|s ss IH]; [done|].
          simpl. rewrite IH. unfold written_mark. simpl.
          by rewrite andb_false_r.
        * intros _ Htuplet Hmark. unfold tuplet_chord in Htuplet.
          apply existsb_exists in Htuplet as (s & Hs & Hratio).
          apply andb_true_iff in Hratio as [_ Hratio].
          apply list_elem_of_In in Hs.
          destruct (Hcov s Hs) as (s' & Hs' & Hdur).
          intros Hnil.
          assert (Hin : SymbolChord.tuplet_mark group
                        ∈ flat_map (written_mark
                                      (SymbolChord.tuplet_mark group)) ss).
          { apply list_elem_of_In, in_flat_map. exists s'.
            split; [by apply list_elem_of_In|].
            unfold written_mark. rewrite Hdur, Hratio.
            apply String.eqb_neq in Hmark. rewrite Hmark. by left. }
          rewrite Hnil in Hin. by apply elem_of_nil in Hin. }
  assert (He : emitted_as_notes group = false) by (by rewrite Hemitted).
  clear Hemitted.
  destruct (String.eqb _ "newline").
  { destruct (negb _); apply ret_inr in H as [-> _];
      (apply Hsame; [|done]); apply tuplets_continue; [|done].
    by rewrite of_type_add_other. }
  destruct (PyStr.startswith _ "clef").
  { destruct (build_or_get_attributes_ok _ (current_measure d)
                (attributes d) true Hcur Hattr) as [Hn Ha].
    pose proof (build_or_get_attributes_notes (current_measure d)
                  (attributes d) true) as HN.
    destruct (build_or_get_attributes _ _ _) as [current a].
    cbn [fst snd] in Hn, Ha, HN.
    apply bind_inr in H as (current' & s1 & Hloop & H).
    apply ret_inr in H as [-> _].
    apply Hsame; [|done]. apply tuplets_continue. rewrite <- HN.
    assert (Hboth : attributes_at a current'
                    ∧ mxl.get_children_of_type "XMLNote" current'
                      = mxl.get_children_of_type "XMLNote" current);
      [|by destruct Hboth].
    revert Hloop.
    apply (for_each_ind _ (λ _ m _,
             attributes_at a m
             ∧ mxl.get_children_of_type "XMLNote" m
               = mxl.get_children_of_type "XMLNote" current)); [|done].
    intros pre x rest' acc s acc' s' _ [Hacc1 Hacc2] Hbody.
    destruct (PyStr.startswith _ "clef").
    - split.
      + eapply attributes_at_update_child; [apply keeps_cls_clef|done|done].
      + rewrite <- Hacc2.
        eapply (notes_update_child "XMLAttributes");
          [done|apply keeps_cls_clef|exact Hacc1|exact Hbody].
    - by apply ret_inr in Hbody as [-> _]. }
  destruct (PyStr.startswith _ "keySignature").
  { destruct (build_or_get_attributes_ok _ (current_measure d)
                (attributes d) false Hcur Hattr) as [Hn Ha].
    pose proof (build_or_get_attributes_notes (current_measure d)
                  (attributes d) false) as HN.
    destruct (build_or_get_attributes _ _ _) as [current a].
    cbn [fst snd] in Hn, Ha, HN.
    apply bind_inr in H as (current' & s1 & Hup & H).
    apply ret_inr in H as [-> _].
    apply Hsame; [|done]. apply tuplets_continue. rewrite <- HN.
    eapply (notes_update_child "XMLAttributes");
      [done|apply keeps_cls_key|exact Ha|exact Hup]. }
  destruct (PyStr.startswith _ "timeSignature").
  { destruct (build_or_get_attributes_ok _ (current_measure d)
                (attributes d) false Hcur Hattr) as [Hn Ha].
    pose proof (build_or_get_attributes_notes (current_measure d)
                  (attributes d) false) as HN.
    destruct (build_or_get_attributes _ _ _) as [current a].
    cbn [fst snd] in Hn, Ha, HN.
    apply bind_inr in H as (current' & s1 & Hup & H).
    apply ret_inr in H as [-> _].
    apply Hsame; [|done]. apply tuplets_continue. rewrite <- HN.
    eapply (notes_update_child "XMLAttributes");
      [done|apply keeps_cls_time_signature|exact Ha|exact Hup]. }
  destruct (PyStr.contains "barline" _).
  { apply ret_inr in H as [-> _]. apply Hsame; [|done].
    apply tuplets_next. destruct (negb _); [|done].
    destruct (build_or_get_barline_notes (current_measure d) "right")
      as [HN Hb].
    destruct (build_or_get_barline _ _) as [current b].
    cbn [fst snd] in HN, Hb. rewrite <- HN.
    by apply (notes_alter_child "XMLBarline");
      [|apply cls_barline_style|]. }
  destruct (String.eqb _ "repeatStart").
  { set (d1 := next_measure (current_measure d) d) in H.
    destruct (build_or_get_barline_notes (current_measure d1) "right")
      as [HN Hb].
    destruct (build_or_get_barline _ _) as [current b].
    cbn [fst snd] in HN, Hb.
    apply ret_inr in H as [-> _]. apply Hsame; [|done].
    rewrite tuplets_continue.
    - by apply tuplets_next.
    - rewrite <- HN.
      by apply (notes_alter_child "XMLBarline"); [|apply cls_repeat|]. }
  destruct (String.eqb _ "repeatEnd").
  { destruct (build_or_get_barline_notes (current_measure d) "right")
      as [HN Hb].
    destruct (build_or_get_barline _ _) as [current b].
    cbn [fst snd] in HN, Hb.
    apply ret_inr in H as [-> _]. apply Hsame; [|done].
    apply tuplets_next. rewrite <- HN.
    by apply (notes_alter_child "XMLBarline"); [|apply cls_repeat|]. }
  destruct (String.eqb _ "repeatEndStart").
  { destruct (build_or_get_barline_notes (current_measure d) "right")
      as [HN Hb].
    destruct (build_or_get_barline (current_measure d) "right")
      as [current b].
    cbn [fst snd] in HN, Hb.
    set (d1 := next_measure
                 (mxl.alter_child (build_repeat "repeatEnd") b current) d)
      in H.
    destruct (build_or_get_barline_notes (current_measure d1) "right")
      as [HN1 Hb1].
    destruct (build_or_get_barline _ _) as [current1 b1].
    cbn [fst snd] in HN1, Hb1.
    apply ret_inr in H as [-> _]. apply Hsame; [|done].
    rewrite tuplets_continue.
    - apply tuplets_next. rewrite <- HN.
      by apply (notes_alter_child "XMLBarline"); [|apply cls_repeat|].
    - rewrite <- HN1.
      by apply (notes_alter_child "XMLBarline"); [|apply cls_repeat|]. }
  destruct (PyStr.startswith _ "voltaStart").
  { apply bind_inr in H as (volta_number & s1 & _ & H).
    destruct (build_or_get_barline_notes (current_measure d) "left")
      as [HN Hb].
    destruct (build_or_get_barline _ _) as [current b].
    cbn [fst snd] in HN, Hb.
    apply bind_inr in H as (current' & s2 & Hup & H).
    apply ret_inr in H as [-> _]. apply Hsame; [|done].
    apply tuplets_continue. rewrite <- HN.
    eapply (notes_update_child "XMLBarline");
      [done|apply keeps_cls_barline_ending|exact Hb|exact Hup]. }
  destruct (_ || _).
  { apply bind_inr in H as (volta_number & s1 & _ & H).
    destruct (build_or_get_barline_notes (current_measure d) "right")
      as [HN Hb].
    destruct (build_or_get_barline _ _) as [current b].
    cbn [fst snd] in HN, Hb.
    apply bind_inr in H as (current' & s2 & Hup & H).
    apply ret_inr in H as [-> _]. apply Hsame; [|done].
    apply tuplets_continue. rewrite <- HN.
    eapply (notes_update_child "XMLBarline");
      [done|apply keeps_cls_barline_ending|exact Hb|exact Hup]. }
  apply ret_inr in H as [-> _]. apply Hsame; [|done].
  by apply tuplets_continue.
Qed.

End DriverTuplets.

Section DocumentTuplets.
Variable sort_token_chords : list Symbol → list (list Symbol).
Variable duration_of_quarter : Z.

Lemma driver_init_notes (args : XmlGeneratorArguments)
    (division max_staff : Z) (is_first_part : bool) :
  mxl.get_children_of_type "XMLNote"
    (current_measure (driver_init args division max_staff is_first_part))
  = [].
Proof.
  unfold driver_init, build_add_time_direction. simpl.
  destruct (1 <? max_staff), is_first_part; try done;
    destruct (negb (truthy (metronome args))); try done;
    by destruct (truthy (tempo args)).
Qed.

(** The brackets of the measures are those of the chords, chord by
    chord. *)
Lemma run_driver_tuplets (args : XmlGeneratorArguments)
    (groups : list Chord) (max_staff : Z) (is_first_part : bool)
    (d : driver) (st : State) :
  run_driver duration_of_quarter args groups max_staff is_first_part
  = inr (d, st) →
  ∃ parts, tuplet_types (measures d ++ [current_measure d]) = concat parts
           ∧ Forall2 chord_brackets groups parts.
Proof.
  unfold run_driver.
  destruct (find_division_and_time_signature_nominator groups)
    as [division nominator].
  intros H.
  assert (HP : driver_ok d
               ∧ ∃ parts,
                   tuplet_types (measures d ++ [current_measure d])
                   = concat parts
                   ∧ Forall2 chord_brackets
                             (map snd (indexed_groups groups)) parts).
  { revert H.
    apply (for_each_ind _
             (λ pre d _,
                driver_ok d
                ∧ ∃ parts,
                    tuplet_types (measures d ++ [current_measure d])
                    = concat parts
                    ∧ Forall2 chord_brackets (map snd pre) parts)).
    - intros pre [gi g] rest acc s acc' s' _ [Hok (parts & HT & Hall)] Hbody.
      split; [by eapply driver_step_ok|].
      apply driver_step_tuplets in Hbody as (part & HT' & Hpart); [|done].
      exists (parts ++ [part]). split.
      + rewrite HT', HT, concat_app. simpl. by rewrite app_nil_r.
      + rewrite map_app. apply Forall2_app; [done|]. by constructor.
    - split; [apply driver_init_ok|]. exists []. split; [|constructor].
      change (measures (driver_init args division max_staff is_first_part))
        with (@nil XMLElement).
      rewrite app_nil_l, tuplet_types_measure, driver_init_notes. done. }
  destruct HP as [_ (parts & HT & Hall)]. exists parts. split; [done|].
  replace (map snd (indexed_groups groups)) with groups in Hall; [done|].
  unfold indexed_groups. apply list_eq. intros i.
  rewrite list_lookup_fmap, list_lookup_imap.
  by destruct (groups !! i).
Qed.

Lemma driver_finish_tuplets (d : driver) :
  tuplet_types (driver_finish d)
  = tuplet_types (measures d ++ [current_measure d]).
Proof.
  unfold driver_finish. rewrite tuplet_types_app, tuplet_types_children.
  destruct (mxl.get_children (current_measure d)) as [|x l] eqn:E; simpl.
  - by rewrite app_nil_r.
  - rewrite tuplet_types_app, tuplet_types_children. by rewrite E.
Qed.

End DocumentTuplets.

Section TrailingRun.

Lemma last_filter_split {A : Type} (p : A → bool) (l : list A) (g : A) :
  last (List.filter p l) = Some g →
  ∃ front tail, l = front ++ g :: tail ∧ p g = true
                ∧ Forall (λ x, p x = false) tail.
Proof.
  induction l as [|x l IH] using rev_ind; [done|].
  rewrite List.filter_app. simpl. destruct (p x) eqn:Hx.
  - rewrite last_snoc. intros [= ->]. exists l, []. by split.
  - rewrite app_nil_r. intros H.
    destruct (IH H) as (front & tail & -> & Hg & Htail).
    exists front, (tail ++ [x]). rewrite <- app_assoc. split; [done|].
    split; [done|]. apply Forall_app. split; [done|]. by constructor.
Qed.

Lemma trailing_stretch {A : Type} (q : A → bool) (l : list A) :
  ∃ pre suf, l = pre ++ suf ∧ Forall (λ x, q x = true) suf
             ∧ match last pre with
               | Some x => q x = false
               | None => True
               end.
Proof.
  induction l as [|x l IH] using rev_ind.
  - exists [], []. by split.
  - destruct (q x) eqn:Hx.
    + destruct IH as (pre & suf & -> & Hsuf & Hpre).
      exists pre, (suf ++ [x]). rewrite <- app_assoc. split; [done|].
      split; [|done]. apply Forall_app. split; [done|]. by constructor.
    + exists (l ++ [x]), []. rewrite app_nil_r, last_snoc. by split.
Qed.

Lemma no_note_no_tuplet (g : Chord) :
  existsb EncodedSymbol.is_note_or_rest (SymbolChord.symbols g) = false →
  tuplet_chord g = false ∧ emitted_as_notes g = false.
Proof.
  intros H. split.
  - apply not_true_is_false. intros Ht. unfold tuplet_chord in Ht.
    apply existsb_exists in Ht as (s & Hs & Hc).
    apply andb_true_iff in Hc as [Hc _].
    assert (existsb EncodedSymbol.is_note_or_rest (SymbolChord.symbols g)
            = true) by (apply existsb_exists; by exists s).
    congruence.
  - unfold emitted_as_notes.
    destruct (SymbolChord.symbols g) as [|s l]; [done|].
    simpl in H. apply orb_false_iff in H as [-> _]. done.
Qed.

(** Outside a run the annotator leaves the chords alone, and the first
    chord after a run gets [stop]. *)
Lemma tuplet_loop_outside (l : list Chord) :
  Forall (λ g, tuplet_chord g = false) l → tuplet_loop false l = l.
Proof.
  induction 1 as [|g l Hg _ IH]; [done|].
  rewrite tuplet_loop_cons, Hg, IH. done.
Qed.

Lemma tuplet_loop_after (l : list Chord) :
  Forall (λ g, tuplet_chord g = false) l →
  tuplet_loop true l
  = match l with
    | [] => []
    | g :: rest => SymbolChord.with_tuplet_mark "stop" g :: rest
    end.
Proof.
  intros H. destruct l as [|g l]; [done|].
  inversion H as [|? ? Hg Hl]; subst.
  rewrite tuplet_loop_cons, Hg, tuplet_loop_outside by done. done.
Qed.

(** The annotated part, around a trailing run. *)
Lemma annotated_trailing_run (pre run tail : list Chord) (first : Chord) :
  Forall (λ g, tuplet_chord g = true) (first :: run) →
  match last pre with Some g => tuplet_chord g = false | None => True end →
  Forall (λ g, tuplet_chord g = false) tail →
  add_tuplet_start_stop (pre ++ first :: run ++ tail)
  = tuplet_loop false pre
    ++ SymbolChord.with_tuplet_mark "start" first :: run
    ++ match tail with
       | [] => []
       | g :: rest => SymbolChord.with_tuplet_mark "stop" g :: rest
       end.
Proof.
  intros Hrun Hpre Htail. unfold add_tuplet_start_stop.
  rewrite tuplet_loop_app.
  assert (Hstate : (match last pre with
                    | Some g => tuplet_chord g
                    | None => false
                    end) = false).
  { destruct (last pre); [exact Hpre|done]. }
  rewrite Hstate, tuplet_loop_cons.
  inversion Hrun as [|? ? Hfirst Hrest]; subst.
  rewrite Hfirst. simpl. f_equal. f_equal.
  rewrite tuplet_loop_app, tuplet_loop_inside by done.
  f_equal.
  assert (Hlast : (match last run with
                   | Some g => tuplet_chord g
                   | None => true
                   end) = true).
  { destruct (last run) as [g|] eqn:E; [|done].
    rewrite Forall_forall in Hrest. apply Hrest.
    apply last_Some in E as [l' ->]. set_solver. }
  rewrite Hlast. by apply tuplet_loop_after.
Qed.

Lemma emitted_erase (g : Chord) :
  emitted_as_notes (erase_beams g) = emitted_as_notes g.
Proof.
  unfold emitted_as_notes, erase_beams. simpl.
  destruct (SymbolChord.symbols g) as [|s l]; [done|].
  simpl. by rewrite length_map.
Qed.

Lemma tuplet_chord_erase (g : Chord) :
  tuplet_chord (erase_beams g) = tuplet_chord g.
Proof.
  unfold tuplet_chord, erase_beams. simpl.
  induction (SymbolChord.symbols g) as [|s l IH]; [done|].
  simpl. by rewrite IH.
Qed.

Lemma chord_brackets_same (g g' : Chord) (part : list string) :
  same_notes g g' → chord_brackets g part → chord_brackets g' part.
Proof.
  unfold same_notes, chord_brackets. intros H.
  assert (H1 : SymbolChord.tuplet_mark g = SymbolChord.tuplet_mark g')
    by (apply (f_equal SymbolChord.tuplet_mark) in H; exact H).
  assert (H2 : emitted_as_notes g = emitted_as_notes g')
    by (by rewrite <- (emitted_erase g), H, emitted_erase).
  assert (H3 : tuplet_chord g = tuplet_chord g')
    by (by rewrite <- (tuplet_chord_erase g), H, tuplet_chord_erase).
  by rewrite H1, H2, H3.
Qed.

Lemma apply_beaming_same (groups : list Chord) :
  Forall2 same_notes (apply_beaming groups) groups.
Proof.
  apply clear_beams_Forall2.
  by rewrite apply_beaming_passes, !beam_pass_shape, clear_beams_idem.
Qed.

End TrailingRun.

Section TrailingRunLaw.
Variable sort_token_chords : list Symbol → list (list Symbol).
Variable duration_of_quarter : Z.

Lemma fresh_marks (l : list Chord) :
  Forall (λ g, SymbolChord.tuplet_mark g = "") l →
  map SymbolChord.tuplet_mark l = replicate (length l) "".
Proof.
  induction 1 as [|g l Hg _ IH]; [done|]. simpl. by rewrite Hg, IH.
Qed.

Lemma no_brackets_written (l : list Chord) (parts : list (list string)) :
  Forall (λ g, emitted_as_notes g = false ∨ SymbolChord.tuplet_mark g = "")
         l →
  Forall2 chord_brackets l parts → concat parts = [].
Proof.
  intros Hl H. induction H as [|g part l parts (_ & Hnone & _) _ IH];
    [done|].
  inversion Hl as [|? ? Hg Hl']; subst.
  simpl. rewrite (Hnone Hg), IH; done.
Qed.

Lemma brackets_transfer (beamed marked : list Chord)
    (parts : list (list string)) :
  Forall2 same_notes beamed marked →
  Forall2 chord_brackets beamed parts →
  Forall2 chord_brackets marked parts.
Proof.
  intros Hsame. revert parts.
  induction Hsame as [|b m beamed marked Hbm _ IH]; intros parts Hall;
    inversion Hall; subst; constructor.
  - by eapply chord_brackets_same.
  - by apply IH.
Qed.

(** C10 (trailing tuplet run), as amended.  When the last chord of the
    part that holds a note or a rest is a tuplet chord, the part ends
    with a run of tuplet chords followed by chords without note or rest
    (a final barline, say).  The annotator stamps [start] on the first
    chord of that run and nothing on its other chords; the first of the
    chords after the run is stamped [stop], the others nothing.  That
    [stop] is never written: in the document, the chords before the run
    write their brackets, the first chord of the run writes [start] with
    each of its tuplet notes, and nothing is written after that.  So,
    when the first chord of the run is converted into notes, the last
    tuplet element of the document is a [start]: the document ends with
    an unclosed bracket. *)
Theorem C10_trailing_run_is_left_open (args : XmlGeneratorArguments)
    (voice : list Symbol) (is_first_part : bool) :
  let groups := group_into_chords sort_token_chords voice in
  last_note_rest_chord_is_tuplet groups = true →
  ∃ pre first run tail,
    groups = pre ++ first :: run ++ tail
    ∧ Forall (λ g, tuplet_chord g = true) (first :: run)
    ∧ match last pre with
      | Some g => tuplet_chord g = false
      | None => True
      end
    ∧ Forall (λ g, existsb EncodedSymbol.is_note_or_rest
                           (SymbolChord.symbols g) = false) tail
    ∧ map SymbolChord.tuplet_mark
          (drop (length pre) (add_tuplet_start_stop groups))
      = trailing_marks run tail
    ∧ ∀ measures,
        build_measures sort_token_chords duration_of_quarter args voice
                       is_first_part = inr measures →
        ∃ parts starts,
          Forall2 chord_brackets
                  (take (length pre) (add_tuplet_start_stop groups)) parts
          ∧ tuplet_types measures = concat parts ++ starts
          ∧ Forall (λ type, type = "start") starts
          ∧ (emitted_as_notes first = true →
             starts ≠ [] ∧ last (tuplet_types measures) = Some "start").
Proof.
  intros groups Hlast.
  assert (Hfresh : Forall (λ g, SymbolChord.tuplet_mark g = "") groups).
  { apply Forall_lookup. intros i g Hi.
    by eapply group_into_chords_mark. }
  unfold last_note_rest_chord_is_tuplet in Hlast.
  destruct (last (List.filter _ groups)) as [g|] eqn:Hg; [|done].
  apply last_filter_split in Hg as (front & tail & Hgroups & Hnote & Htail).
  destruct (trailing_stretch tuplet_chord front)
    as (pre & suf & -> & Hsuf & Hpre).
  assert (Hsplit : ∃ first run,
             suf ++ [g] = first :: run
             ∧ Forall (λ g, tuplet_chord g = true) (first :: run)).
  { destruct suf as [|x suf'].
    - exists g, []. split; [done|]. by constructor.
    - exists x, (suf' ++ [g]). split; [done|].
      inversion Hsuf; subst. constructor; [done|].
      apply Forall_app. split; [done|]. by constructor. }
  destruct Hsplit as (first & run & Hsplit & Hrun).
  assert (Hgroups' : groups = pre ++ first :: run ++ tail).
  { rewrite Hgroups, <- app_assoc.
    change (g :: tail) with ([g] ++ tail).
    rewrite (app_assoc suf), Hsplit. done. }
  clear Hgroups Hsplit Hsuf Hlast Hnote.
  assert (Htail' : Forall (λ g, tuplet_chord g = false
                                ∧ emitted_as_notes g = false) tail).
  { eapply Forall_impl; [exact Htail|].
    intros x Hx. by apply no_note_no_tuplet. }
  assert (Hmarked : add_tuplet_start_stop groups
                    = tuplet_loop false pre
                      ++ SymbolChord.with_tuplet_mark "start" first :: run
                      ++ match tail with
                         | [] => []
                         | g :: rest =>
                             SymbolChord.with_tuplet_mark "stop" g :: rest
                         end).
  { rewrite Hgroups'. apply annotated_trailing_run; [done|done|].
    eapply Forall_impl; [exact Htail'|]. by intros x [Hx _]. }
  rewrite Hgroups' in Hfresh.
  apply Forall_app in Hfresh as [_ Hfresh].
  apply Forall_cons in Hfresh as [_ Hfresh].
  apply Forall_app in Hfresh as [Hfresh_run Hfresh_tail].
  exists pre, first, run, tail.
  split; [done|]. split; [done|]. split; [done|]. split; [done|].
  split.
  { rewrite Hmarked, drop_app_length' by (by rewrite tuplet_loop_length).
    unfold trailing_marks. simpl. f_equal. rewrite map_app.
    rewrite (fresh_marks run) by done. f_equal.
    destruct tail as [|t tail']; [done|]. simpl. f_equal.
    apply Forall_cons in Hfresh_tail as [_ Hrest].
    by apply fresh_marks. }
  intros measures Hbuild. unfold build_measures in Hbuild.
  destruct (run_driver _ _ _ _ _) as [e|[d st]] eqn:Hrun_driver; [done|].
  injection Hbuild as <-.
  apply run_driver_tuplets in Hrun_driver as (parts0 & HT & Hall).
  rewrite driver_finish_tuplets, HT.
  assert (Hall' : Forall2 chord_brackets (add_tuplet_start_stop groups)
                          parts0).
  { eapply brackets_transfer; [apply apply_beaming_same|exact Hall]. }
  rewrite Hmarked in Hall'.
  apply Forall2_app_inv_l in Hall' as (pp & rest1 & Hpp & Hrest1 & ->).
  apply Forall2_cons_inv_l in Hrest1 as (pf & rest2 & Hpf & Hrest2 & ->).
  exists pp, pf. split.
  { rewrite Hmarked, take_app_length' by (by rewrite tuplet_loop_length). done. }
  assert (Hnone : concat rest2 = []).
  { eapply no_brackets_written; [|exact Hrest2].
    apply Forall_app. split.
    - eapply Forall_impl; [exact Hfresh_run|]. intros x Hx. by right.
    - destruct tail as [|t tail']; [constructor|].
      inversion Htail' as [|? ? [_ Ht] Hrest]; subst.
      constructor; [by left|].
      eapply Forall_impl; [exact Hrest|]. intros x [_ Hx]. by left. }
  destruct Hpf as (Hstart & _ & Hsome).
  cbn [SymbolChord.tuplet_mark SymbolChord.with_tuplet_mark] in Hstart, Hsome.
  split.
  { rewrite concat_app. simpl. by rewrite Hnone, app_nil_r. }
  split; [exact Hstart|].
  intros Hemitted.
  assert (Hne : pf ≠ []).
  { apply Hsome; [exact Hemitted| |done].
    by inversion Hrun. }
  split; [done|].
  rewrite concat_app. simpl. rewrite Hnone, app_nil_r.
  destruct pf as [|x pf'] using rev_ind; [done|].
  rewrite app_assoc, last_snoc. f_equal.
  rewrite Forall_app in Hstart. destruct Hstart as [_ Hx].
  by inversion Hx.
Qed.

End TrailingRunLaw.

Lemma C10_trailing_run_is_left_open_witness :
  let groups :=
    group_into_chords (Scenario.given Scenario.triplet_then_barline) [] in
  last_note_rest_chord_is_tuplet groups = true
  ∧ ∃ pre first run tail,
      groups = pre ++ first :: run ++ tail
      ∧ map SymbolChord.tuplet_mark
            (drop (length pre) (add_tuplet_start_stop groups))
        = trailing_marks run tail
      ∧ ∀ measures,
          build_measures (Scenario.given Scenario.triplet_then_barline) 16
                         Scenario.no_args [] true = inr measures →
          emitted_as_notes first = true →
          last (tuplet_types measures) = Some "start".
Proof.
  intros groups.
  assert (H : last_note_rest_chord_is_tuplet groups = true) by reflexivity.
  split; [exact H|].
  destruct (C10_trailing_run_is_left_open
              (Scenario.given Scenario.triplet_then_barline) 16
              Scenario.no_args [] true H)
    as (pre & first & run & tail & H1 & _ & _ & _ & H5 & H6).
  exists pre, first, run, tail. split; [exact H1|]. split; [exact H5|].
  intros measures Hm He.
  destruct (H6 measures Hm) as (parts & starts & _ & _ & _ & H7).
  exact (proj2 (H7 He)).
Defined.

(** C10 as stated fails: a tuplet chord that is the last chord with a note
    or a rest, followed by the final barline, has its [start] answered by a
    [stop], which the annotator stamps on the barline chord.  The document
    is as the claim says all the same: the only tuplet element is the
    [start].  And a tuplet chord that is not converted into notes (a
    triplet eighth in the chord of a clef) is stamped [start] without any
    tuplet element in the document. *)
Lemma C10_counterexample :
  let groups :=
    group_into_chords (Scenario.given Scenario.triplet_then_barline) [] in
  let groups' :=
    group_into_chords (Scenario.given Scenario.clef_with_triplet) [] in
  last_note_rest_chord_is_tuplet groups = true
  ∧ map SymbolChord.tuplet_mark (add_tuplet_start_stop groups)
    = [""; "start"; "stop"]
  ∧ match build_measures (Scenario.given Scenario.triplet_then_barline) 16
                         Scenario.no_args [] true with
    | inr measures => tuplet_types measures = ["start"]
    | inl _ => False
    end
  ∧ last_note_rest_chord_is_tuplet groups' = true
  ∧ map SymbolChord.tuplet_mark (add_tuplet_start_stop groups') = ["start"]
  ∧ map emitted_as_notes groups' = [false]
  ∧ match build_measures (Scenario.given Scenario.clef_with_triplet) 16
                         Scenario.no_args [] true with
    | inr measures => tuplet_types measures = []
    | inl _ => False
    end.
Proof.
  split; [reflexivity|]. split; [reflexivity|]. split; [by vm_compute|].
  split; [reflexivity|]. split; [reflexivity|]. split; [reflexivity|].
  by vm_compute.
Qed.
